(** * Table interpolation (GalSim [Table.cpp]): a shallow embedding

    The C++ source works on [double]s and [int]s.  The development is
    carried out under exact arithmetic: a [double] is a rational [Q]
    (compared with [Qlt], [Qle] and [==]), an [int] is a [Z] (every
    index computed below stays between [-1] and the array length plus
    one, far away from wrap-around).  A raw pointer to a caller-owned
    array is a [list Q]; reading or writing past its end is undefined
    behaviour in C++ and is made observable here as the fault
    [OutOfBounds].  The [dbg], [xdbg] and [xassert] lines of the source
    are compiled out and have no counterpart here; of the two variants of
    [setupSpline] the one compiled without the TMV library is embedded. *)

From Stdlib Require Import ZArith QArith Qround Qabs Lia Lqa List String.
From stdpp Require Import base list.
Import ListNotations.

Local Open Scope Z_scope.

(** ** Outcomes of a call *)

Inductive fault : Type :=
| OutOfBounds                   (* access outside an array (undefined behaviour) *)
| LengthError                   (* std::vector asked for a negative element count *)
| RuntimeError (what : string)  (* throw std::runtime_error(what) *)
| Diverged.                     (* the iteration budget of a modelled loop ran out *)

Inductive result (A : Type) : Type :=
| Ok (a : A)
| Err (e : fault).

Arguments Ok {A} a.
Arguments Err {A} e.

Definition bind {A B : Type} (r : result A) (k : A -> result B) : result B :=
  match r with
  | Ok a => k a
  | Err e => Err e
  end.

Declare Scope result_scope.
Delimit Scope result_scope with result.
Notation "x <- e ;; k" := (bind e (fun x => k))
  (at level 100, e at next level, right associativity) : result_scope.
Local Open Scope result_scope.

(** Code that also updates an object in place ([mutable] members) threads
    the object through: the object survives a thrown exception. *)

Definition M (S A : Type) : Type := S -> result A * S.

Definition mret {S A : Type} (a : A) : M S A := fun s => (Ok a, s).

Definition mbind {S A B : Type} (m : M S A) (k : A -> M S B) : M S B :=
  fun s =>
    match m s with
    | (Ok a, s') => k a s'
    | (Err e, s') => (Err e, s')
    end.

Definition lift {S A : Type} (r : result A) : M S A := fun s => (r, s).

Definition reads {S A : Type} (f : S -> A) : M S A := fun s => (Ok (f s), s).

Definition modify {S : Type} (f : S -> S) : M S unit := fun s => (Ok tt, f s).

Notation "x <~ e ;; k" := (mbind e (fun x => k))
  (at level 100, e at next level, right associativity) : result_scope.

(** ** Arrays of doubles *)

(** [p[i]] for reading. *)
Definition get (v : list Q) (i : Z) : result Q :=
  if i <? 0 then Err OutOfBounds
  else match v !! Z.to_nat i with
       | Some x => Ok x
       | None => Err OutOfBounds
       end.

(** [p[i] = x]. *)
Definition put (v : list Q) (i : Z) (x : Q) : result (list Q) :=
  if (0 <=? i) && (i <? Z.of_nat (length v))
  then Ok (<[Z.to_nat i := x]> v)
  else Err OutOfBounds.

(** [std::vector<double> c(n)] and [v.resize(n)] on an empty vector: [n]
    value-initialised elements.  A negative [int] converts to a [size_t]
    above [max_size()], and the allocation throws. *)
Definition vector_new (n : Z) : result (list Q) :=
  if n <? 0 then Err LengthError else Ok (replicate (Z.to_nat n) 0%Q).

(** Comparisons of doubles, as decisions. *)
Definition Qle_lt_dec (x y : Q) : sumbool (x <= y)%Q (y < x)%Q :=
  match Qlt_le_dec y x with
  | left H => right H
  | right H => left H
  end.

(** ** [<algorithm>]: binary searches

    [std::upper_bound] and [std::lower_bound] belong to the C++ standard
    library; they are modelled by its halving loop over the range
    [first, first + len), which takes at most [len] iterations. *)

Fixpoint upper_bound_loop (fuel : nat) (v : list Q) (first len : Z) (val : Q)
  : result Z :=
  if len <=? 0 then Ok first
  else match fuel with
       | O => Err Diverged
       | S fuel' =>
           let half := Z.shiftr len 1 in
           let middle := first + half in
           m <- get v middle ;;
           if Qlt_le_dec val m
           then upper_bound_loop fuel' v first half val
           else upper_bound_loop fuel' v (middle + 1) (len - half - 1) val
       end.

Definition upper_bound (v : list Q) (first last : Z) (val : Q) : result Z :=
  upper_bound_loop (Z.to_nat (last - first)) v first (last - first) val.

Fixpoint lower_bound_loop (fuel : nat) (v : list Q) (first len : Z) (val : Q)
  : result Z :=
  if len <=? 0 then Ok first
  else match fuel with
       | O => Err Diverged
       | S fuel' =>
           let half := Z.shiftr len 1 in
           let middle := first + half in
           m <- get v middle ;;
           if Qlt_le_dec m val
           then lower_bound_loop fuel' v (middle + 1) (len - half - 1) val
           else lower_bound_loop fuel' v first half val
       end.

Definition lower_bound (v : list Q) (first last : Z) (val : Q) : result Z :=
  lower_bound_loop (Z.to_nat (last - first)) v first (last - first) val.

(** ** class ArgVec *)

Module ArgVec.

Record t : Type := mk {
  _vec : list Q;
  _n : Z;
  _lower_slop : Q;
  _upper_slop : Q;
  _equalSpaced : bool;
  _da : Q;
  _lastIndex : Z   (* mutable *)
}.

Definition set_lastIndex (li : Z) (av : t) : t :=
  mk (_vec av) (_n av) (_lower_slop av) (_upper_slop av)
     (_equalSpaced av) (_da av) li.

Definition front (av : t) : result Q := get (_vec av) 0.
Definition back (av : t) : result Q := get (_vec av) (_n av - 1).
Definition at_ (av : t) (i : Z) : result Q := get (_vec av) i.
Definition size (av : t) : Z := _n av.

Definition tolerance : Q := 1 # 100.

(** [for (int i=1; i<_n; i++) if (abs((_vec[i]-_vec[0])/_da - i) > tolerance)
    _equalSpaced = false;] with [k] iterations left. *)
Fixpoint equalSpaced_loop (k : nat) (i : Z) (vec : list Q) (da : Q) (es : bool)
  : result bool :=
  match k with
  | O => Ok es
  | S k' =>
      vi <- get vec i ;;
      v0 <- get vec 0 ;;
      let es' :=
        if Qlt_le_dec tolerance (Qabs ((vi - v0) / da - inject_Z i))
        then false else es in
      equalSpaced_loop k' (i + 1) vec da es'
  end.

(** [ArgVec::ArgVec(const double* vec, int n)].  Under exact arithmetic:
    [_da] and the deviation tested against the tolerance are the exact
    quotients, where the code rounds them; at a deviation within rounding
    of 0.01 the flag of the code may differ. *)
Definition new (vec : list Q) (n : Z) : result t :=
  b <- get vec (n - 1) ;;
  f <- get vec 0 ;;
  let da := ((b - f) / inject_Z (n - 1))%Q in
  es <- equalSpaced_loop (Z.to_nat (n - 1)) 1 vec da true ;;
  v1 <- get vec 1 ;;
  v0 <- get vec 0 ;;
  let lower_slop := ((v1 - v0) * (1 # 1000000))%Q in
  vn1 <- get vec (n - 1) ;;
  vn2 <- get vec (n - 2) ;;
  let upper_slop := ((vn1 - vn2) * (1 # 1000000))%Q in
  Ok (mk vec n lower_slop upper_slop es da 1).

(** [while (a > _vec[i]) ++i;]  The index moves by one per iteration and
    a read outside the array ends the loop, so a budget of [_n] iterations
    is never used up; the same holds for the loop after it. *)
Fixpoint scan_up (fuel : nat) (vec : list Q) (a : Q) (i : Z) : result Z :=
  vi <- get vec i ;;
  if Qlt_le_dec vi a
  then match fuel with
       | O => Err Diverged
       | S fuel' => scan_up fuel' vec a (i + 1)
       end
  else Ok i.

(** [while (a < _vec[i-1]) --i;] *)
Fixpoint scan_down (fuel : nat) (vec : list Q) (a : Q) (i : Z) : result Z :=
  vi <- get vec (i - 1) ;;
  if Qlt_le_dec a vi
  then match fuel with
       | O => Err Diverged
       | S fuel' => scan_down fuel' vec a (i - 1)
       end
  else Ok i.

(** The rest of the equal-spaced branch once the first guess [i] is
    known: clamp, then step to the bracket. *)
Definition settle (av : t) (a : Q) (i : Z) : result Z :=
  let i := if _n av <=? i then i - 1 else i in
  let i := if i =? 0 then i + 1 else i in
  let fuel := Z.to_nat (_n av) in
  i <- scan_up fuel (_vec av) a i ;;
  scan_down fuel (_vec av) a i.

(** The equal-spaced branch of [upperIndex].  Under exact arithmetic: the
    first guess is the ceiling of the exact quotient; the code takes the
    ceiling of the rounded one, which at a node may be the neighbouring
    index, and the two loops of [settle] are there to repair either. *)
Definition upperIndex_equalSpaced (a : Q) : M t Z :=
  fun av =>
    (f <- front av ;;
     settle av a (Qceiling ((a - f) / _da av)),
     av).

(** The other branch: try the brackets next to [_lastIndex], else search. *)
Definition upperIndex_search (a : Q) : M t Z :=
  li <~ reads _lastIndex ;;
  lo <~ (fun av => (at_ av (li - 1), av)) ;;
  if Qlt_le_dec a lo then
    prev <~ (fun av => (at_ av (li - 2), av)) ;;
    if Qle_lt_dec prev a then
      _ <~ modify (set_lastIndex (li - 1)) ;;
      mret (li - 1)
    else
      p <~ (fun av => (upper_bound (_vec av) 0 (li - 1) a, av)) ;;
      _ <~ modify (set_lastIndex p) ;;
      mret p
  else
    hi <~ (fun av => (at_ av li, av)) ;;
    if Qlt_le_dec hi a then
      next <~ (fun av => (at_ av (li + 1), av)) ;;
      if Qle_lt_dec a next then
        _ <~ modify (set_lastIndex (li + 1)) ;;
        mret (li + 1)
      else
        p <~ (fun av => (lower_bound (_vec av) (li + 1) (_n av) a, av)) ;;
        _ <~ modify (set_lastIndex p) ;;
        mret p
    else
      mret li.

(** [int ArgVec::upperIndex(double a) const] *)
Definition upperIndex (a : Q) : M t Z :=
  f <~ (fun av => (front av, av)) ;;
  if Qlt_le_dec a f then mret 1
  else
    b <~ (fun av => (back av, av)) ;;
    if Qlt_le_dec b a then n <~ reads _n ;; mret (n - 1)
    else
      es <~ reads _equalSpaced ;;
      if es : bool then upperIndex_equalSpaced a else upperIndex_search a.

End ArgVec.

(** ** class Table and Table::TableImpl *)

Module Table.

(** Modelled from the spec: [enum Table::interpolant] is declared in
    [Table.h], which is not among the sources.  The spec lists the five
    modes; [unrecognized tag] is any other integer converted to the
    enumeration type, the case the [default:] label of the constructor
    is written for. *)
Inductive interpolant : Type :=
| linear | floor | ceil | nearest | spline
| unrecognized (tag : Z).

(** [typedef double (TableImpl::*MemFn)(double x, int i) const] *)
Inductive MemFn : Type :=
| linearInterpolate_fn
| floorInterpolate_fn
| ceilInterpolate_fn
| nearestInterpolate_fn
| splineInterpolate_fn.

Record TableImpl : Type := mkImpl {
  _iType : interpolant;
  _args : ArgVec.t;
  _vals : list Q;
  _n : Z;
  _y2 : list Q;
  interpolate : MemFn
}.

Definition set_args (av : ArgVec.t) (t : TableImpl) : TableImpl :=
  mkImpl (_iType t) av (_vals t) (_n t) (_y2 t) (interpolate t).

Definition set_y2 (y2 : list Q) (t : TableImpl) : TableImpl :=
  mkImpl (_iType t) (_args t) (_vals t) (_n t) y2 (interpolate t).

Definition argMin (t : TableImpl) : result Q := ArgVec.front (_args t).
Definition argMax (t : TableImpl) : result Q := ArgVec.back (_args t).
Definition size (t : TableImpl) : Z := _n t.

(** The right-hand side of row [i]:
    [6. * ((_vals[i+1]-_vals[i]) / (_args[i+1]-_args[i])
           - (_vals[i]-_vals[i-1]) / (_args[i]-_args[i-1]))]. *)
Definition rhs (t : TableImpl) (i : Z) : result Q :=
  v1 <- get (_vals t) (i + 1) ;;
  v0 <- get (_vals t) i ;;
  x1 <- ArgVec.at_ (_args t) (i + 1) ;;
  x0 <- ArgVec.at_ (_args t) i ;;
  vm <- get (_vals t) (i - 1) ;;
  xm <- ArgVec.at_ (_args t) (i - 1) ;;
  Ok (6 * ((v1 - v0) / (x1 - x0) - (v0 - vm) / (x0 - xm)))%Q.

(** [for (int i=1; i<=_n-2; i++) _y2[i] = rhs(i);] *)
Fixpoint rhs_loop (k : nat) (i : Z) (t : TableImpl) (y2 : list Q)
  : result (list Q) :=
  match k with
  | O => Ok y2
  | S k' =>
      r <- rhs t i ;;
      y2 <- put y2 i r ;;
      rhs_loop k' (i + 1) t y2
  end.

(** The elimination sweep of the Thomas algorithm,
    [for (int i=1; i<=_n-2; ++i) { _y2[i] /= bb; if (i == _n-2) break; ... }],
    on the state [(bb, y2, c)]. *)
Fixpoint forward_loop (k : nat) (i : Z) (t : TableImpl)
         (bb : Q) (y2 c : list Q) : result (list Q * list Q) :=
  match k with
  | O => Ok (y2, c)
  | S k' =>
      yi <- get y2 i ;;
      y2 <- put y2 i (yi / bb)%Q ;;
      if i =? _n t - 2 then Ok (y2, c)
      else
        x1 <- ArgVec.at_ (_args t) (i + 1) ;;
        x0 <- ArgVec.at_ (_args t) i ;;
        let a := (x1 - x0)%Q in
        c <- put c (i - 1) a ;;
        ci <- get c (i - 1) ;;
        c <- put c (i - 1) (ci / bb)%Q ;;
        x2 <- ArgVec.at_ (_args t) (i + 2) ;;
        x0 <- ArgVec.at_ (_args t) i ;;
        let bb := (2 * (x2 - x0))%Q in
        ci <- get c (i - 1) ;;
        let bb := (bb - a * ci)%Q in
        yn <- get y2 (i + 1) ;;
        yi <- get y2 i ;;
        y2 <- put y2 (i + 1) (yn - a * yi)%Q ;;
        forward_loop k' (i + 1) t bb y2 c
  end.

(** The back substitution,
    [for (int i=_n-3; i>0; --i) _y2[i] -= c[i-1] * _y2[i+1];]. *)
Fixpoint backward_loop (k : nat) (i : Z) (y2 c : list Q) : result (list Q) :=
  match k with
  | O => Ok y2
  | S k' =>
      yi <- get y2 i ;;
      ci <- get c (i - 1) ;;
      yn <- get y2 (i + 1) ;;
      y2 <- put y2 i (yi - ci * yn)%Q ;;
      backward_loop k' (i - 1) y2 c
  end.

(** [void Table::TableImpl::setupSpline()], the branch compiled without
    the TMV library. *)
Definition setupSpline (t : TableImpl) : result TableImpl :=
  let n := _n t in
  y2 <- vector_new n ;;
  y2 <- put y2 0 0%Q ;;
  y2 <- put y2 (n - 1) 0%Q ;;
  if n =? 3 then
    v2 <- get (_vals t) 2 ;;
    v1 <- get (_vals t) 1 ;;
    x2 <- ArgVec.at_ (_args t) 2 ;;
    x1 <- ArgVec.at_ (_args t) 1 ;;
    v0 <- get (_vals t) 0 ;;
    x0 <- ArgVec.at_ (_args t) 0 ;;
    y2 <- put y2 1
            (3 * ((v2 - v1) / (x2 - x1) - (v1 - v0) / (x1 - x0)) / (x2 - x0))%Q ;;
    Ok (set_y2 y2 t)
  else
    c <- vector_new (n - 3) ;;
    y2 <- rhs_loop (Z.to_nat (n - 2)) 1 t y2 ;;
    x2 <- ArgVec.at_ (_args t) 2 ;;
    x0 <- ArgVec.at_ (_args t) 0 ;;
    let bb := (2 * (x2 - x0))%Q in
    yc <- forward_loop (Z.to_nat (n - 2)) 1 t bb y2 c ;;
    y2 <- backward_loop (Z.to_nat (n - 3)) (n - 3) (fst yc) (snd yc) ;;
    Ok (set_y2 y2 t).

(** [Table::TableImpl::TableImpl(args, vals, N, in)] *)
Definition new (args vals : list Q) (N : Z) (in_ : interpolant)
  : result TableImpl :=
  av <- ArgVec.new args N ;;
  fn <- match in_ with
        | linear => Ok linearInterpolate_fn
        | floor => Ok floorInterpolate_fn
        | ceil => Ok ceilInterpolate_fn
        | nearest => Ok nearestInterpolate_fn
        | spline => Ok splineInterpolate_fn
        | unrecognized _ => Err (RuntimeError "invalid interpolation method")
        end ;;
  let t := mkImpl in_ av vals N [] fn in
  match in_ with
  | spline => setupSpline t
  | _ => Ok t
  end.

(** [double Table::TableImpl::linearInterpolate(double a, int i) const],
    operation by operation; the value is the one of exact arithmetic, the
    code rounds after each operation. *)
Definition linearInterpolate (t : TableImpl) (a : Q) (i : Z) : result Q :=
  xi <- ArgVec.at_ (_args t) i ;;
  xm <- ArgVec.at_ (_args t) (i - 1) ;;
  let ax := ((xi - a) / (xi - xm))%Q in
  let bx := (1 - ax)%Q in
  vi <- get (_vals t) i ;;
  vm <- get (_vals t) (i - 1) ;;
  Ok (vi * bx + vm * ax)%Q.

Definition floorInterpolate (t : TableImpl) (a : Q) (i : Z) : result Q :=
  xi <- ArgVec.at_ (_args t) i ;;
  let i := if Qeq_dec a xi then i + 1 else i in
  get (_vals t) (i - 1).

Definition ceilInterpolate (t : TableImpl) (a : Q) (i : Z) : result Q :=
  xm <- ArgVec.at_ (_args t) (i - 1) ;;
  let i := if Qeq_dec a xm then i - 1 else i in
  get (_vals t) i.

(** [double Table::TableImpl::nearestInterpolate(double a, int i) const];
    the two distances are compared exactly, the code compares the rounded
    differences. *)
Definition nearestInterpolate (t : TableImpl) (a : Q) (i : Z) : result Q :=
  xm <- ArgVec.at_ (_args t) (i - 1) ;;
  xi <- ArgVec.at_ (_args t) i ;;
  let i := if Qlt_le_dec (a - xm) (xi - a) then i - 1 else i in
  get (_vals t) i.

(** [double Table::TableImpl::splineInterpolate(double a, int i) const],
    operation by operation; the value is the one of exact arithmetic, the
    code rounds after each operation, so that at a node its result may
    differ in the last bits from one bracket to the other. *)
Definition splineInterpolate (t : TableImpl) (a : Q) (i : Z) : result Q :=
  xi <- ArgVec.at_ (_args t) i ;;
  xm <- ArgVec.at_ (_args t) (i - 1) ;;
  let h := (xi - xm)%Q in
  let aa := (xi - a)%Q in
  let bb := (h - aa)%Q in
  vm <- get (_vals t) (i - 1) ;;
  vi <- get (_vals t) i ;;
  ym <- get (_y2 t) (i - 1) ;;
  yi <- get (_y2 t) i ;;
  Ok ((aa * vm + bb * vi
       - (1 / 6) * aa * bb * ((aa + h) * ym + (bb + h) * yi)) / h)%Q.

(** [(this->*interpolate)(a, i)] *)
Definition call (t : TableImpl) (a : Q) (i : Z) : result Q :=
  match interpolate t with
  | linearInterpolate_fn => linearInterpolate t a i
  | floorInterpolate_fn => floorInterpolate t a i
  | ceilInterpolate_fn => ceilInterpolate t a i
  | nearestInterpolate_fn => nearestInterpolate t a i
  | splineInterpolate_fn => splineInterpolate t a i
  end.

(** [double Table::TableImpl::lookup(double a) const]: the index search
    updates the cached index of [_args]. *)
Definition lookup (a : Q) : M TableImpl Q :=
  fun t =>
    let (ri, av) := ArgVec.upperIndex a (_args t) in
    let t' := set_args av t in
    (i <- ri ;; call t' a i, t').

(** [double Table::lookup(double a) const] *)
Definition Table_lookup (a : Q) : M TableImpl Q := lookup a.

(** [double Table::operator()(double a) const] *)
Definition Table_call (a : Q) : M TableImpl Q :=
  fun t =>
    match argMin t, argMax t with
    | Ok lo, Ok hi =>
        if Qlt_le_dec a lo then (Ok 0%Q, t)
        else if Qlt_le_dec hi a then (Ok 0%Q, t)
        else lookup a t
    | Err e, _ => (Err e, t)
    | _, Err e => (Err e, t)
    end.

(** [void Table::interpMany(const double* argvec, double* valvec, int N)]:
    iteration [k] of [for (int k=0; k<N; k++) valvec[k] = lookup(argvec[k]);],
    with [n] iterations to go. *)
Fixpoint interpMany_loop (n : nat) (k : Z) (argvec valvec : list Q)
  : M TableImpl (list Q) :=
  match n with
  | O => mret valvec
  | S n' =>
      a <~ lift (get argvec k) ;;
      v <~ lookup a ;;
      valvec <~ lift (put valvec k v) ;;
      interpMany_loop n' (k + 1) argvec valvec
  end.

Definition interpMany (argvec valvec : list Q) (N : Z) : M TableImpl (list Q) :=
  interpMany_loop (Z.to_nat N) 0 argvec valvec.

End Table.

(** ** class Table2D and its implementation classes *)

(** Modelled from the spec: the kernel class [InterpolantXY] is declared in
    [Interpolant.h], which is not among the sources.  The spec describes a
    kernel descriptor by its support radius, its exact-at-nodes flag and a
    pointwise evaluation function; these are the three members the table
    code calls. *)
Record InterpolantXY : Type := mkInterpolantXY {
  isExactAtNodes : bool;
  xrange : Q;
  xval : Q -> Q -> Q
}.

(** [std::numeric_limits<double>::epsilon()] *)
Definition epsilon : Q := 1 # 4503599627370496.

Module Table2D.

(** Modelled from the spec: [enum Table2D::interpolant] is declared in
    [Table.h], which is not among the sources; the seven modes are the
    labels of the [switch] in [makeImpl], and [unrecognized tag] is any
    other integer converted to the enumeration type. *)
Inductive interpolant : Type :=
| floor | ceil | nearest | linear | cubic | cubicConvolve | interpolant2d
| unrecognized (tag : Z).

(** The classes derived from [T2DCRTP<T>], with the members they add. *)
Inductive derived : Type :=
| T2DFloor
| T2DCeil
| T2DNearest
| T2DLinear
| T2DCubic (_dfdx _dfdy _d2fdxdy : list Q)
| T2DCubicConvolution
| T2DInterpolant2D (_nx : Z) (_interp2d : InterpolantXY).

(** The members of [T2DCRTP<T>], and which [T] the object is. *)
Record Table2DImpl : Type := mkImpl {
  _xargs : ArgVec.t;
  _yargs : ArgVec.t;
  _vals : list Q;
  _ny : Z;
  self : derived
}.

Definition set_xargs (av : ArgVec.t) (t : Table2DImpl) : Table2DImpl :=
  mkImpl av (_yargs t) (_vals t) (_ny t) (self t).

Definition set_yargs (av : ArgVec.t) (t : Table2DImpl) : Table2DImpl :=
  mkImpl (_xargs t) av (_vals t) (_ny t) (self t).

(** [T2DCRTP(xargs, yargs, vals, Nx, Ny)] *)
Definition T2DCRTP_new (xargs yargs vals : list Q) (Nx Ny : Z) (d : derived)
  : result Table2DImpl :=
  xa <- ArgVec.new xargs Nx ;;
  ya <- ArgVec.new yargs Ny ;;
  Ok (mkImpl xa ya vals Ny d).

(** [Table2D::makeImpl]; a null [interp2d] cannot be dereferenced. *)
Definition makeImpl (xargs yargs vals : list Q) (Nx Ny : Z) (in_ : interpolant)
           (dfdx dfdy d2fdxdy : list Q) (interp2d : option InterpolantXY)
  : result Table2DImpl :=
  match in_ with
  | floor => T2DCRTP_new xargs yargs vals Nx Ny T2DFloor
  | ceil => T2DCRTP_new xargs yargs vals Nx Ny T2DCeil
  | nearest => T2DCRTP_new xargs yargs vals Nx Ny T2DNearest
  | linear => T2DCRTP_new xargs yargs vals Nx Ny T2DLinear
  | cubic => T2DCRTP_new xargs yargs vals Nx Ny (T2DCubic dfdx dfdy d2fdxdy)
  | cubicConvolve => T2DCRTP_new xargs yargs vals Nx Ny T2DCubicConvolution
  | interpolant2d =>
      match interp2d with
      | Some k => T2DCRTP_new xargs yargs vals Nx Ny (T2DInterpolant2D Nx k)
      | None => Err OutOfBounds
      end
  | unrecognized _ => Err (RuntimeError "invalid interpolation method")
  end.

Section Members.

Variable t : Table2DImpl.

Let xs (i : Z) : result Q := ArgVec.at_ (_xargs t) i.
Let ys (j : Z) : result Q := ArgVec.at_ (_yargs t) j.
(** [arr[i*_ny+j]] *)
Let at2 (arr : list Q) (i j : Z) : result Q := get arr (i * _ny t + j).

(** *** T2DFloor, T2DCeil, T2DNearest *)

Definition Floor_interp (x y : Q) (i j : Z) : result Q :=
  xi <- xs i ;;
  let i := if Qeq_dec x xi then i + 1 else i in
  yj <- ys j ;;
  let j := if Qeq_dec y yj then j + 1 else j in
  get (_vals t) ((i - 1) * _ny t + j - 1).

Definition Floor_grad (x y : Q) (i j : Z) : result (Q * Q) :=
  Err (RuntimeError "gradient not implemented for floor interp").

Definition Ceil_interp (x y : Q) (i j : Z) : result Q :=
  xm <- xs (i - 1) ;;
  let i := if Qeq_dec x xm then i - 1 else i in
  ym <- ys (j - 1) ;;
  let j := if Qeq_dec y ym then j - 1 else j in
  get (_vals t) (i * _ny t + j).

Definition Ceil_grad (x y : Q) (i j : Z) : result (Q * Q) :=
  Err (RuntimeError "gradient not implemented for ceil interp").

(** The distances are compared exactly along each axis, the code compares
    the rounded differences. *)
Definition Nearest_interp (x y : Q) (i j : Z) : result Q :=
  xm <- xs (i - 1) ;;
  xi <- xs i ;;
  let i := if Qlt_le_dec (x - xm) (xi - x) then i - 1 else i in
  ym <- ys (j - 1) ;;
  yj <- ys j ;;
  let j := if Qlt_le_dec (y - ym) (yj - y) then j - 1 else j in
  get (_vals t) (i * _ny t + j).

Definition Nearest_grad (x y : Q) (i j : Z) : result (Q * Q) :=
  Err (RuntimeError "gradient not implemented for nearest interp").

(** *** T2DLinear *)

(** Operation by operation; the value is the one of exact arithmetic. *)
Definition Linear_interp (x y : Q) (i j : Z) : result Q :=
  xi <- xs i ;; xm <- xs (i - 1) ;;
  yj <- ys j ;; ym <- ys (j - 1) ;;
  let ax := ((xi - x) / (xi - xm))%Q in
  let ay := ((yj - y) / (yj - ym))%Q in
  let bx := (1 - ax)%Q in
  let by_ := (1 - ay)%Q in
  f00 <- at2 (_vals t) (i - 1) (j - 1) ;;
  f10 <- at2 (_vals t) i (j - 1) ;;
  f01 <- at2 (_vals t) (i - 1) j ;;
  f11 <- at2 (_vals t) i j ;;
  Ok (f00 * ax * ay + f10 * bx * ay + f01 * ax * by_ + f11 * bx * by_)%Q.

Definition Linear_grad (x y : Q) (i j : Z) : result (Q * Q) :=
  xi <- xs i ;; xm <- xs (i - 1) ;;
  yj <- ys j ;; ym <- ys (j - 1) ;;
  let dx := (xi - xm)%Q in
  let dy := (yj - ym)%Q in
  f00 <- at2 (_vals t) (i - 1) (j - 1) ;;
  f01 <- at2 (_vals t) (i - 1) j ;;
  f10 <- at2 (_vals t) i (j - 1) ;;
  f11 <- at2 (_vals t) i j ;;
  let ax := ((xi - x) / (xi - xm))%Q in
  let bx := (1 - ax)%Q in
  let ay := ((yj - y) / (yj - ym))%Q in
  let by_ := (1 - ay)%Q in
  Ok (((f10 - f00) * ay + (f11 - f01) * by_) / dx,
      ((f01 - f00) * ax + (f11 - f10) * bx) / dy)%Q.

(** *** T2DCubic *)

Definition Cubic_oneDSpline (x val0 val1 der0 der1 : Q) : Q :=
  let a := (2 * (val0 - val1) + der0 + der1)%Q in
  let b := (3 * (val1 - val0) - 2 * der0 - der1)%Q in
  let c := der0 in
  let d := val0 in
  (d + x * (c + x * (b + x * a)))%Q.

Definition Cubic_oneDGrad (x val0 val1 der0 der1 : Q) : Q :=
  let a := (2 * (val0 - val1) + der0 + der1)%Q in
  let b := (3 * (val1 - val0) - 2 * der0 - der1)%Q in
  let c := der0 in
  (c + x * (2 * b + x * 3 * a))%Q.

(** One call [f(u, p[(i-1)*_ny+jj], p[i*_ny+jj], q[(i-1)*_ny+jj]*g,
    q[i*_ny+jj]*g)] of the stage that runs along x. *)
Let along_x (f : Q -> Q -> Q -> Q -> Q -> Q) (u g : Q) (p q : list Q)
    (i jj : Z) : result Q :=
  p0 <- at2 p (i - 1) jj ;; p1 <- at2 p i jj ;;
  q0 <- at2 q (i - 1) jj ;; q1 <- at2 q i jj ;;
  Ok (f u p0 p1 (q0 * g) (q1 * g))%Q.

(** The same along y, at row [ii]. *)
Let along_y (f : Q -> Q -> Q -> Q -> Q -> Q) (u g : Q) (p q : list Q)
    (ii j : Z) : result Q :=
  p0 <- at2 p ii (j - 1) ;; p1 <- at2 p ii j ;;
  q0 <- at2 q ii (j - 1) ;; q1 <- at2 q ii j ;;
  Ok (f u p0 p1 (q0 * g) (q1 * g))%Q.

(** Operation by operation; the value is the one of exact arithmetic. *)
Definition Cubic_interp (dfdx dfdy d2fdxdy : list Q) (x y : Q) (i j : Z)
  : result Q :=
  xi <- xs i ;; xm <- xs (i - 1) ;;
  yj <- ys j ;; ym <- ys (j - 1) ;;
  let dxgrid := (xi - xm)%Q in
  let dygrid := (yj - ym)%Q in
  let dx := ((x - xm) / dxgrid)%Q in
  let dy := ((y - ym) / dygrid)%Q in
  val0 <- along_x Cubic_oneDSpline dx dxgrid (_vals t) dfdx i (j - 1) ;;
  val1 <- along_x Cubic_oneDSpline dx dxgrid (_vals t) dfdx i j ;;
  der0 <- along_x Cubic_oneDSpline dx dxgrid dfdy d2fdxdy i (j - 1) ;;
  der1 <- along_x Cubic_oneDSpline dx dxgrid dfdy d2fdxdy i j ;;
  Ok (Cubic_oneDSpline dy val0 val1 (der0 * dygrid) (der1 * dygrid))%Q.

Definition Cubic_grad (dfdx dfdy d2fdxdy : list Q) (x y : Q) (i j : Z)
  : result (Q * Q) :=
  xi <- xs i ;; xm <- xs (i - 1) ;;
  yj <- ys j ;; ym <- ys (j - 1) ;;
  let dxgrid := (xi - xm)%Q in
  let dygrid := (yj - ym)%Q in
  let dx := ((x - xm) / dxgrid)%Q in
  let dy := ((y - ym) / dygrid)%Q in
  val0 <- along_x Cubic_oneDGrad dx dxgrid (_vals t) dfdx i (j - 1) ;;
  val1 <- along_x Cubic_oneDGrad dx dxgrid (_vals t) dfdx i j ;;
  der0 <- along_x Cubic_oneDGrad dx dxgrid dfdy d2fdxdy i (j - 1) ;;
  der1 <- along_x Cubic_oneDGrad dx dxgrid dfdy d2fdxdy i j ;;
  let gx :=
    (Cubic_oneDSpline dy val0 val1 (der0 * dygrid) (der1 * dygrid) / dxgrid)%Q in
  val0 <- along_y Cubic_oneDGrad dy dygrid (_vals t) dfdy (i - 1) j ;;
  val1 <- along_y Cubic_oneDGrad dy dygrid (_vals t) dfdy i j ;;
  der0 <- along_y Cubic_oneDGrad dy dygrid dfdx d2fdxdy (i - 1) j ;;
  der1 <- along_y Cubic_oneDGrad dy dygrid dfdx d2fdxdy i j ;;
  let gy :=
    (Cubic_oneDSpline dx val0 val1 (der0 * dxgrid) (der1 * dxgrid) / dygrid)%Q in
  Ok (gx, gy).

(** *** T2DCubicConvolution *)

Definition Conv_oneDSpline (x fm1 f0 f1 f2 : Q) : Q :=
  let a := (- fm1 + 3 * (f0 - f1) + f2)%Q in
  let b := (2 * fm1 - 5 * f0 + 4 * f1 - f2)%Q in
  let c := (f1 - fm1)%Q in
  let d := (2 * f0)%Q in
  ((1 # 2) * (d + x * (c + x * (b + x * a))))%Q.

Definition Conv_oneDGrad (x fm1 f0 f1 f2 : Q) : Q :=
  let a := (- fm1 + 3 * (f0 - f1) + f2)%Q in
  let b := (2 * fm1 - 5 * f0 + 4 * f1 - f2)%Q in
  let c := (f1 - fm1)%Q in
  ((1 # 2) * (c + x * (2 * b + x * 3 * a)))%Q.

(** [f(u, _vals[(i-2)*_ny+jj], _vals[(i-1)*_ny+jj], _vals[(i+0)*_ny+jj],
    _vals[(i+1)*_ny+jj])] *)
Let column (f : Q -> Q -> Q -> Q -> Q -> Q) (u : Q) (i jj : Z) : result Q :=
  a <- at2 (_vals t) (i - 2) jj ;; b <- at2 (_vals t) (i - 1) jj ;;
  c <- at2 (_vals t) (i + 0) jj ;; d <- at2 (_vals t) (i + 1) jj ;;
  Ok (f u a b c d).

(** [f(u, _vals[ii*_ny+j-2], _vals[ii*_ny+j-1], _vals[ii*_ny+j+0],
    _vals[ii*_ny+j+1])] *)
Let row (f : Q -> Q -> Q -> Q -> Q -> Q) (u : Q) (ii j : Z) : result Q :=
  a <- at2 (_vals t) ii (j - 2) ;; b <- at2 (_vals t) ii (j - 1) ;;
  c <- at2 (_vals t) ii (j + 0) ;; d <- at2 (_vals t) ii (j + 1) ;;
  Ok (f u a b c d).

(** Operation by operation; the value is the one of exact arithmetic. *)
Definition Conv_interp (x y : Q) (i j : Z) : result Q :=
  xi <- xs i ;; xm <- xs (i - 1) ;;
  yj <- ys j ;; ym <- ys (j - 1) ;;
  let dxgrid := (xi - xm)%Q in
  let dygrid := (yj - ym)%Q in
  let dx := ((x - xm) / dxgrid)%Q in
  let dy := ((y - ym) / dygrid)%Q in
  valm1 <- column Conv_oneDSpline dx i (j - 2) ;;
  val0 <- column Conv_oneDSpline dx i (j - 1) ;;
  val1 <- column Conv_oneDSpline dx i (j + 0) ;;
  val2 <- column Conv_oneDSpline dx i (j + 1) ;;
  Ok (Conv_oneDSpline dy valm1 val0 val1 val2).

Definition Conv_grad (x y : Q) (i j : Z) : result (Q * Q) :=
  xi <- xs i ;; xm <- xs (i - 1) ;;
  yj <- ys j ;; ym <- ys (j - 1) ;;
  let dxgrid := (xi - xm)%Q in
  let dygrid := (yj - ym)%Q in
  let dx := ((x - xm) / dxgrid)%Q in
  let dy := ((y - ym) / dygrid)%Q in
  valm1 <- column Conv_oneDGrad dx i (j - 2) ;;
  val0 <- column Conv_oneDGrad dx i (j - 1) ;;
  val1 <- column Conv_oneDGrad dx i (j + 0) ;;
  val2 <- column Conv_oneDGrad dx i (j + 1) ;;
  let gx := (Conv_oneDSpline dy valm1 val0 val1 val2 / dxgrid)%Q in
  valm1 <- row Conv_oneDGrad dy (i - 2) j ;;
  val0 <- row Conv_oneDGrad dy (i - 1) j ;;
  val1 <- row Conv_oneDGrad dy (i + 0) j ;;
  val2 <- row Conv_oneDGrad dy (i + 1) j ;;
  let gy := (Conv_oneDSpline dx valm1 val0 val1 val2 / dygrid)%Q in
  Ok (gx, gy).

(** *** T2DInterpolant2D *)

(** The first and last node of the kernel's support along one axis,
    before clamping to the grid: [u] is the offset inside bracket [i]. *)
Definition support (k : InterpolantXY) (i : Z) (u : Q) : Z * Z :=
  if isExactAtNodes k && (if Qlt_le_dec (Qabs u) (10 * epsilon) then true else false)
  then (i - 1, i - 1)
  else (i - 1 + Qceiling (u - xrange k), i - 1 + Qfloor (u + xrange k)).

(** [for (int ix=ixMin; ix<=ixMax; ix++)
     sum += _vals[ix*_ny+iy] * _interp2d.xval(i-1+dx-ix, j-1+dy-iy);] *)
Fixpoint Interp_inner (n : nat) (k : InterpolantXY) (i j : Z) (dx dy : Q)
         (iy ix : Z) (sum : Q) : result Q :=
  match n with
  | O => Ok sum
  | S n' =>
      v <- at2 (_vals t) ix iy ;;
      let w := xval k (inject_Z (i - 1) + dx - inject_Z ix)
                      (inject_Z (j - 1) + dy - inject_Z iy) in
      Interp_inner n' k i j dx dy iy (ix + 1) (sum + v * w)%Q
  end.

(** [for (int iy=iyMin; iy<=iyMax; iy++) ...] *)
Fixpoint Interp_outer (n : nat) (k : InterpolantXY) (i j : Z) (dx dy : Q)
         (ixMin ixMax iy : Z) (sum : Q) : result Q :=
  match n with
  | O => Ok sum
  | S n' =>
      sum <- Interp_inner (Z.to_nat (ixMax - ixMin + 1)) k i j dx dy
               iy ixMin sum ;;
      Interp_outer n' k i j dx dy ixMin ixMax (iy + 1) sum
  end.

Definition Interp_interp (nx : Z) (k : InterpolantXY) (x y : Q) (i j : Z)
  : result Q :=
  xi <- xs i ;; xm <- xs (i - 1) ;;
  yj <- ys j ;; ym <- ys (j - 1) ;;
  let dxgrid := (xi - xm)%Q in
  let dygrid := (yj - ym)%Q in
  let dx := ((x - xm) / dxgrid)%Q in
  let dy := ((y - ym) / dygrid)%Q in
  let ixMin := Z.max (fst (support k i dx)) 0 in
  let ixMax := Z.min (snd (support k i dx)) (nx - 1) in
  if ixMax <? ixMin then Ok 0%Q
  else
    let iyMin := Z.max (fst (support k j dy)) 0 in
    let iyMax := Z.min (snd (support k j dy)) (_ny t - 1) in
    if iyMax <? iyMin then Ok 0%Q
    else
      Interp_outer (Z.to_nat (iyMax - iyMin + 1)) k i j dx dy
        ixMin ixMax iyMin 0%Q.

Definition Interp_grad (x y : Q) (i j : Z) : result (Q * Q) :=
  Err (RuntimeError "gradient not implemented for Interp interp").

(** [static_cast<const T*>(this)->interp(x, y, i, j)] *)
Definition interp (x y : Q) (i j : Z) : result Q :=
  match self t with
  | T2DFloor => Floor_interp x y i j
  | T2DCeil => Ceil_interp x y i j
  | T2DNearest => Nearest_interp x y i j
  | T2DLinear => Linear_interp x y i j
  | T2DCubic dfdx dfdy d2fdxdy => Cubic_interp dfdx dfdy d2fdxdy x y i j
  | T2DCubicConvolution => Conv_interp x y i j
  | T2DInterpolant2D nx k => Interp_interp nx k x y i j
  end.

(** [static_cast<const T*>(this)->grad(x, y, i, j, dfdx, dfdy)] *)
Definition grad (x y : Q) (i j : Z) : result (Q * Q) :=
  match self t with
  | T2DFloor => Floor_grad x y i j
  | T2DCeil => Ceil_grad x y i j
  | T2DNearest => Nearest_grad x y i j
  | T2DLinear => Linear_grad x y i j
  | T2DCubic dfdx dfdy d2fdxdy => Cubic_grad dfdx dfdy d2fdxdy x y i j
  | T2DCubicConvolution => Conv_grad x y i j
  | T2DInterpolant2D _ _ => Interp_grad x y i j
  end.

End Members.

(** The two index searches every entry point starts with. *)
Definition upperIndices (x y : Q) : M Table2DImpl (Z * Z) :=
  fun t =>
    let (ri, xa) := ArgVec.upperIndex x (_xargs t) in
    let t := set_xargs xa t in
    match ri with
    | Err e => (Err e, t)
    | Ok i =>
        let (rj, ya) := ArgVec.upperIndex y (_yargs t) in
        let t := set_yargs ya t in
        (j <- rj ;; Ok (i, j), t)
    end.

(** [double lookup(double x, double y) const] *)
Definition lookup (x y : Q) : M Table2DImpl Q :=
  ij <~ upperIndices x y ;;
  fun t => (interp t x y (fst ij) (snd ij), t).

(** [void gradient(double x, double y, double& dfdx, double& dfdy) const] *)
Definition gradient (x y : Q) : M Table2DImpl (Q * Q) :=
  ij <~ upperIndices x y ;;
  fun t => (grad t x y (fst ij) (snd ij), t).

(** [void interpMany(xvec, yvec, valvec, N) const]: iteration [k] of the
    loop, with [n] iterations to go. *)
Fixpoint interpMany_loop (n : nat) (k : Z) (xvec yvec valvec : list Q)
  : M Table2DImpl (list Q) :=
  match n with
  | O => mret valvec
  | S n' =>
      x <~ lift (get xvec k) ;;
      y <~ lift (get yvec k) ;;
      v <~ lookup x y ;;
      valvec <~ lift (put valvec k v) ;;
      interpMany_loop n' (k + 1) xvec yvec valvec
  end.

Definition interpMany (xvec yvec valvec : list Q) (N : Z)
  : M Table2DImpl (list Q) :=
  interpMany_loop (Z.to_nat N) 0 xvec yvec valvec.

(** [void gradientMany(xvec, yvec, dfdxvec, dfdyvec, N) const] *)
Fixpoint gradientMany_loop (n : nat) (k : Z) (xvec yvec dfdxvec dfdyvec : list Q)
  : M Table2DImpl (list Q * list Q) :=
  match n with
  | O => mret (dfdxvec, dfdyvec)
  | S n' =>
      x <~ lift (get xvec k) ;;
      y <~ lift (get yvec k) ;;
      g <~ gradient x y ;;
      dfdxvec <~ lift (put dfdxvec k (fst g)) ;;
      dfdyvec <~ lift (put dfdyvec k (snd g)) ;;
      gradientMany_loop n' (k + 1) xvec yvec dfdxvec dfdyvec
  end.

Definition gradientMany (xvec yvec dfdxvec dfdyvec : list Q) (N : Z)
  : M Table2DImpl (list Q * list Q) :=
  gradientMany_loop (Z.to_nat N) 0 xvec yvec dfdxvec dfdyvec.

End Table2D.

(** * Properties *)

(** ** Vocabulary of the statements *)

(** [v[i]], for statements about arrays. *)
Definition elt (v : list Q) (i : Z) : Q := nth (Z.to_nat i) v 0%Q.

Definition len (v : list Q) : Z := Z.of_nat (length v).

Arguments elt : simpl never.
Arguments get : simpl never.
Arguments put : simpl never.
Arguments len : simpl never.

(** A strictly increasing array. *)
Fixpoint increasing (v : list Q) : Prop :=
  match v with
  | x :: (y :: _) as rest => (x < y)%Q /\ increasing rest
  | _ => True
  end.

(** What the constructor of [ArgVec] establishes on a strictly increasing
    array of at least two doubles, and what every later call keeps. *)
Record ArgVec_inv (av : ArgVec.t) : Prop := mkArgVec_inv {
  inv_n : ArgVec._n av = len (ArgVec._vec av);
  inv_two : 2 <= ArgVec._n av;
  inv_incr : increasing (ArgVec._vec av);
  inv_da : (ArgVec._da av ==
            (elt (ArgVec._vec av) (ArgVec._n av - 1) - elt (ArgVec._vec av) 0)
            / inject_Z (ArgVec._n av - 1))%Q;
  inv_last : 1 <= ArgVec._lastIndex av <= ArgVec._n av - 1
}.

(** The state of an [ArgVec] after a sequence of [upperIndex] calls. *)
Definition calls (qs : list Q) (av : ArgVec.t) : ArgVec.t :=
  fold_left (fun av a => snd (ArgVec.upperIndex a av)) qs av.

(** [a] is none of the interior nodes [v[1]], ..., [v[n-2]]. *)
Definition off_interior_nodes (v : list Q) (a : Q) : Prop :=
  forall k, 1 <= k <= len v - 2 -> ~ (a == elt v k)%Q.

(** The right-hand side of row [i] of the spline system. *)
Definition spline_rhs (x y : list Q) (i : Z) : Q :=
  (6 * ((elt y (i + 1) - elt y i) / (elt x (i + 1) - elt x i)
        - (elt y i - elt y (i - 1)) / (elt x i - elt x (i - 1))))%Q.

(** Row [i] of the tridiagonal system of the natural cubic spline through
    the points [(x[i], y[i])], for the second derivatives [z]. *)
Definition tridiagonal_row (x y z : list Q) (i : Z) : Prop :=
  ((elt x i - elt x (i - 1)) * elt z (i - 1)
   + 2 * (elt x (i + 1) - elt x (i - 1)) * elt z i
   + (elt x (i + 1) - elt x i) * elt z (i + 1)
   == spline_rhs x y i)%Q.

(** The quantities of the Thomas algorithm on that system; row [i >= 1] of
    the system is numbered [k = i - 1] here.  [pivot x k] is the diagonal
    entry left in row [k] by the elimination, [numer x y k] its right-hand
    side, [reduced] and [coef] the entries of the row once divided by the
    pivot, and [solve x y k m] the unknown of row [k] when [m] rows follow. *)
Fixpoint pivot (x : list Q) (k : nat) : Q :=
  match k with
  | O => (2 * (elt x 2 - elt x 0))%Q
  | S k' =>
      let i := Z.of_nat k' + 1 in
      let a := (elt x (i + 1) - elt x i)%Q in
      (2 * (elt x (i + 2) - elt x i) - a * (a / pivot x k'))%Q
  end.

Fixpoint numer (x y : list Q) (k : nat) : Q :=
  match k with
  | O => spline_rhs x y 1
  | S k' =>
      let i := Z.of_nat k' + 1 in
      let a := (elt x (i + 1) - elt x i)%Q in
      (spline_rhs x y (i + 1) - a * (numer x y k' / pivot x k'))%Q
  end.

Definition reduced (x y : list Q) (k : nat) : Q := (numer x y k / pivot x k)%Q.

Definition coef (x : list Q) (k : nat) : Q :=
  let i := Z.of_nat k + 1 in
  ((elt x (i + 1) - elt x i) / pivot x k)%Q.

Fixpoint solve (x y : list Q) (k m : nat) : Q :=
  match m with
  | O => reduced x y k
  | S m' => (reduced x y k - coef x k * solve x y (S k) m')%Q
  end.

(** What the constructor of a [Table] establishes on strictly increasing
    arguments with as many values, and what every lookup keeps. *)
Record Table_inv (t : Table.TableImpl) : Prop := mkTable_inv {
  tinv_args : ArgVec_inv (Table._args t);
  tinv_n : Table._n t = ArgVec._n (Table._args t);
  tinv_vals : len (Table._vals t) = Table._n t;
  tinv_y2 : Table.interpolate t = Table.splineInterpolate_fn ->
            len (Table._y2 t) = Table._n t
}.

(** The state of a table after a sequence of lookups. *)
Definition Table_after (qs : list Q) (t : Table.TableImpl) : Table.TableImpl :=
  fold_left (fun t a => snd (Table.lookup a t)) qs t.

(** The table [t] with the cached index of its arguments set to [li]. *)
Definition rehint (li : Z) (t : Table.TableImpl) : Table.TableImpl :=
  Table.set_args (ArgVec.set_lastIndex li (Table._args t)) t.

(** What [makeImpl] establishes on two strictly increasing axes and a grid
    of [Nx * Ny] values, and what every call keeps. *)
Record Table2D_inv (t : Table2D.Table2DImpl) : Prop := mkTable2D_inv {
  t2inv_x : ArgVec_inv (Table2D._xargs t);
  t2inv_y : ArgVec_inv (Table2D._yargs t);
  t2inv_ny : Table2D._ny t = ArgVec._n (Table2D._yargs t);
  t2inv_vals :
    len (Table2D._vals t) = ArgVec._n (Table2D._xargs t) * Table2D._ny t;
  t2inv_nx : forall nx k, Table2D.self t = Table2D.T2DInterpolant2D nx k ->
                          nx = ArgVec._n (Table2D._xargs t)
}.

(** The state of a 2D table after a sequence of lookups; a gradient call
    at the same point leaves the same state. *)
Definition Table2D_after (pts : list (Q * Q)) (t : Table2D.Table2DImpl)
  : Table2D.Table2DImpl :=
  fold_left (fun t p => snd (Table2D.lookup (fst p) (snd p) t)) pts t.

(** The 2D table [t] with the cached indices of its axes set to [lx], [ly]. *)
Definition rehint2 (lx ly : Z) (t : Table2D.Table2DImpl) : Table2D.Table2DImpl :=
  Table2D.set_yargs (ArgVec.set_lastIndex ly (Table2D._yargs t))
    (Table2D.set_xargs (ArgVec.set_lastIndex lx (Table2D._xargs t)) t).

(** The class selected by [makeImpl] for a mode. *)
Definition derived_of (m : Table2D.interpolant) (nx : Z)
           (dfdx dfdy d2fdxdy : list Q) (k : InterpolantXY) : Table2D.derived :=
  match m with
  | Table2D.floor => Table2D.T2DFloor
  | Table2D.ceil => Table2D.T2DCeil
  | Table2D.nearest => Table2D.T2DNearest
  | Table2D.linear => Table2D.T2DLinear
  | Table2D.cubic => Table2D.T2DCubic dfdx dfdy d2fdxdy
  | Table2D.cubicConvolve => Table2D.T2DCubicConvolution
  | _ => Table2D.T2DInterpolant2D nx k
  end.

(** The offset of [a] inside bracket [i] of an axis, in units of the
    bracket: [(a - args[i-1]) / (args[i] - args[i-1])]. *)
Definition offset (args : list Q) (a : Q) (i : Z) : Q :=
  ((a - elt args (i - 1)) / (elt args i - elt args (i - 1)))%Q.

(** The nodes of an axis of [n] nodes inside the kernel's support around
    offset [u] of bracket [i]: [ixMin], [ixMax] after clamping. *)
Definition window (k : InterpolantXY) (n i : Z) (u : Q) : Z * Z :=
  (Z.max (fst (Table2D.support k i u)) 0,
   Z.min (snd (Table2D.support k i u)) (n - 1)).

(** The text of the exception by which a mode refuses a gradient. *)
Definition gradient_refusal (m : Table2D.interpolant) : string :=
  match m with
  | Table2D.floor => "gradient not implemented for floor interp"
  | Table2D.ceil => "gradient not implemented for ceil interp"
  | Table2D.nearest => "gradient not implemented for nearest interp"
  | _ => "gradient not implemented for Interp interp"
  end.

(** A call that ends in an error only by leaving an array. *)
Definition only_out_of_bounds {A : Type} (r : result A) : Prop :=
  match r with
  | Ok _ => True
  | Err e => e = OutOfBounds
  end.

(** The query points [(xvec[k], yvec[k])], ..., [(xvec[k+n-1], yvec[k+n-1])]
    of a call of [interpMany], in the order of the loop. *)
Fixpoint queries (n : nat) (k : Z) (xvec yvec : list Q) : list (Q * Q) :=
  match n with
  | O => []
  | S n' => (elt xvec k, elt yvec k) :: queries n' (k + 1) xvec yvec
  end.

(** The value of the formula of mode [m] at bracket [i] for a query [a]
    outside the domain, over the arguments [x], the values [y] and the
    second derivatives [y2]; [lower] tells a query below the first
    argument from one above the last.  The step modes give the value of a
    node: floor [y[i-1]], ceil [y[i]], nearest [y[i-1]] below and [y[i]]
    above.  Linear and spline give the line and the cubic of the bracket,
    prolonged to [a], with the operations in the order of the source. *)
Definition extrapolation (m : Table.interpolant) (x y y2 : list Q) (i : Z)
           (lower : bool) (a : Q) : Q :=
  match m with
  | Table.floor => elt y (i - 1)
  | Table.ceil => elt y i
  | Table.nearest => if lower then elt y (i - 1) else elt y i
  | Table.linear =>
      let ax := ((elt x i - a) / (elt x i - elt x (i - 1)))%Q in
      let bx := (1 - ax)%Q in
      (elt y i * bx + elt y (i - 1) * ax)%Q
  | Table.spline =>
      let h := (elt x i - elt x (i - 1))%Q in
      let aa := (elt x i - a)%Q in
      let bb := (h - aa)%Q in
      ((aa * elt y (i - 1) + bb * elt y i
        - (1 / 6) * aa * bb * ((aa + h) * elt y2 (i - 1) + (bb + h) * elt y2 i))
       / h)%Q
  | Table.unrecognized _ => 0%Q
  end.

(** The queries [argvec[k]], ..., [argvec[k+n-1]] of a call of the
    one-dimensional [interpMany], in the order of the loop. *)
Fixpoint points (n : nat) (k : Z) (argvec : list Q) : list Q :=
  match n with
  | O => []
  | S n' => elt argvec k :: points n' (k + 1) argvec
  end.

(** Projections of an [ArgVec] applied to a constructor, and binds on a
    known outcome. *)
Ltac av_norm :=
  cbn [ArgVec._vec ArgVec._n ArgVec._equalSpaced ArgVec._da ArgVec._lastIndex
       ArgVec.set_lastIndex bind fst snd].

(** ** Arrays *)

Lemma get_ok (v : list Q) (i : Z) :
  0 <= i < len v -> get v i = Ok (elt v i).
Proof.
  intros [Hlo Hhi]. unfold get, elt, len in *.
  destruct (Z.ltb_spec i 0) as [Hneg|_]; [lia|].
  destruct (lookup_lt_is_Some_2 v (Z.to_nat i)) as [x Hx]; [lia|].
  rewrite Hx. now rewrite (nth_lookup_Some _ _ 0%Q _ Hx).
Qed.

Lemma get_err (v : list Q) (i : Z) :
  i < 0 \/ len v <= i -> get v i = Err OutOfBounds.
Proof.
  intros H. unfold get, len in *.
  destruct (Z.ltb_spec i 0) as [Hneg|Hpos]; [reflexivity|].
  rewrite (lookup_ge_None_2 v (Z.to_nat i)); [reflexivity|lia].
Qed.

Lemma get_inv (v : list Q) (i : Z) (x : Q) :
  get v i = Ok x -> 0 <= i < len v /\ x = elt v i.
Proof.
  intros H.
  destruct (Z_lt_dec i 0) as [Hn|Hn]; [rewrite get_err in H by lia; discriminate|].
  destruct (Z_le_dec (len v) i) as [Hl|Hl]; [rewrite get_err in H by lia; discriminate|].
  rewrite get_ok in H by lia. split; [lia|congruence].
Qed.

Lemma increasing_tail (x : Q) (v : list Q) : increasing (x :: v) -> increasing v.
Proof. destruct v; simpl; tauto. Qed.

Lemma increasing_nth (v : list Q) :
  increasing v ->
  forall i j : nat, (i < j < length v)%nat -> (nth i v 0 < nth j v 0)%Q.
Proof.
  induction v as [|x v IH]; intros Hv i j Hij; simpl in Hij; [lia|].
  destruct j as [|j]; [lia|].
  assert (Hhead : forall k : nat, (k < length v)%nat -> (x < nth k v 0)%Q).
  { clear i Hij. intros k. revert x Hv. clear IH. revert k.
    induction v as [|y v IHv]; intros k x Hv Hk; simpl in Hk; [lia|].
    destruct Hv as [Hxy Hv]. destruct k as [|k]; simpl; [exact Hxy|].
    apply Qlt_trans with y; [exact Hxy|]. apply IHv; [exact Hv|lia]. }
  destruct i as [|i]; simpl.
  - apply Hhead. lia.
  - apply IH; [eapply increasing_tail; eassumption|lia].
Qed.

Lemma increasing_elt (v : list Q) (i j : Z) :
  increasing v -> 0 <= i -> i < j -> j < len v -> (elt v i < elt v j)%Q.
Proof.
  intros Hv Hi Hij Hj. unfold elt, len in *.
  apply increasing_nth; [exact Hv|lia].
Qed.

Lemma increasing_elt_le (v : list Q) (i j : Z) :
  increasing v -> 0 <= i -> i <= j -> j < len v -> (elt v i <= elt v j)%Q.
Proof.
  intros Hv Hi Hij Hj.
  destruct (Z.eq_dec i j) as [->|Hne]; [apply Qle_refl|].
  apply Qlt_le_weak, increasing_elt; [assumption|lia..].
Qed.

(** In a strictly increasing array the order of two elements is the order
    of their indices. *)
Lemma increasing_index_le (v : list Q) (i j : Z) :
  increasing v -> 0 <= i < len v -> 0 <= j < len v ->
  (elt v i <= elt v j)%Q -> i <= j.
Proof.
  intros Hv Hi Hj Hle.
  destruct (Z_le_dec i j) as [|Hgt]; [assumption|].
  assert (elt v j < elt v i)%Q by (apply increasing_elt; [assumption|lia..]).
  lra.
Qed.

(** ** The binary searches *)

Lemma shiftr1_bounds (n : Z) : 0 < n -> 0 <= Z.shiftr n 1 < n.
Proof.
  intros Hn. rewrite Z.shiftr_div_pow2 by lia. change (2 ^ 1) with 2.
  split; [apply Z.div_pos; lia|apply Z.div_lt; lia].
Qed.

(** [std::upper_bound] returns a position whose left neighbour, if inside
    the range, is [<= val] and which, if inside the range, is [> val];
    the array need not be sorted for that much. *)
Lemma upper_bound_loop_spec (v : list Q) (val : Q) (fuel : nat) :
  forall first n : Z,
    0 <= first -> first + n <= len v -> n <= Z.of_nat fuel ->
    exists p, upper_bound_loop fuel v first n val = Ok p
              /\ first <= p <= first + Z.max n 0
              /\ (first < p -> (elt v (p - 1) <= val)%Q)
              /\ (p < first + n -> (val < elt v p)%Q).
Proof.
  induction fuel as [|fuel IH]; intros first n Hf Hl Hfuel.
  - simpl. destruct (Z.leb_spec n 0); [|lia].
    exists first. repeat split; try lia.
  - simpl. destruct (Z.leb_spec n 0) as [Hn|Hn].
    + exists first. repeat split; try lia.
    + pose proof (shiftr1_bounds n Hn) as Hh.
      set (half := Z.shiftr n 1) in *.
      rewrite get_ok by lia. simpl.
      destruct (Qlt_le_dec val (elt v (first + half))) as [Hlt|Hge].
      * destruct (IH first half) as (p & -> & Hp & Hleft & Hright); [lia..|].
        exists p. repeat split; try lia; [exact Hleft|].
        intros _. destruct (Z.eq_dec p (first + half)) as [->|Hne];
          [exact Hlt|apply Hright; lia].
      * destruct (IH (first + half + 1) (n - half - 1))
          as (p & -> & Hp & Hleft & Hright); [lia..|].
        exists p. repeat split; try lia; [|intros; apply Hright; lia].
        intros _. destruct (Z.eq_dec p (first + half + 1)) as [->|Hne];
          [|apply Hleft; lia].
        replace (first + half + 1 - 1) with (first + half) by lia. exact Hge.
Qed.

Lemma lower_bound_loop_spec (v : list Q) (val : Q) (fuel : nat) :
  forall first n : Z,
    0 <= first -> first + n <= len v -> n <= Z.of_nat fuel ->
    exists p, lower_bound_loop fuel v first n val = Ok p
              /\ first <= p <= first + Z.max n 0
              /\ (first < p -> (elt v (p - 1) < val)%Q)
              /\ (p < first + n -> (val <= elt v p)%Q).
Proof.
  induction fuel as [|fuel IH]; intros first n Hf Hl Hfuel.
  - simpl. destruct (Z.leb_spec n 0); [|lia].
    exists first. repeat split; try lia.
  - simpl. destruct (Z.leb_spec n 0) as [Hn|Hn].
    + exists first. repeat split; try lia.
    + pose proof (shiftr1_bounds n Hn) as Hh.
      set (half := Z.shiftr n 1) in *.
      rewrite get_ok by lia. simpl.
      destruct (Qlt_le_dec (elt v (first + half)) val) as [Hlt|Hge].
      * destruct (IH (first + half + 1) (n - half - 1))
          as (p & -> & Hp & Hleft & Hright); [lia..|].
        exists p. repeat split; try lia; [|intros; apply Hright; lia].
        intros _. destruct (Z.eq_dec p (first + half + 1)) as [->|Hne];
          [|apply Hleft; lia].
        replace (first + half + 1 - 1) with (first + half) by lia. exact Hlt.
      * destruct (IH first half) as (p & -> & Hp & Hleft & Hright); [lia..|].
        exists p. repeat split; try lia; [exact Hleft|].
        intros _. destruct (Z.eq_dec p (first + half)) as [->|Hne];
          [exact Hge|apply Hright; lia].
Qed.

(** ** ArgVec: the index search *)

Lemma scan_up_spec (vec : list Q) (a : Q) :
  (a <= elt vec (len vec - 1))%Q ->
  forall (fuel : nat) (i : Z),
    0 <= i <= len vec - 1 -> len vec - 1 - i <= Z.of_nat fuel ->
    exists i', ArgVec.scan_up fuel vec a i = Ok i'
               /\ i <= i' <= len vec - 1 /\ (a <= elt vec i')%Q.
Proof.
  intros Hback. induction fuel as [|fuel IH]; intros i Hi Hfuel.
  - assert (i = len vec - 1) as -> by lia. simpl.
    rewrite get_ok by lia. simpl.
    destruct (Qlt_le_dec (elt vec (len vec - 1)) a) as [Hlt|Hge]; [lra|].
    eexists; repeat split; [lia..|exact Hge].
  - simpl. rewrite get_ok by lia. simpl.
    destruct (Qlt_le_dec (elt vec i) a) as [Hlt|Hge].
    + assert (i <> len vec - 1) by (intros ->; lra).
      destruct (IH (i + 1)) as (i' & -> & Hi' & Ha); [lia..|].
      exists i'. repeat split; [lia..|exact Ha].
    + eexists; repeat split; [lia..|exact Hge].
Qed.

Lemma scan_down_spec (vec : list Q) (a : Q) :
  (elt vec 0 <= a)%Q ->
  forall (fuel : nat) (i : Z),
    1 <= i <= len vec - 1 -> i - 1 <= Z.of_nat fuel -> (a <= elt vec i)%Q ->
    exists i', ArgVec.scan_down fuel vec a i = Ok i'
               /\ 1 <= i' <= i /\ (elt vec (i' - 1) <= a <= elt vec i')%Q.
Proof.
  intros Hfront. induction fuel as [|fuel IH]; intros i Hi Hfuel Ha.
  - assert (i = 1) as -> by lia. simpl.
    rewrite get_ok by lia. change (1 - 1) with 0. simpl.
    destruct (Qlt_le_dec a (elt vec 0)) as [Hlt|Hge]; [lra|].
    eexists; repeat split; [lia..|exact Hge|exact Ha].
  - simpl. rewrite get_ok by lia. simpl.
    destruct (Qlt_le_dec a (elt vec (i - 1))) as [Hlt|Hge].
    + assert (i <> 1) by (intros ->; change (1 - 1) with 0 in Hlt; lra).
      destruct (IH (i - 1)) as (i' & -> & Hi' & Hb); [lia..|lra|].
      exists i'. repeat split; [lia..|apply Hb|apply Hb].
    + eexists; repeat split; [lia..|exact Hge|exact Ha].
Qed.

(** Whatever first guess between [0] and [_n] the division produces, the
    clamp and the two stepping loops end on a bracket of [a]. *)
Lemma settle_spec (av : ArgVec.t) (a : Q) (i0 : Z) :
  ArgVec._n av = len (ArgVec._vec av) -> 2 <= ArgVec._n av ->
  (elt (ArgVec._vec av) 0 <= a <= elt (ArgVec._vec av) (ArgVec._n av - 1))%Q ->
  0 <= i0 <= ArgVec._n av ->
  exists i, ArgVec.settle av a i0 = Ok i
            /\ 1 <= i <= ArgVec._n av - 1
            /\ (elt (ArgVec._vec av) (i - 1) <= a <= elt (ArgVec._vec av) i)%Q.
Proof.
  intros Hn Htwo [Hlo Hhi] Hi0. unfold ArgVec.settle.
  set (i1 := if ArgVec._n av <=? i0 then i0 - 1 else i0).
  set (i2 := if i1 =? 0 then i1 + 1 else i1).
  assert (1 <= i2 <= ArgVec._n av - 1) as Hi2.
  { subst i1 i2. destruct (Z.leb_spec (ArgVec._n av) i0);
      [destruct (Z.eqb_spec (i0 - 1) 0)|destruct (Z.eqb_spec i0 0)]; lia. }
  clearbody i2. clear i1. rewrite Hn in *.
  destruct (scan_up_spec (ArgVec._vec av) a Hhi
              (Z.to_nat (len (ArgVec._vec av))) i2) as (i3 & -> & Hi3 & Ha3);
    [lia..|].
  simpl.
  destruct (scan_down_spec (ArgVec._vec av) a Hlo
              (Z.to_nat (len (ArgVec._vec av))) i3) as (i4 & -> & Hi4 & Ha4);
    [lia..|exact Ha3|].
  exists i4. repeat split; [lia..|apply Ha4|apply Ha4].
Qed.

(** Under exact arithmetic the first guess of the equal-spaced branch lies
    between [0] and [_n - 1]. *)
Lemma first_guess_range (f b a da : Q) (n : Z) :
  2 <= n -> (f < b)%Q -> (f <= a <= b)%Q -> (da == (b - f) / inject_Z (n - 1))%Q ->
  0 <= Qceiling ((a - f) / da) <= n - 1.
Proof.
  intros Hn Hfb [Hfa Hab] Hda.
  assert (0 < inject_Z (n - 1))%Q as Hn1.
  { change 0%Q with (inject_Z 0). rewrite <- Zlt_Qlt. lia. }
  assert (inject_Z (n - 1) * da == b - f)%Q as Hmul.
  { rewrite Hda. field. lra. }
  assert (0 < da)%Q as Hpos.
  { rewrite Hda. apply Qlt_shift_div_l; lra. }
  assert (0 <= (a - f) / da)%Q as Hq0 by (apply Qle_shift_div_l; lra).
  assert ((a - f) / da <= inject_Z (n - 1))%Q as Hq1
    by (apply Qle_shift_div_r; lra).
  apply Qceiling_resp_le in Hq0, Hq1.
  rewrite Qceiling_Z in Hq1. change (Qceiling 0) with 0 in Hq0. lia.
Qed.

Lemma set_lastIndex_same (av : ArgVec.t) :
  ArgVec.set_lastIndex (ArgVec._lastIndex av) av = av.
Proof. destruct av; reflexivity. Qed.

Lemma set_lastIndex_inv (av : ArgVec.t) (li : Z) :
  ArgVec_inv av -> 1 <= li <= ArgVec._n av - 1 ->
  ArgVec_inv (ArgVec.set_lastIndex li av).
Proof. intros [] Hli. constructor; simpl; assumption. Qed.

(** A query below the first argument, or above the last one, is answered
    at once, and leaves the cached index alone. *)
Lemma upperIndex_below (av : ArgVec.t) (a : Q) :
  ArgVec_inv av -> (a < elt (ArgVec._vec av) 0)%Q ->
  ArgVec.upperIndex a av = (Ok 1, av).
Proof.
  intros Hav Ha. unfold ArgVec.upperIndex, mbind, ArgVec.front.
  destruct Hav as [Hn Htwo _ _ _]. rewrite get_ok by lia.
  destruct (Qlt_le_dec a (elt (ArgVec._vec av) 0)); [reflexivity|lra].
Qed.

Lemma upperIndex_above (av : ArgVec.t) (a : Q) :
  ArgVec_inv av -> (elt (ArgVec._vec av) (ArgVec._n av - 1) < a)%Q ->
  ArgVec.upperIndex a av = (Ok (ArgVec._n av - 1), av).
Proof.
  intros Hav Ha. unfold ArgVec.upperIndex, mbind, ArgVec.front, ArgVec.back.
  destruct Hav as [Hn Htwo Hincr _ _]. rewrite get_ok by lia.
  assert (elt (ArgVec._vec av) 0 < elt (ArgVec._vec av) (ArgVec._n av - 1))%Q
    by (apply increasing_elt; [assumption|lia..]).
  destruct (Qlt_le_dec a (elt (ArgVec._vec av) 0)); [lra|].
  rewrite get_ok by lia.
  destruct (Qlt_le_dec (elt (ArgVec._vec av) (ArgVec._n av - 1)) a); [|lra].
  reflexivity.
Qed.

(** Inside the domain both branches return a bracket of the query, from
    any admissible value of the cached index. *)
Lemma upperIndex_inside (av : ArgVec.t) (a : Q) :
  ArgVec_inv av ->
  (elt (ArgVec._vec av) 0 <= a <= elt (ArgVec._vec av) (ArgVec._n av - 1))%Q ->
  exists i li,
    ArgVec.upperIndex a av = (Ok i, ArgVec.set_lastIndex li av)
    /\ 1 <= li <= ArgVec._n av - 1
    /\ 1 <= i <= ArgVec._n av - 1
    /\ (elt (ArgVec._vec av) (i - 1) <= a <= elt (ArgVec._vec av) i)%Q.
Proof.
  intros Hav [Hlo Hhi]. pose proof Hav as [Hn Htwo Hincr Hda Hlast].
  destruct av as [vec n ls us es da li].
  cbn [ArgVec._vec ArgVec._n ArgVec._da ArgVec._lastIndex] in *.
  unfold ArgVec.upperIndex, mbind, ArgVec.front, ArgVec.back, reads, mret.
  cbn [ArgVec._vec ArgVec._n ArgVec._equalSpaced].
  rewrite get_ok by lia.
  destruct (Qlt_le_dec a (elt vec 0)) as [|_]; [lra|]. av_norm.
  rewrite get_ok by lia.
  destruct (Qlt_le_dec (elt vec (n - 1)) a) as [|_]; [lra|]. av_norm.
  destruct es.
  - (* equal spacing *)
    unfold ArgVec.upperIndex_equalSpaced, ArgVec.front.
    cbn [ArgVec._vec ArgVec._da].
    rewrite get_ok by lia. cbn [bind].
    destruct (settle_spec (ArgVec.mk vec n ls us true da li) a
                (Qceiling ((a - elt vec 0) / da)))
      as (i & Hi & Hr & Hb); try assumption; [split; assumption| |].
    { assert (elt vec 0 < elt vec (n - 1))%Q as Hfb
        by (apply increasing_elt; [assumption|lia..]).
      pose proof (first_guess_range _ _ a _ n Htwo Hfb (conj Hlo Hhi) Hda).
      cbn [ArgVec._n]. lia. }
    cbn [ArgVec._vec ArgVec._n] in Hr, Hb.
    exists i, li. rewrite Hi. repeat split; try lia; apply Hb.
  - (* cached index, then binary search *)
    unfold ArgVec.upperIndex_search, mbind, reads, modify, mret, ArgVec.at_.
    cbn [ArgVec._vec ArgVec._n ArgVec._lastIndex].
    rewrite get_ok by lia.
    destruct (Qlt_le_dec a (elt vec (li - 1))) as [Hlow|Hnlow]; av_norm.
    + assert (li <> 1)
        by (intros E; rewrite E in Hlow; change (1 - 1) with 0 in Hlow; lra).
      rewrite get_ok by lia.
      destruct (Qle_lt_dec (elt vec (li - 2)) a) as [Hprev|Hnprev]; av_norm.
      * exists (li - 1), (li - 1). repeat split; try lia.
        -- replace (li - 1 - 1) with (li - 2) by lia. exact Hprev.
        -- lra.
      * unfold upper_bound.
        destruct (upper_bound_loop_spec vec a (Z.to_nat (li - 1 - 0)) 0 (li - 1 - 0))
          as (p & -> & Hp & Hleft & Hright); [lia..|].
        assert (p <> 0) by (intros ->; specialize (Hright ltac:(lia)); lra).
        assert (p <> li - 1).
        { intros ->. specialize (Hleft ltac:(lia)).
          replace (li - 1 - 1) with (li - 2) in Hleft by lia. lra. }
        exists p, p. repeat split; try lia.
        -- apply Hleft; lia.
        -- apply Qlt_le_weak, Hright; lia.
    + rewrite get_ok by lia.
      destruct (Qlt_le_dec (elt vec li) a) as [Hup|Hnup]; av_norm.
      * assert (li <> n - 1) by (intros E; rewrite E in Hup; lra).
        rewrite get_ok by lia.
        destruct (Qle_lt_dec a (elt vec (li + 1))) as [Hnext|Hnnext]; av_norm.
        -- exists (li + 1), (li + 1). repeat split; try lia.
           ++ replace (li + 1 - 1) with li by lia. lra.
           ++ exact Hnext.
        -- unfold lower_bound.
           destruct (lower_bound_loop_spec vec a (Z.to_nat (n - (li + 1)))
                       (li + 1) (n - (li + 1)))
             as (p & -> & Hp & Hleft & Hright); [lia..|].
           assert (p <> li + 1) by (intros ->; specialize (Hright ltac:(lia)); lra).
           assert (p <> n).
           { intros ->. specialize (Hleft ltac:(lia)). lra. }
           exists p, p. repeat split; try lia.
           ++ apply Qlt_le_weak, Hleft; lia.
           ++ apply Hright; lia.
      * exists li, li. repeat split; try lia; assumption.
Qed.

(** Every call returns an index between [1] and [_n - 1] without leaving
    the array, and keeps the invariant. *)
Lemma upperIndex_total (av : ArgVec.t) (a : Q) :
  ArgVec_inv av ->
  exists i li,
    ArgVec.upperIndex a av = (Ok i, ArgVec.set_lastIndex li av)
    /\ 1 <= li <= ArgVec._n av - 1
    /\ 1 <= i <= ArgVec._n av - 1.
Proof.
  intros Hav. pose proof Hav as [Hn Htwo _ _ Hlast].
  destruct (Qlt_le_dec a (elt (ArgVec._vec av) 0)) as [Hlo|Hlo].
  { exists 1, (ArgVec._lastIndex av).
    rewrite set_lastIndex_same, upperIndex_below by assumption.
    repeat split; lia. }
  destruct (Qlt_le_dec (elt (ArgVec._vec av) (ArgVec._n av - 1)) a) as [Hhi|Hhi].
  { exists (ArgVec._n av - 1), (ArgVec._lastIndex av).
    rewrite set_lastIndex_same, upperIndex_above by assumption.
    repeat split; lia. }
  destruct (upperIndex_inside av a Hav (conj Hlo Hhi)) as (i & li & E & Hli & Hi & _).
  exists i, li. repeat split; try lia. exact E.
Qed.

Lemma calls_inv (qs : list Q) :
  forall av, ArgVec_inv av ->
             ArgVec_inv (calls qs av)
             /\ ArgVec._vec (calls qs av) = ArgVec._vec av
             /\ ArgVec._n (calls qs av) = ArgVec._n av.
Proof.
  induction qs as [|q qs IH]; intros av Hav;
    [split; [exact Hav|split; reflexivity]|].
  destruct (upperIndex_total av q Hav) as (i & li & E & Hli & _).
  unfold calls in *. cbn [fold_left]. rewrite E. cbn [snd].
  destruct (IH (ArgVec.set_lastIndex li av)) as (H1 & H2 & H3);
    [apply set_lastIndex_inv; assumption|].
  now rewrite H2, H3.
Qed.

Lemma equalSpaced_loop_ok (vec : list Q) (da : Q) (k : nat) :
  forall (i : Z) (es : bool),
    0 <= i -> i + Z.of_nat k <= len vec ->
    exists es', ArgVec.equalSpaced_loop k i vec da es = Ok es'.
Proof.
  induction k as [|k IH]; intros i es Hi Hk; [eexists; reflexivity|].
  cbn [ArgVec.equalSpaced_loop]. rewrite !get_ok by lia. cbn [bind].
  apply IH; lia.
Qed.

(** The constructor succeeds on a strictly increasing array of at least
    two doubles and establishes the invariant, with the cached index 1. *)
Lemma ArgVec_new_ok (vec : list Q) :
  increasing vec -> 2 <= len vec ->
  exists av, ArgVec.new vec (len vec) = Ok av
             /\ ArgVec_inv av
             /\ ArgVec._vec av = vec
             /\ ArgVec._n av = len vec
             /\ ArgVec._lastIndex av = 1.
Proof.
  intros Hincr Htwo. unfold ArgVec.new.
  rewrite !get_ok by lia. cbn [bind].
  destruct (equalSpaced_loop_ok vec
              ((elt vec (len vec - 1) - elt vec 0) / inject_Z (len vec - 1))
              (Z.to_nat (len vec - 1)) 1 true) as (es & ->); [lia..|].
  cbn [bind]. rewrite ?get_ok by lia. cbn [bind].
  eexists. split; [reflexivity|].
  split; [|now repeat split].
  constructor; cbn; try lia; [assumption|reflexivity].
Qed.

(** ** C1 and C9: brackets and the cached index *)

(** C9.  On a strictly increasing array of at least two doubles the
    constructor sets the cached index to 1, and after every sequence of
    [upperIndex] calls, with queries inside or outside the domain, the
    cached index lies between 1 and [n-1] and the next call returns an
    index in that range: no read of the search leaves the array (such a
    read would end the call with [OutOfBounds]). *)
Theorem lastIndex_invariant (vec : list Q) :
  increasing vec -> 2 <= len vec ->
  exists av0,
    ArgVec.new vec (len vec) = Ok av0
    /\ ArgVec._lastIndex av0 = 1
    /\ forall (qs : list Q) (a : Q),
         1 <= ArgVec._lastIndex (calls qs av0) <= len vec - 1
         /\ exists i av',
              ArgVec.upperIndex a (calls qs av0) = (Ok i, av')
              /\ 1 <= i <= len vec - 1
              /\ 1 <= ArgVec._lastIndex av' <= len vec - 1.
Proof.
  intros Hincr Htwo.
  destruct (ArgVec_new_ok vec Hincr Htwo) as (av0 & Hnew & Hinv & Hvec & Hn & Hli).
  exists av0. repeat split; try assumption;
    destruct (calls_inv qs av0 Hinv) as (Hq & Hqv & Hqn);
    pose proof (inv_last _ Hq) as Hlast; rewrite Hqn, Hn in Hlast; try lia.
  destruct (upperIndex_total (calls qs av0) a Hq) as (i & li & E & Hr & Hi).
  rewrite Hqn, Hn in Hr, Hi.
  exists i, (ArgVec.set_lastIndex li (calls qs av0)). now repeat split.
Qed.

Lemma lastIndex_invariant_witness :
  exists av0,
    ArgVec.new [0; 1; 3]%Q (len [0; 1; 3]%Q) = Ok av0
    /\ ArgVec._lastIndex av0 = 1
    /\ forall (qs : list Q) (a : Q),
         1 <= ArgVec._lastIndex (calls qs av0) <= len [0; 1; 3]%Q - 1
         /\ exists i av',
              ArgVec.upperIndex a (calls qs av0) = (Ok i, av')
              /\ 1 <= i <= len [0; 1; 3]%Q - 1
              /\ 1 <= ArgVec._lastIndex av' <= len [0; 1; 3]%Q - 1.
Proof.
  apply (lastIndex_invariant [0; 1; 3]%Q).
  - simpl. repeat split; reflexivity.
  - vm_compute. discriminate.
Defined.

(** C1, the part that fails: the index returned for a query depends on
    the calls made before.  On the nodes 0, 1, 3 the query 1 is answered
    1 by a fresh ArgVec and 2 after a call with the query 2. *)
Lemma upperIndex_depends_on_history :
  ~ (forall (vec : list Q) (av0 : ArgVec.t) (a : Q) (qs1 qs2 : list Q),
        increasing vec -> 2 <= len vec ->
        ArgVec.new vec (len vec) = Ok av0 ->
        (elt vec 0 <= a <= elt vec (len vec - 1))%Q ->
        fst (ArgVec.upperIndex a (calls qs1 av0))
        = fst (ArgVec.upperIndex a (calls qs2 av0))).
Proof.
  intros H.
  specialize (H [0; 1; 3]%Q
                (ArgVec.mk [0; 1; 3]%Q 3 (1 # 1000000) (2 # 1000000) false (3 # 2) 1)
                1%Q [] [2%Q]).
  vm_compute in H.
  assert (Ok 1 = Ok 2 :> result Z) as E.
  { apply H; try reflexivity; try discriminate.
    - repeat split.
    - split; discriminate. }
  discriminate E.
Qed.

(** C1, as the code has it.  For a strictly increasing array of at least
    two doubles and a query inside the domain, [upperIndex] returns, after
    any sequence of earlier calls and on both branches, an index [i] with
    [1 <= i <= n-1] and [vec[i-1] <= a <= vec[i]]; the index does not
    depend on the earlier calls when the query is not an interior node. *)
Theorem upperIndex_bracket (vec : list Q) (av0 : ArgVec.t) (a : Q) (qs : list Q) :
  increasing vec -> 2 <= len vec ->
  ArgVec.new vec (len vec) = Ok av0 ->
  (elt vec 0 <= a <= elt vec (len vec - 1))%Q ->
  exists i,
    fst (ArgVec.upperIndex a (calls qs av0)) = Ok i
    /\ 1 <= i <= len vec - 1
    /\ (elt vec (i - 1) <= a <= elt vec i)%Q
    /\ (off_interior_nodes vec a ->
        forall qs', fst (ArgVec.upperIndex a (calls qs' av0)) = Ok i).
Proof.
  intros Hincr Htwo Hnew Ha.
  destruct (ArgVec_new_ok vec Hincr Htwo) as (av & Hnew' & Hinv & Hvec & Hn & _).
  assert (av = av0) as -> by congruence.
  assert (Hany : forall qs0, exists i,
             fst (ArgVec.upperIndex a (calls qs0 av0)) = Ok i
             /\ 1 <= i <= len vec - 1
             /\ (elt vec (i - 1) <= a <= elt vec i)%Q).
  { intros qs0. destruct (calls_inv qs0 av0 Hinv) as (Hq & Hqv & Hqn).
    destruct (upperIndex_inside (calls qs0 av0) a Hq) as (i & li & E & _ & Hi & Hb).
    { now rewrite Hqv, Hqn, Hvec, Hn. }
    rewrite Hqv, Hqn, ?Hvec, ?Hn in *.
    exists i. rewrite E. now repeat split. }
  destruct (Hany qs) as (i & E & Hi & Hb).
  exists i. repeat split; try assumption; try lia; try apply Hb.
  intros Hoff qs'. destruct (Hany qs') as (i' & E' & Hi' & Hb').
  rewrite E'. f_equal.
  destruct (Z.lt_trichotomy i' i) as [Hlt|[Heq|Hgt]]; [exfalso|exact Heq|exfalso].
  - apply (Hoff i'); [lia|].
    assert (elt vec i' <= elt vec (i - 1))%Q
      by (apply increasing_elt_le; [assumption|lia..]).
    apply Qle_antisym; [apply Hb'|]. apply Qle_trans with (elt vec (i - 1)); tauto.
  - apply (Hoff i); [lia|].
    assert (elt vec i <= elt vec (i' - 1))%Q
      by (apply increasing_elt_le; [assumption|lia..]).
    apply Qle_antisym; [apply Hb|]. apply Qle_trans with (elt vec (i' - 1)); tauto.
Qed.

Lemma upperIndex_bracket_witness :
  exists i,
    fst (ArgVec.upperIndex (2 # 1)
           (calls [(1 # 2)%Q]
              (ArgVec.mk [0; 1; 3]%Q 3 (1 # 1000000) (2 # 1000000) false (3 # 2) 1)))
    = Ok i
    /\ 1 <= i <= len [0; 1; 3]%Q - 1
    /\ (elt [0; 1; 3]%Q (i - 1) <= 2 # 1 <= elt [0; 1; 3]%Q i)%Q
    /\ (off_interior_nodes [0; 1; 3]%Q (2 # 1) ->
        forall qs',
          fst (ArgVec.upperIndex (2 # 1)
                 (calls qs'
                    (ArgVec.mk [0; 1; 3]%Q 3 (1 # 1000000) (2 # 1000000)
                       false (3 # 2) 1)))
          = Ok i).
Proof.
  apply (upperIndex_bracket [0; 1; 3]%Q).
  - simpl. repeat split; reflexivity.
  - vm_compute. discriminate.
  - vm_compute. reflexivity.
  - vm_compute. split; discriminate.
Defined.

(** ** Writing into arrays *)

Lemma put_ok (v : list Q) (i : Z) (x : Q) :
  0 <= i < len v -> put v i x = Ok (<[Z.to_nat i := x]> v).
Proof.
  intros Hi. unfold put, len in *.
  destruct (Z.leb_spec 0 i); [|lia].
  destruct (Z.ltb_spec i (Z.of_nat (length v))); [reflexivity|lia].
Qed.

Lemma put_err (v : list Q) (i : Z) (x : Q) :
  i < 0 \/ len v <= i -> put v i x = Err OutOfBounds.
Proof.
  intros Hi. unfold put, len in *.
  destruct (Z.leb_spec 0 i); [|reflexivity].
  destruct (Z.ltb_spec i (Z.of_nat (length v))); [lia|reflexivity].
Qed.

Lemma len_insert (v : list Q) (k : nat) (x : Q) : len (<[k := x]> v) = len v.
Proof. unfold len. now rewrite length_insert. Qed.

Lemma elt_insert_eq (v : list Q) (i : Z) (x : Q) :
  0 <= i < len v -> elt (<[Z.to_nat i := x]> v) i = x.
Proof.
  intros Hi. unfold elt, len in *.
  apply nth_lookup_Some, list_lookup_insert_eq. lia.
Qed.

Lemma elt_insert_ne (v : list Q) (i j : Z) (x : Q) :
  0 <= i -> 0 <= j -> i <> j -> elt (<[Z.to_nat i := x]> v) j = elt v j.
Proof.
  intros Hi Hj Hne. unfold elt.
  rewrite !nth_lookup, list_lookup_insert_ne by lia. reflexivity.
Qed.

Lemma vector_new_ok (n : Z) :
  0 <= n -> vector_new n = Ok (replicate (Z.to_nat n) 0%Q).
Proof. intros Hn. unfold vector_new. destruct (Z.ltb_spec n 0); [lia|reflexivity]. Qed.

Lemma len_replicate (k : nat) (x : Q) : len (replicate k x) = Z.of_nat k.
Proof. unfold len. now rewrite length_replicate. Qed.

Lemma bind_Ok {A B : Type} (r : result A) (k : A -> result B) (b : B) :
  bind r k = Ok b -> exists a, r = Ok a /\ k a = Ok b.
Proof. destruct r as [a|e]; simpl; [eauto|discriminate]. Qed.

(** ** C3: the second derivatives of the natural cubic spline *)

Section Elimination.

Variables (t : Table.TableImpl) (x y : list Q) (n : Z).
Hypothesis Hvec : ArgVec._vec (Table._args t) = x.
Hypothesis Hval : Table._vals t = y.
Hypothesis Hnt : Table._n t = n.
Hypothesis Hx : len x = n.
Hypothesis Hy : len y = n.

Lemma rhs_ok (i : Z) : 1 <= i <= n - 2 -> Table.rhs t i = Ok (spline_rhs x y i).
Proof.
  intros Hi. unfold Table.rhs, ArgVec.at_. rewrite Hvec, Hval.
  rewrite !get_ok by lia. reflexivity.
Qed.

Lemma rhs_loop_spec (k : nat) :
  forall (i : Z) (y2 : list Q),
    1 <= i -> i + Z.of_nat k <= n - 1 -> len y2 = n ->
    exists y2',
      Table.rhs_loop k i t y2 = Ok y2'
      /\ len y2' = n
      /\ (forall j, i <= j < i + Z.of_nat k -> elt y2' j = spline_rhs x y j)
      /\ (forall j, 0 <= j -> ~ i <= j < i + Z.of_nat k -> elt y2' j = elt y2 j).
Proof.
  induction k as [|k IH]; intros i y2 Hi Hk Hlen.
  - exists y2. split; [reflexivity|]. split; [assumption|].
    split; intros; [lia|reflexivity].
  - cbn [Table.rhs_loop]. rewrite rhs_ok by lia. cbn [bind].
    rewrite put_ok by lia. cbn [bind].
    destruct (IH (i + 1) (<[Z.to_nat i := spline_rhs x y i]> y2))
      as (y2' & -> & Hlen' & Hin & Hout); [lia|lia|now rewrite len_insert|].
    exists y2'. split; [reflexivity|]. split; [assumption|]. split.
    + intros j Hj. destruct (Z.eq_dec j i) as [->|Hne].
      * rewrite Hout by lia. apply elt_insert_eq. lia.
      * apply Hin. lia.
    + intros j Hj Hnot. rewrite Hout by lia. apply elt_insert_ne; lia.
Qed.

(** The elimination sweep leaves the reduced right-hand sides in [y2] and
    the reduced upper diagonal in [c]. *)
Lemma forward_loop_spec (m : nat) :
  forall (k : nat) (y2 c : list Q),
    (0 < m)%nat -> Z.of_nat (k + m) = n - 2 ->
    len y2 = n -> len c = n - 3 ->
    (forall j, (j < k)%nat -> elt y2 (Z.of_nat j + 1) = reduced x y j) ->
    elt y2 (Z.of_nat k + 1) = numer x y k ->
    (forall j, (k < j)%nat -> Z.of_nat j < n - 2 ->
               elt y2 (Z.of_nat j + 1) = spline_rhs x y (Z.of_nat j + 1)) ->
    elt y2 0 = 0%Q -> elt y2 (n - 1) = 0%Q ->
    (forall j, (j < k)%nat -> elt c (Z.of_nat j) = coef x j) ->
    exists y2' c',
      Table.forward_loop m (Z.of_nat k + 1) t (pivot x k) y2 c = Ok (y2', c')
      /\ len y2' = n /\ len c' = n - 3
      /\ (forall j, Z.of_nat j < n - 2 -> elt y2' (Z.of_nat j + 1) = reduced x y j)
      /\ elt y2' 0 = 0%Q /\ elt y2' (n - 1) = 0%Q
      /\ (forall j, Z.of_nat j < n - 3 -> elt c' (Z.of_nat j) = coef x j).
Proof.
  induction m as [|m IH]; intros k y2 c Hm Hkm Hl2 Hlc Hdone Hcur Htodo H0 Hlast Hc;
    [lia|].
  set (i := Z.of_nat k + 1) in *.
  cbn [Table.forward_loop]. rewrite Hnt.
  rewrite get_ok by lia. cbn [bind]. rewrite put_ok by lia. cbn [bind].
  rewrite Hcur. fold (reduced x y k).
  set (y2a := <[Z.to_nat i := reduced x y k]> y2).
  assert (Hl2a : len y2a = n) by (subst y2a; now rewrite len_insert).
  assert (Hdone_a : forall j, (j <= k)%nat -> elt y2a (Z.of_nat j + 1) = reduced x y j).
  { intros j Hj. subst y2a. destruct (Nat.eq_dec j k) as [->|Hne].
    - apply elt_insert_eq. lia.
    - rewrite elt_insert_ne by lia. apply Hdone. lia. }
  assert (Hrest_a : forall j, 0 <= j -> j <> i -> elt y2a j = elt y2 j).
  { intros j Hj Hne. subst y2a. apply elt_insert_ne; lia. }
  destruct (Z.eqb_spec i (n - 2)) as [Hend|Hmore].
  - (* the last row: break *)
    exists y2a, c. split; [reflexivity|].
    split; [assumption|]. split; [assumption|]. split; [|split; [|split]].
    + intros j Hj. apply Hdone_a. lia.
    + rewrite Hrest_a by lia. assumption.
    + rewrite Hrest_a by lia. assumption.
    + intros j Hj. apply Hc. lia.
  - unfold ArgVec.at_. rewrite Hvec.
    rewrite !get_ok by lia. cbn [bind].
    rewrite put_ok by lia. cbn [bind].
    rewrite get_ok by (rewrite len_insert; lia).
    rewrite elt_insert_eq by lia. cbn [bind].
    rewrite put_ok by (rewrite len_insert; lia). cbn [bind].
    rewrite list_insert_insert_eq.
    rewrite get_ok by (rewrite len_insert; lia).
    rewrite elt_insert_eq by lia. cbn [bind].
    replace (i - 1) with (Z.of_nat k) by lia.
    replace (elt y2a i) with (reduced x y k)
      by (symmetry; apply (Hdone_a k); lia).
    replace (elt y2a (i + 1)) with (spline_rhs x y (i + 1)).
    2:{ rewrite Hrest_a by lia. symmetry.
        replace (i + 1) with (Z.of_nat (S k) + 1) by lia. apply Htodo; lia. }
    rewrite put_ok by lia. cbn [bind].
    change (2 * (elt x (i + 2) - elt x i)
            - (elt x (i + 1) - elt x i) * ((elt x (i + 1) - elt x i) / pivot x k))%Q
      with (pivot x (S k)).
    change (spline_rhs x y (i + 1) - (elt x (i + 1) - elt x i) * reduced x y k)%Q
      with (numer x y (S k)).
    change ((elt x (i + 1) - elt x i) / pivot x k)%Q with (coef x k).
    replace (i + 1) with (Z.of_nat (S k) + 1) by lia.
    destruct (IH (S k) (<[Z.to_nat (Z.of_nat (S k) + 1) := numer x y (S k)]> y2a)
                (<[Z.to_nat (Z.of_nat k) := coef x k]> c))
      as (y2' & c' & E & Hr); try (rewrite len_insert; assumption); try lia.
    + intros j Hj. rewrite elt_insert_ne by lia. apply Hdone_a. lia.
    + apply elt_insert_eq. lia.
    + intros j Hj Hjn. rewrite elt_insert_ne by lia.
      rewrite Hrest_a by lia. apply Htodo; lia.
    + rewrite elt_insert_ne by lia. rewrite Hrest_a by lia. assumption.
    + rewrite elt_insert_ne by lia. rewrite Hrest_a by lia. assumption.
    + intros j Hj. destruct (Nat.eq_dec j k) as [->|Hne].
      * apply elt_insert_eq. lia.
      * rewrite elt_insert_ne by lia. apply Hc. lia.
    + exists y2', c'. split; [exact E|exact Hr].
Qed.

(** The back substitution turns the reduced right-hand sides into the
    unknowns, last row first. *)
Lemma backward_loop_spec (rows : nat) (c : list Q) :
  Z.of_nat rows = n - 2 -> len c = n - 3 ->
  (forall j, Z.of_nat j < n - 3 -> elt c (Z.of_nat j) = coef x j) ->
  forall (k : nat) (y2 : list Q),
    (k < rows)%nat -> len y2 = n ->
    (forall j, (j < k)%nat -> elt y2 (Z.of_nat j + 1) = reduced x y j) ->
    (forall j, (k <= j < rows)%nat ->
               elt y2 (Z.of_nat j + 1) = solve x y j (rows - 1 - j)) ->
    elt y2 0 = 0%Q -> elt y2 (n - 1) = 0%Q ->
    exists y2',
      Table.backward_loop k (Z.of_nat k) y2 c = Ok y2'
      /\ len y2' = n
      /\ (forall j, (j < rows)%nat ->
                    elt y2' (Z.of_nat j + 1) = solve x y j (rows - 1 - j))
      /\ elt y2' 0 = 0%Q /\ elt y2' (n - 1) = 0%Q.
Proof.
  intros Hrows Hlc Hc.
  induction k as [|k IH]; intros y2 Hk Hl2 Htodo Hdone H0 Hlast.
  - exists y2. split; [reflexivity|]. split; [assumption|].
    split; [|split; assumption]. intros j Hj. apply Hdone. lia.
  - cbn [Table.backward_loop].
    rewrite !get_ok by lia. cbn [bind]. rewrite put_ok by lia. cbn [bind].
    replace (Z.of_nat (S k) - 1) with (Z.of_nat k) by lia.
    replace (Z.of_nat (S k)) with (Z.of_nat k + 1) by lia.
    rewrite (Htodo k) by lia. rewrite (Hc k) by lia.
    replace (Z.of_nat k + 1 + 1) with (Z.of_nat (S k) + 1) by lia.
    rewrite (Hdone (S k)) by lia.
    replace (Z.of_nat k + 1 - 1) with (Z.of_nat k) by lia.
    change (reduced x y k - coef x k * solve x y (S k) (rows - 1 - S k))%Q
      with (solve x y k (S (rows - 1 - S k))).
    replace (S (rows - 1 - S k)) with (rows - 1 - k)%nat by lia.
    destruct (IH (<[Z.to_nat (Z.of_nat k + 1) := solve x y k (rows - 1 - k)]> y2))
      as (y2' & E & Hr); try lia.
    + now rewrite len_insert.
    + intros j Hj. rewrite elt_insert_ne by lia. apply Htodo. lia.
    + intros j Hj. destruct (Nat.eq_dec j k) as [->|Hne].
      * apply elt_insert_eq. lia.
      * rewrite elt_insert_ne by lia. apply Hdone. lia.
    + rewrite elt_insert_ne by lia. assumption.
    + rewrite elt_insert_ne by lia. assumption.
    + exists y2'. split; [exact E|exact Hr].
Qed.

End Elimination.

(** The pivots stay above the next off-diagonal entry, hence positive:
    the system is diagonally dominant. *)
Lemma pivot_dominant (x : list Q) :
  increasing x ->
  forall k : nat,
    Z.of_nat k + 2 < len x ->
    (elt x (Z.of_nat k + 2) - elt x (Z.of_nat k + 1) < pivot x k)%Q.
Proof.
  intros Hincr. induction k as [|k IH]; intros Hk.
  - cbn [pivot]. change (Z.of_nat 0 + 2) with 2. change (Z.of_nat 0 + 1) with 1.
    assert (elt x 0 < elt x 1)%Q by (apply increasing_elt; [assumption|lia..]).
    assert (elt x 1 < elt x 2)%Q by (apply increasing_elt; [assumption|lia..]).
    lra.
  - cbn [pivot]. specialize (IH ltac:(lia)).
    replace (Z.of_nat (S k) + 2) with (Z.of_nat k + 1 + 2) by lia.
    replace (Z.of_nat (S k) + 1) with (Z.of_nat k + 1 + 1) by lia.
    replace (Z.of_nat k + 2) with (Z.of_nat k + 1 + 1) in IH by lia.
    set (i := Z.of_nat k + 1) in *.
    assert (elt x i < elt x (i + 1))%Q as Ha
      by (apply increasing_elt; [assumption|lia..]).
    assert (elt x (i + 1) < elt x (i + 2))%Q as Hb
      by (apply increasing_elt; [assumption|lia..]).
    set (a := (elt x (i + 1) - elt x i)%Q) in *.
    assert (0 < a)%Q as Hpos by (subst a; lra).
    assert (a / pivot x k < 1)%Q as Hq by (apply Qlt_shift_div_r; lra).
    set (q := (a / pivot x k)%Q) in *. clearbody q.
    assert (a * q < a)%Q as Hprod by nra.
    assert (a == elt x (i + 1) - elt x i)%Q as Hdef by (subst a; reflexivity).
    clearbody a. lra.
Qed.

(** One row of the system, from what elimination and back substitution
    compute for it. *)
Lemma row_identity (a b2 h C D P r zp zi zn : Q) :
  ~ (P == 0)%Q ->
  (P == b2 - a * C)%Q ->
  (zi == (r - a * D) / P - h / P * zn)%Q ->
  (zp == D - C * zi)%Q ->
  (a * zp + b2 * zi + h * zn == r)%Q.
Proof.
  intros HP HPe Hzi Hzp.
  assert (P * zi == r - a * D - h * zn)%Q as Hmul by (rewrite Hzi; field; exact HP).
  rewrite Hzp. assert (b2 == P + a * C)%Q as -> by lra.
  ring_simplify. ring_simplify in Hmul. lra.
Qed.

(** The unknowns computed by the two sweeps satisfy every row. *)
Lemma solution_rows (x y z : list Q) (rows : nat) :
  increasing x -> len x = Z.of_nat rows + 2 -> (2 <= rows)%nat ->
  elt z 0 = 0%Q -> elt z (Z.of_nat rows + 1) = 0%Q ->
  (forall j, (j < rows)%nat -> elt z (Z.of_nat j + 1) = solve x y j (rows - 1 - j)) ->
  forall i, 1 <= i <= Z.of_nat rows -> tridiagonal_row x y z i.
Proof.
  intros Hincr Hlen Hrows H0 Hlast Hz i Hi.
  assert (Hpiv : forall k, (k < rows)%nat -> ~ (pivot x k == 0)%Q).
  { intros k Hk. pose proof (pivot_dominant x Hincr k ltac:(lia)) as Hd.
    assert (elt x (Z.of_nat k + 1) < elt x (Z.of_nat k + 2))%Q
      by (apply increasing_elt; [assumption|lia..]).
    lra. }
  unfold tridiagonal_row.
  remember (Z.to_nat (i - 1)) as j eqn:Hj.
  assert (i = Z.of_nat j + 1) as -> by lia.
  assert (j < rows)%nat as Hjr by lia. clear Hi Hj.
  (* the unknown of the row and the one after it *)
  assert (Hnext : exists zn,
             elt z (Z.of_nat j + 1 + 1) = zn
             /\ (elt z (Z.of_nat j + 1)
                 == reduced x y j - coef x j * zn)%Q).
  { destruct (Nat.eq_dec (S j) rows) as [Hlastrow|Hmid].
    - exists 0%Q. split.
      + replace (Z.of_nat j + 1 + 1) with (Z.of_nat rows + 1) by lia. exact Hlast.
      + rewrite Hz by lia. replace (rows - 1 - j)%nat with 0%nat by lia.
        cbn [solve]. ring.
    - exists (solve x y (S j) (rows - 1 - S j)). split.
      + replace (Z.of_nat j + 1 + 1) with (Z.of_nat (S j) + 1) by lia.
        apply Hz. lia.
      + rewrite Hz by lia.
        replace (rows - 1 - j)%nat with (S (rows - 1 - S j)) by lia.
        cbn [solve]. reflexivity. }
  destruct Hnext as (zn & Hzn & Hzi). rewrite Hzn.
  destruct j as [|j'].
  - (* the first row: the unknown before it is the boundary value 0 *)
    change (Z.of_nat 0 + 1) with 1 in *. change (1 - 1) with 0.
    change (1 + 1) with 2. rewrite H0.
    apply (row_identity _ _ _ 0 0 (pivot x 0)); [apply Hpiv; lia| | |ring].
    + cbn [pivot]. ring.
    + rewrite Hzi. unfold reduced, coef. cbn [numer].
      change (Z.of_nat 0 + 1 + 1) with 2. change (Z.of_nat 0 + 1) with 1.
      field. apply Hpiv. lia.
  - replace (Z.of_nat (S j') + 1 - 1) with (Z.of_nat j' + 1) by lia.
    replace (Z.of_nat (S j') + 1 + 1) with (Z.of_nat j' + 1 + 2) by lia.
    replace (Z.of_nat (S j') + 1) with (Z.of_nat j' + 1 + 1) in * by lia.
    set (i' := Z.of_nat j' + 1) in *.
    apply (row_identity _ _ _ (coef x j') (reduced x y j') (pivot x (S j')));
      [apply Hpiv; lia| | |].
    + cbn [pivot]. fold i'. unfold coef. fold i'. ring.
    + rewrite Hzi. unfold reduced at 1. unfold coef at 1. cbn [numer]. fold i'.
      replace (Z.of_nat (S j') + 1) with (i' + 1) by lia.
      replace (i' + 1 + 1) with (i' + 2) by lia.
      unfold reduced. field. split; apply Hpiv; lia.
    + subst i'. rewrite (Hz j') by lia.
      replace (rows - 1 - j')%nat with (S (rows - 1 - S j')) by lia.
      cbn [solve]. rewrite <- (Hz (S j')) by lia.
      replace (Z.of_nat (S j') + 1) with (Z.of_nat j' + 1 + 1) by lia.
      reflexivity.
Qed.

Lemma elt_replicate (k : nat) (i : Z) : elt (replicate k 0%Q) i = 0%Q.
Proof.
  unfold elt. rewrite nth_lookup.
  destruct (replicate k 0%Q !! Z.to_nat i) as [q|] eqn:E; [|reflexivity].
  apply lookup_replicate_1 in E. now destruct E as [-> _].
Qed.

(** [setupSpline] on at least three strictly increasing nodes: the closed
    form for three nodes and the Thomas algorithm for more both produce
    the solution of the natural-spline system. *)
Lemma setupSpline_spec (t : Table.TableImpl) (x y : list Q) (n : Z) :
  ArgVec._vec (Table._args t) = x -> Table._vals t = y -> Table._n t = n ->
  len x = n -> len y = n -> increasing x -> 3 <= n ->
  exists y2,
    Table.setupSpline t = Ok (Table.set_y2 y2 t)
    /\ len y2 = n
    /\ elt y2 0 = 0%Q /\ elt y2 (n - 1) = 0%Q
    /\ forall i, 1 <= i <= n - 2 -> tridiagonal_row x y y2 i.
Proof.
  intros Hvec Hval Hnt Hx Hy Hincr Hn.
  unfold Table.setupSpline. rewrite Hnt.
  rewrite vector_new_ok by lia. cbn [bind].
  rewrite put_ok by (rewrite len_replicate; lia). cbn [bind].
  rewrite insert_replicate.
  rewrite put_ok by (rewrite len_replicate; lia). cbn [bind].
  rewrite insert_replicate.
  destruct (Z.eqb_spec n 3) as [->|Hne].
  - (* three nodes *)
    unfold ArgVec.at_. rewrite Hvec, Hval.
    rewrite !get_ok by lia. cbn [bind].
    rewrite put_ok by (rewrite len_replicate; lia). cbn [bind].
    eexists. split; [reflexivity|].
    split; [now rewrite len_insert, len_replicate|].
    split; [rewrite elt_insert_ne by lia; apply elt_replicate|].
    split; [rewrite elt_insert_ne by lia; apply elt_replicate|].
    intros i Hi. assert (i = 1) as -> by lia.
    unfold tridiagonal_row, spline_rhs.
    change (1 - 1) with 0. change (1 + 1) with 2.
    rewrite (elt_insert_ne _ 1 0), (elt_insert_ne _ 1 2) by lia.
    rewrite elt_insert_eq by (rewrite len_replicate; lia).
    rewrite !elt_replicate.
    assert (elt x 0 < elt x 1)%Q by (apply increasing_elt; [assumption|lia..]).
    assert (elt x 1 < elt x 2)%Q by (apply increasing_elt; [assumption|lia..]).
    field. repeat split; lra.
  - (* four nodes or more *)
    rewrite vector_new_ok by lia. cbn [bind].
    destruct (rhs_loop_spec t x y n Hvec Hval Hx Hy (Z.to_nat (n - 2)) 1
                (replicate (Z.to_nat n) 0%Q))
      as (y2a & -> & Hla & Hin & Hout); [lia|lia|rewrite len_replicate; lia|].
    cbn [bind]. unfold ArgVec.at_. rewrite Hvec.
    rewrite !get_ok by lia. cbn [bind].
    destruct (forward_loop_spec t x y n Hvec Hnt Hx (Z.to_nat (n - 2)) 0
                y2a (replicate (Z.to_nat (n - 3)) 0%Q))
      as (y2b & c & E & Hlb & Hlc & Hred & H0 & Hlast & Hc).
    + lia.
    + lia.
    + assumption.
    + rewrite len_replicate. lia.
    + intros j Hj. lia.
    + change (Z.of_nat 0 + 1) with 1. rewrite Hin by lia. reflexivity.
    + intros j Hj Hjn. apply Hin. lia.
    + rewrite Hout by lia. apply elt_replicate.
    + rewrite Hout by lia. apply elt_replicate.
    + intros j Hj. lia.
    + change (Z.of_nat 0 + 1) with 1 in E. cbn [pivot] in E. rewrite E.
      cbn [bind fst snd].
      destruct (backward_loop_spec x y n (Z.to_nat (n - 2)) c
                  ltac:(lia) Hlc Hc (Z.to_nat (n - 3)) y2b)
        as (y2c & E' & Hl' & Hsol & H0' & Hlast'); try assumption; try lia.
      * intros j Hj. apply Hred. lia.
      * intros j Hj. assert (j = Z.to_nat (n - 3)) as -> by lia.
        rewrite Hred by lia.
        replace (Z.to_nat (n - 2) - 1 - Z.to_nat (n - 3))%nat with 0%nat by lia.
        reflexivity.
      * rewrite Z2Nat.id in E' by lia. rewrite E'. cbn [bind].
        exists y2c. split; [reflexivity|]. split; [assumption|].
        split; [assumption|]. split; [assumption|].
        intros i Hi.
        apply (solution_rows x y y2c (Z.to_nat (n - 2))); try assumption; try lia.
        replace (Z.of_nat (Z.to_nat (n - 2)) + 1) with (n - 1) by lia.
        assumption.
Qed.

(** ** Tables: construction and lookups *)

Lemma ArgVec_new_two (vec : list Q) (n : Z) (av : ArgVec.t) :
  ArgVec.new vec n = Ok av -> 2 <= n <= len vec.
Proof.
  unfold ArgVec.new. intros H.
  apply bind_Ok in H as (b & Hb & H). apply get_inv in Hb as [Hb _].
  apply bind_Ok in H as (f & _ & H).
  apply bind_Ok in H as (es & _ & H).
  apply bind_Ok in H as (v1 & _ & H).
  apply bind_Ok in H as (v0 & _ & H).
  apply bind_Ok in H as (vn1 & _ & H).
  apply bind_Ok in H as (vn2 & Hn2 & H). apply get_inv in Hn2 as [Hn2 _].
  lia.
Qed.

Lemma rehint_inv (t : Table.TableImpl) (li : Z) :
  Table_inv t -> 1 <= li <= Table._n t - 1 -> Table_inv (rehint li t).
Proof.
  intros [Ha Hn Hv Hy] Hli. constructor; cbn; try assumption.
  apply set_lastIndex_inv; [assumption|lia].
Qed.

Lemma rehint_rehint (t : Table.TableImpl) (li li' : Z) :
  rehint li' (rehint li t) = rehint li' t.
Proof. reflexivity. Qed.

Lemma rehint_same (t : Table.TableImpl) :
  rehint (ArgVec._lastIndex (Table._args t)) t = t.
Proof. destruct t as [ty [] vals n y2 fn]; reflexivity. Qed.

(** The interpolation formulas do not look at the cached index. *)
Lemma call_rehint (t : Table.TableImpl) (li : Z) (a : Q) (i : Z) :
  Table.call (rehint li t) a i = Table.call t a i.
Proof. destruct t as [ty [] vals n y2 fn]; reflexivity. Qed.

(** A lookup searches the index, evaluates the formula of the mode at the
    index found, and changes nothing but the cached index. *)
Lemma lookup_spec (t : Table.TableImpl) (a : Q) :
  Table_inv t ->
  exists i li,
    ArgVec.upperIndex a (Table._args t)
    = (Ok i, ArgVec.set_lastIndex li (Table._args t))
    /\ 1 <= li <= Table._n t - 1
    /\ 1 <= i <= Table._n t - 1
    /\ Table.lookup a t = (Table.call t a i, rehint li t).
Proof.
  intros [Ha Hn Hv Hy].
  destruct (upperIndex_total _ a Ha) as (i & li & E & Hli & Hi).
  exists i, li. rewrite Hn. repeat split; try lia; try exact E.
  unfold Table.lookup. rewrite E. cbn [bind].
  fold (rehint li t). now rewrite call_rehint.
Qed.

Lemma Table_after_rehint (qs : list Q) :
  forall t, Table_inv t ->
            exists li, 1 <= li <= Table._n t - 1 /\ Table_after qs t = rehint li t.
Proof.
  induction qs as [|q qs IH]; intros t Ht.
  - exists (ArgVec._lastIndex (Table._args t)). rewrite rehint_same.
    split; [|reflexivity].
    destruct Ht as [[] Hn _ _]. lia.
  - destruct (lookup_spec t q Ht) as (i & li & _ & Hli & _ & E).
    unfold Table_after in *. cbn [fold_left]. rewrite E. cbn [snd].
    destruct (IH (rehint li t) (rehint_inv t li Ht Hli)) as (li' & Hli' & ->).
    exists li'. split; [exact Hli'|apply rehint_rehint].
Qed.

(** The constructor, mode by mode. *)
Lemma Table_new_spec (args vals : list Q) (m : Table.interpolant)
      (t : Table.TableImpl) :
  increasing args -> len vals = len args ->
  Table.new args vals (len args) m = Ok t ->
  Table_inv t
  /\ ArgVec._vec (Table._args t) = args
  /\ Table._vals t = vals
  /\ Table._n t = len args
  /\ Table._iType t = m
  /\ 2 <= len args.
Proof.
  intros Hincr Hlen Hnew. unfold Table.new in Hnew.
  apply bind_Ok in Hnew as (av & Hav & Hnew).
  pose proof (ArgVec_new_two _ _ _ Hav) as Htwo.
  destruct (ArgVec_new_ok args Hincr ltac:(lia)) as (av' & Hav' & Hinv & Hvec & Hn & _).
  assert (av' = av) as -> by congruence.
  apply bind_Ok in Hnew as (fn & Hfn & Hnew).
  destruct m; try discriminate Hfn; injection Hfn as <-;
    try (injection Hnew as <-; cbn;
         split; [constructor; cbn; try assumption; try lia;
                 intros Hfn; discriminate Hfn|];
         repeat split; try assumption; lia).
  (* spline *)
  destruct (Z_lt_dec (len args) 3) as [Hsmall|Hbig].
  - exfalso. assert (len args = 2) as E by lia.
    unfold Table.setupSpline in Hnew. cbn [Table._n] in Hnew.
    rewrite E in Hnew. vm_compute in Hnew. discriminate Hnew.
  - destruct (setupSpline_spec
                (Table.mkImpl Table.spline av vals (len args) []
                   Table.splineInterpolate_fn) args vals (len args))
      as (y2 & E & Hl & _); try assumption; try reflexivity; try lia.
    rewrite E in Hnew. injection Hnew as <-.
    split; [constructor; cbn; try assumption; try lia; intros _; exact Hl|].
    cbn. repeat split; try assumption; lia.
Qed.

(** At a bracket between [1] and [n-1] every formula reads inside its
    arrays. *)
Lemma call_ok (t : Table.TableImpl) (a : Q) (i : Z) :
  Table_inv t -> 1 <= i <= Table._n t - 1 ->
  exists v, Table.call t a i = Ok v.
Proof.
  intros [[Hn _ _ _ _] Hnt Hv Hy] Hi.
  unfold Table.call.
  destruct (Table.interpolate t) eqn:Hfn;
    unfold Table.linearInterpolate, Table.floorInterpolate,
      Table.ceilInterpolate, Table.nearestInterpolate,
      Table.splineInterpolate, ArgVec.at_;
    rewrite ?get_ok by lia; cbn [bind].
  - eexists; reflexivity.
  - destruct (Qeq_dec a _); rewrite get_ok by lia; eexists; reflexivity.
  - destruct (Qeq_dec a _); rewrite get_ok by lia; eexists; reflexivity.
  - destruct (Qlt_le_dec _ _); rewrite get_ok by lia; eexists; reflexivity.
  - specialize (Hy eq_refl). rewrite !get_ok by lia. eexists; reflexivity.
Qed.

(** At node [k], reached through the bracket below or above it, every
    formula returns the value of the node. *)
Lemma call_at_node (t : Table.TableImpl) (k i : Z) :
  Table_inv t -> increasing (ArgVec._vec (Table._args t)) ->
  0 <= k <= Table._n t - 1 -> 1 <= i <= Table._n t - 1 ->
  i = k \/ i = k + 1 ->
  exists v, Table.call t (elt (ArgVec._vec (Table._args t)) k) i = Ok v
            /\ (v == elt (Table._vals t) k)%Q.
Proof.
  intros [[Hn _ _ _ _] Hnt Hv Hy] Hincr Hk Hi Hik.
  set (x := ArgVec._vec (Table._args t)) in *.
  assert (Hlt : forall p q, 0 <= p -> p < q -> q <= Table._n t - 1 ->
                            (elt x p < elt x q)%Q).
  { intros p q Hp Hpq Hq. apply increasing_elt; [assumption|lia..]. }
  unfold Table.call.
  destruct (Table.interpolate t) eqn:Hfn;
    unfold Table.linearInterpolate, Table.floorInterpolate,
      Table.ceilInterpolate, Table.nearestInterpolate,
      Table.splineInterpolate, ArgVec.at_; fold x;
    try specialize (Hy eq_refl);
    destruct Hik as [-> | ->];
    rewrite ?get_ok by lia; cbn [bind];
    replace (k + 1 - 1) with k by lia;
    try pose proof (Hlt (k - 1) k ltac:(lia) ltac:(lia) ltac:(lia)) as Hbelow;
    try pose proof (Hlt k (k + 1) ltac:(lia) ltac:(lia) ltac:(lia)) as Habove.
  - (* linear, from below *)
    eexists; split; [reflexivity|]. field. lra.
  - eexists; split; [reflexivity|]. field. lra.
  - (* floor *)
    destruct (Qeq_dec (elt x k) (elt x k)) as [_|Hne]; [|now destruct Hne].
    replace (k + 1 - 1) with k by lia. rewrite get_ok by lia.
    eexists; split; reflexivity.
  - destruct (Qeq_dec (elt x k) (elt x (k + 1))) as [Heq|_]; [lra|].
    replace (k + 1 - 1) with k by lia. rewrite get_ok by lia.
    eexists; split; reflexivity.
  - (* ceil *)
    destruct (Qeq_dec (elt x k) (elt x (k - 1))) as [Heq|_]; [lra|].
    rewrite get_ok by lia. eexists; split; reflexivity.
  - destruct (Qeq_dec (elt x k) (elt x k)) as [_|Hne]; [|now destruct Hne].
    replace (k + 1 - 1) with k by lia. rewrite get_ok by lia.
    eexists; split; reflexivity.
  - (* nearest *)
    destruct (Qlt_le_dec (elt x k - elt x (k - 1)) (elt x k - elt x k)) as [Hc|_];
      [lra|].
    rewrite get_ok by lia. eexists; split; reflexivity.
  - destruct (Qlt_le_dec (elt x k - elt x k) (elt x (k + 1) - elt x k)) as [_|Hc];
      [|lra].
    replace (k + 1 - 1) with k by lia. rewrite get_ok by lia.
    eexists; split; reflexivity.
  - (* spline *)
    eexists; split; [reflexivity|]. field. lra.
  - eexists; split; [reflexivity|]. field. lra.
Qed.

Lemma lookup_at_node_inv (t : Table.TableImpl) (k : Z) :
  Table_inv t -> increasing (ArgVec._vec (Table._args t)) ->
  0 <= k <= Table._n t - 1 ->
  exists v, fst (Table.lookup (elt (ArgVec._vec (Table._args t)) k) t) = Ok v
            /\ (v == elt (Table._vals t) k)%Q.
Proof.
  intros Ht Hincr Hk. pose proof Ht as [Ha Hnt Hv Hy].
  pose proof Ha as [Hn Htwo _ _ _]. rewrite Hnt in Hk.
  destruct (upperIndex_inside _ (elt (ArgVec._vec (Table._args t)) k) Ha)
    as (i & li & E & Hli & Hi & Hb).
  { split; apply increasing_elt_le; try assumption; lia. }
  destruct Hb as [Hb1 Hb2].
  apply increasing_index_le in Hb1, Hb2; try assumption; try lia.
  unfold Table.lookup. rewrite E. cbn [fst bind]. fold (rehint li t).
  rewrite call_rehint. apply call_at_node; try assumption; lia.
Qed.

Lemma Table_new_fn (args vals : list Q) (N : Z) (m : Table.interpolant)
      (t : Table.TableImpl) :
  Table.new args vals N m = Ok t ->
  m <> Table.spline ->
  Table.interpolate t
  = match m with
    | Table.linear => Table.linearInterpolate_fn
    | Table.floor => Table.floorInterpolate_fn
    | Table.ceil => Table.ceilInterpolate_fn
    | Table.nearest => Table.nearestInterpolate_fn
    | _ => Table.splineInterpolate_fn
    end.
Proof.
  unfold Table.new. intros H Hm.
  apply bind_Ok in H as (av & _ & H). apply bind_Ok in H as (fn & Hfn & H).
  destruct m; try discriminate Hfn; try (now destruct Hm);
    injection Hfn as <-; injection H as <-; reflexivity.
Qed.

(** ** C2: exactness at the nodes *)

(** C2.  For a table built in any of the five modes over strictly
    increasing arguments, after any sequence of lookups, the lookup of node
    [args[k]] returns [vals[k]] (up to equality of rationals: linear and
    spline compute it with a division).  In particular the floor formula,
    entered with the bracket [i] whose upper end is the query, returns
    [vals[i]], and the ceil formula, entered with the bracket whose lower
    end is the query, returns the value of that lower end. *)
Theorem lookup_exact_at_nodes
        (args vals : list Q) (m : Table.interpolant) (t0 : Table.TableImpl)
        (qs : list Q) (k : Z) :
  increasing args -> len vals = len args ->
  Table.new args vals (len args) m = Ok t0 ->
  0 <= k <= len args - 1 ->
  (exists v, fst (Table.Table_lookup (elt args k) (Table_after qs t0)) = Ok v
             /\ (v == elt vals k)%Q)
  /\ (1 <= k -> Table.floorInterpolate t0 (elt args k) k = Ok (elt vals k))
  /\ (k + 1 <= len args - 1 ->
      Table.ceilInterpolate t0 (elt args k) (k + 1) = Ok (elt vals k)).
Proof.
  intros Hincr Hlen Hnew Hk.
  destruct (Table_new_spec args vals m t0 Hincr Hlen Hnew)
    as (Hinv & Hvec & Hval & Hn & _ & Htwo).
  split; [|split].
  - destruct (Table_after_rehint qs t0 Hinv) as (li & Hli & ->).
    pose proof (rehint_inv t0 li Hinv Hli) as Hinv'.
    destruct (lookup_at_node_inv (rehint li t0) k Hinv') as (v & E & Hv).
    + cbn. now rewrite Hvec.
    + cbn. lia.
    + cbn in E, Hv. rewrite Hvec in E. rewrite Hval in Hv.
      exists v. split; assumption.
  - intros Hk1. unfold Table.floorInterpolate, ArgVec.at_.
    rewrite Hvec, Hval. rewrite get_ok by lia. cbn [bind].
    destruct (Qeq_dec (elt args k) (elt args k)) as [_|Hne]; [|now destruct Hne].
    replace (k + 1 - 1) with k by lia. apply get_ok. lia.
  - intros Hk1. unfold Table.ceilInterpolate, ArgVec.at_.
    rewrite Hvec, Hval. replace (k + 1 - 1) with k by lia.
    rewrite get_ok by lia. cbn [bind].
    destruct (Qeq_dec (elt args k) (elt args k)) as [_|Hne]; [|now destruct Hne].
    replace (k + 1 - 1) with k by lia. apply get_ok. lia.
Qed.

Lemma lookup_exact_at_nodes_witness :
  (exists v,
      fst (Table.Table_lookup (elt [0; 1; 2; 3]%Q 2)
             (Table_after [(5 # 2)%Q]
                (Table.mkImpl Table.spline
                   (ArgVec.mk [0; 1; 2; 3]%Q 4 (1 # 1000000) (1 # 1000000)
                      true (3 # 3) 1)
                   [0; 1; 4; 9]%Q 4 [0; 2304 # 960; 144 # 60; 0]%Q
                   Table.splineInterpolate_fn)))
      = Ok v
      /\ (v == elt [0; 1; 4; 9]%Q 2)%Q)
  /\ (1 <= 2 ->
      Table.floorInterpolate
        (Table.mkImpl Table.spline
           (ArgVec.mk [0; 1; 2; 3]%Q 4 (1 # 1000000) (1 # 1000000) true (3 # 3) 1)
           [0; 1; 4; 9]%Q 4 [0; 2304 # 960; 144 # 60; 0]%Q
           Table.splineInterpolate_fn)
        (elt [0; 1; 2; 3]%Q 2) 2
      = Ok (elt [0; 1; 4; 9]%Q 2))
  /\ (2 + 1 <= len [0; 1; 2; 3]%Q - 1 ->
      Table.ceilInterpolate
        (Table.mkImpl Table.spline
           (ArgVec.mk [0; 1; 2; 3]%Q 4 (1 # 1000000) (1 # 1000000) true (3 # 3) 1)
           [0; 1; 4; 9]%Q 4 [0; 2304 # 960; 144 # 60; 0]%Q
           Table.splineInterpolate_fn)
        (elt [0; 1; 2; 3]%Q 2) (2 + 1)
      = Ok (elt [0; 1; 4; 9]%Q 2)).
Proof.
  apply (lookup_exact_at_nodes [0; 1; 2; 3]%Q [0; 1; 4; 9]%Q Table.spline).
  - simpl. repeat split; reflexivity.
  - reflexivity.
  - vm_compute. reflexivity.
  - vm_compute. split; discriminate.
Defined.

(** ** C3: the spline system *)

(** C3.  A spline table over [n >= 3] strictly increasing arguments is
    built, and its second derivatives [y2] satisfy [y2[0] = 0],
    [y2[n-1] = 0] and, for [1 <= i <= n-2], the row
    [(x[i]-x[i-1])*y2[i-1] + 2*(x[i+1]-x[i-1])*y2[i] + (x[i+1]-x[i])*y2[i+1]
     = 6*((y[i+1]-y[i])/(x[i+1]-x[i]) - (y[i]-y[i-1])/(x[i]-x[i-1]))]
    of the natural cubic spline, under exact arithmetic. *)
Theorem spline_second_derivatives (args vals : list Q) :
  increasing args -> len vals = len args -> 3 <= len args ->
  exists t,
    Table.new args vals (len args) Table.spline = Ok t
    /\ len (Table._y2 t) = len args
    /\ elt (Table._y2 t) 0 = 0%Q
    /\ elt (Table._y2 t) (len args - 1) = 0%Q
    /\ forall i, 1 <= i <= len args - 2 ->
         ((elt args i - elt args (i - 1)) * elt (Table._y2 t) (i - 1)
          + 2 * (elt args (i + 1) - elt args (i - 1)) * elt (Table._y2 t) i
          + (elt args (i + 1) - elt args i) * elt (Table._y2 t) (i + 1)
          == 6 * ((elt vals (i + 1) - elt vals i) / (elt args (i + 1) - elt args i)
                  - (elt vals i - elt vals (i - 1)) / (elt args i - elt args (i - 1))))%Q.
Proof.
  intros Hincr Hlen Hn. unfold Table.new.
  destruct (ArgVec_new_ok args Hincr ltac:(lia)) as (av & -> & Hinv & Hvec & Hnv & _).
  cbn [bind].
  destruct (setupSpline_spec
              (Table.mkImpl Table.spline av vals (len args) []
                 Table.splineInterpolate_fn) args vals (len args))
    as (y2 & -> & Hl & H0 & Hlast & Hrows); try assumption; try reflexivity.
  eexists. split; [reflexivity|]. cbn [Table._y2 Table.set_y2].
  split; [exact Hl|]. split; [exact H0|]. split; [exact Hlast|].
  intros i Hi. apply (Hrows i Hi).
Qed.

Lemma spline_second_derivatives_witness :
  exists t,
    Table.new [0; 1; 2; 3]%Q [0; 1; 4; 9]%Q (len [0; 1; 2; 3]%Q) Table.spline = Ok t
    /\ len (Table._y2 t) = len [0; 1; 2; 3]%Q
    /\ elt (Table._y2 t) 0 = 0%Q
    /\ elt (Table._y2 t) (len [0; 1; 2; 3]%Q - 1) = 0%Q
    /\ forall i, 1 <= i <= len [0; 1; 2; 3]%Q - 2 ->
         ((elt [0; 1; 2; 3] i - elt [0; 1; 2; 3] (i - 1)) * elt (Table._y2 t) (i - 1)
          + 2 * (elt [0; 1; 2; 3] (i + 1) - elt [0; 1; 2; 3] (i - 1))
            * elt (Table._y2 t) i
          + (elt [0; 1; 2; 3] (i + 1) - elt [0; 1; 2; 3] i) * elt (Table._y2 t) (i + 1)
          == 6 * ((elt [0; 1; 4; 9] (i + 1) - elt [0; 1; 4; 9] i)
                  / (elt [0; 1; 2; 3] (i + 1) - elt [0; 1; 2; 3] i)
                  - (elt [0; 1; 4; 9] i - elt [0; 1; 4; 9] (i - 1))
                    / (elt [0; 1; 2; 3] i - elt [0; 1; 2; 3] (i - 1))))%Q.
Proof.
  apply (spline_second_derivatives [0; 1; 2; 3]%Q [0; 1; 4; 9]%Q).
  - simpl. repeat split; reflexivity.
  - reflexivity.
  - vm_compute. discriminate.
Defined.

(** ** C5: errors of the constructor *)

(** C5.  With an unrecognized mode tag, or in spline mode with fewer than
    three nodes, the constructor ends in an error and returns no table.
    When the argument vector itself could be built, the error is the
    exception thrown by the [default:] label for the tag, and the
    [std::length_error] of the allocation of the [_n - 3] temporaries of
    [setupSpline] for the spline. *)
Theorem construction_errors (args vals : list Q) (N : Z) (m : Table.interpolant) :
  (exists tag, m = Table.unrecognized tag) \/ (m = Table.spline /\ N < 3) ->
  exists e,
    Table.new args vals N m = Err e
    /\ (forall av, ArgVec.new args N = Ok av ->
                   e = match m with
                       | Table.spline => LengthError
                       | _ => RuntimeError "invalid interpolation method"
                       end).
Proof.
  intros Hm. unfold Table.new.
  destruct (ArgVec.new args N) as [av|e] eqn:Hav.
  - pose proof (ArgVec_new_two _ _ _ Hav) as Htwo. cbn [bind].
    destruct Hm as [(tag & ->)|(-> & Hsmall)].
    + eexists. split; [reflexivity|]. intros; reflexivity.
    + assert (N = 2) as -> by lia. cbn [bind].
      exists LengthError. split; [|intros; reflexivity].
      unfold Table.setupSpline. cbn [Table._n]. reflexivity.
  - exists e. split; [reflexivity|]. intros av Hav'. discriminate Hav'.
Qed.

Lemma construction_errors_witness :
  exists e,
    Table.new [0; 1]%Q [0; 1]%Q 2 Table.spline = Err e
    /\ (forall av, ArgVec.new [0; 1]%Q 2 = Ok av ->
                   e = match Table.spline with
                       | Table.spline => LengthError
                       | _ => RuntimeError "invalid interpolation method"
                       end).
Proof.
  apply (construction_errors [0; 1]%Q [0; 1]%Q 2 Table.spline).
  right. split; [reflexivity|lia].
Defined.

(** ** C8: queries outside the domain *)

Lemma set_args_same (t : Table.TableImpl) : Table.set_args (Table._args t) t = t.
Proof. destruct t; reflexivity. Qed.

(** A spline table that was built: it has three nodes at least, and its
    second derivatives solve the natural-spline system. *)
Lemma Table_new_spline (args vals : list Q) (t0 : Table.TableImpl) :
  increasing args -> len vals = len args ->
  Table.new args vals (len args) Table.spline = Ok t0 ->
  3 <= len args
  /\ Table.interpolate t0 = Table.splineInterpolate_fn
  /\ len (Table._y2 t0) = len args
  /\ elt (Table._y2 t0) 0 = 0%Q
  /\ elt (Table._y2 t0) (len args - 1) = 0%Q
  /\ forall i, 1 <= i <= len args - 2 ->
               tridiagonal_row args vals (Table._y2 t0) i.
Proof.
  intros Hincr Hlen Hnew. unfold Table.new in Hnew.
  apply bind_Ok in Hnew as (av & Hav & Hnew).
  pose proof (ArgVec_new_two _ _ _ Hav) as Htwo.
  destruct (ArgVec_new_ok args Hincr ltac:(lia)) as (av' & Hav' & Hinv & Hvec & Hn & _).
  assert (av' = av) as -> by congruence.
  cbn [bind] in Hnew.
  destruct (Z_lt_dec (len args) 3) as [Hsmall|Hbig].
  - exfalso. assert (len args = 2) as E by lia.
    unfold Table.setupSpline in Hnew. cbn [Table._n] in Hnew.
    rewrite E in Hnew. vm_compute in Hnew. discriminate Hnew.
  - destruct (setupSpline_spec
                (Table.mkImpl Table.spline av vals (len args) []
                   Table.splineInterpolate_fn) args vals (len args))
      as (y2 & E & Hl & H0 & Hlast & Hrows);
      try assumption; try reflexivity; try lia.
    rewrite E in Hnew. injection Hnew as <-. cbn.
    split; [lia|]. split; [reflexivity|]. split; [exact Hl|].
    split; [exact H0|]. split; [exact Hlast|exact Hrows].
Qed.

(** C8.  For a query below the first argument [upperIndex] returns 1, for
    a query above the last one it returns [n-1]; neither raises an error
    or moves the cached index.  [Table::lookup] then returns the value of
    the formula of the mode at that bracket: below the domain [vals[0]] in
    floor and nearest mode, [vals[1]] in ceil mode, the line through the
    first two nodes in linear mode and the first cubic in spline mode,
    each prolonged to the query; above the domain [vals[n-2]] in floor
    mode, [vals[n-1]] in ceil and nearest mode, and the last line or cubic
    prolonged.  [Table::operator()] answers 0 in both cases. *)
Theorem lookup_outside_domain
        (args vals : list Q) (m : Table.interpolant) (t0 : Table.TableImpl)
        (qs : list Q) (a : Q) :
  increasing args -> len vals = len args ->
  Table.new args vals (len args) m = Ok t0 ->
  let t := Table_after qs t0 in
  ((a < elt args 0)%Q ->
   ArgVec.upperIndex a (Table._args t) = (Ok 1, Table._args t)
   /\ exists v, Table.call t a 1 = Ok v
                /\ v = extrapolation m args vals (Table._y2 t0) 1 true a
                /\ Table.Table_lookup a t = (Ok v, t)
                /\ Table.Table_call a t = (Ok 0%Q, t))
  /\ ((elt args (len args - 1) < a)%Q ->
      ArgVec.upperIndex a (Table._args t) = (Ok (len args - 1), Table._args t)
      /\ exists v, Table.call t a (len args - 1) = Ok v
                   /\ v = extrapolation m args vals (Table._y2 t0)
                            (len args - 1) false a
                   /\ Table.Table_lookup a t = (Ok v, t)
                   /\ Table.Table_call a t = (Ok 0%Q, t)).
Proof.
  intros Hincr Hlen Hnew t.
  destruct (Table_new_spec args vals m t0 Hincr Hlen Hnew)
    as (Hinv0 & Hvec0 & Hval0 & Hn0 & _ & Htwo).
  destruct (Table_after_rehint qs t0 Hinv0) as (li & Hli & Ht).
  assert (Hinv : Table_inv t) by (subst t; rewrite Ht; now apply rehint_inv).
  assert (Hvec : ArgVec._vec (Table._args t) = args)
    by (subst t; rewrite Ht; exact Hvec0).
  assert (Hval : Table._vals t = vals) by (subst t; rewrite Ht; exact Hval0).
  assert (Hn : Table._n t = len args) by (subst t; rewrite Ht; exact Hn0).
  assert (Hy2 : Table._y2 t = Table._y2 t0) by (subst t; now rewrite Ht).
  assert (Hfn : Table.interpolate t = Table.interpolate t0)
    by (subst t; now rewrite Ht).
  clearbody t. clear Ht.
  pose proof Hinv as [Ha Hnt _ Hly2]. pose proof Ha as [Hnv _ _ _ _].
  assert (elt args 0 < elt args (len args - 1))%Q as Hspan
    by (apply increasing_elt; [assumption|lia..]).
  assert (elt args 0 < elt args 1)%Q as Hfirst
    by (apply increasing_elt; [assumption|lia..]).
  assert (elt args (len args - 1 - 1) < elt args (len args - 1))%Q as Hlast
    by (apply increasing_elt; [assumption|lia..]).
  (* the formula of the mode at the two end brackets *)
  assert (Hvalue :
            ((a < elt args 0)%Q ->
             Table.call t a 1
             = Ok (extrapolation m args vals (Table._y2 t0) 1 true a))
            /\ ((elt args (len args - 1) < a)%Q ->
                Table.call t a (len args - 1)
                = Ok (extrapolation m args vals (Table._y2 t0)
                        (len args - 1) false a))).
  { unfold Table.call. rewrite Hfn.
    destruct m as [| | | | |tag];
      try (rewrite (Table_new_fn _ _ _ _ _ Hnew) by discriminate);
      cbn [extrapolation].
    - (* linear *)
      unfold Table.linearInterpolate, ArgVec.at_. rewrite Hvec, Hval.
      split; intros Hout; rewrite !get_ok by lia; reflexivity.
    - (* floor *)
      unfold Table.floorInterpolate, ArgVec.at_. rewrite Hvec, Hval.
      split; intros Hout; rewrite get_ok by lia; cbn [bind];
        (destruct (Qeq_dec a _) as [E|_]; [rewrite E in Hout; lra|]);
        apply get_ok; lia.
    - (* ceil *)
      unfold Table.ceilInterpolate, ArgVec.at_. rewrite Hvec, Hval.
      change (1 - 1) with 0.
      split; intros Hout; rewrite get_ok by lia; cbn [bind];
        (destruct (Qeq_dec a _) as [E|_]; [rewrite E in Hout; lra|]);
        apply get_ok; lia.
    - (* nearest *)
      unfold Table.nearestInterpolate, ArgVec.at_. rewrite Hvec, Hval.
      change (1 - 1) with 0.
      split; intros Hout; rewrite !get_ok by lia; cbn [bind].
      + destruct (Qlt_le_dec _ _) as [_|E]; [|lra]. apply get_ok. lia.
      + destruct (Qlt_le_dec _ _) as [E|_]; [lra|]. apply get_ok. lia.
    - (* spline *)
      destruct (Table_new_spline args vals t0 Hincr Hlen Hnew)
        as (_ & Hs & Hl2 & _).
      rewrite Hs.
      unfold Table.splineInterpolate, ArgVec.at_. rewrite Hvec, Hval, Hy2.
      split; intros Hout; rewrite !get_ok by lia; reflexivity.
    - (* no table is built for an unrecognized mode *)
      exfalso. unfold Table.new in Hnew.
      apply bind_Ok in Hnew as (av & _ & Hnew). discriminate Hnew. }
  destruct Hvalue as [Hbelow Habove].
  split; intros Hout.
  - assert (E : ArgVec.upperIndex a (Table._args t) = (Ok 1, Table._args t))
      by (apply upperIndex_below; [assumption|now rewrite Hvec]).
    split; [exact E|].
    eexists. split; [exact (Hbelow Hout)|]. split; [reflexivity|]. split.
    + unfold Table.Table_lookup, Table.lookup. rewrite E, set_args_same.
      cbn [bind]. now rewrite (Hbelow Hout).
    + unfold Table.Table_call, Table.argMin, Table.argMax,
        ArgVec.front, ArgVec.back.
      rewrite Hvec, !get_ok by lia.
      destruct (Qlt_le_dec a (elt args 0)); [reflexivity|lra].
  - assert (E : ArgVec.upperIndex a (Table._args t)
                = (Ok (len args - 1), Table._args t)).
    { rewrite <- Hn, Hnt. apply upperIndex_above; [assumption|].
      rewrite Hvec, <- Hnt, Hn. exact Hout. }
    split; [exact E|].
    eexists. split; [exact (Habove Hout)|]. split; [reflexivity|]. split.
    + unfold Table.Table_lookup, Table.lookup. rewrite E, set_args_same.
      cbn [bind]. now rewrite (Habove Hout).
    + unfold Table.Table_call, Table.argMin, Table.argMax,
        ArgVec.front, ArgVec.back.
      rewrite Hvec, <- Hnt, Hn, !get_ok by lia.
      destruct (Qlt_le_dec a (elt args 0)); [reflexivity|].
      destruct (Qlt_le_dec (elt args (len args - 1)) a); [reflexivity|lra].
Qed.

Lemma lookup_outside_domain_witness :
  let t := Table_after [(1 # 2)%Q]
             (Table.mkImpl Table.linear
                (ArgVec.mk [0; 1; 3]%Q 3 (1 # 1000000) (2 # 1000000) false (3 # 2) 1)
                [0; 1; 5]%Q 3 [] Table.linearInterpolate_fn) in
  ArgVec.upperIndex 4 (Table._args t) = (Ok (len [0; 1; 3]%Q - 1), Table._args t)
  /\ exists v, Table.call t 4 (len [0; 1; 3]%Q - 1) = Ok v
               /\ v = extrapolation Table.linear [0; 1; 3]%Q [0; 1; 5]%Q
                        (Table._y2
                           (Table.mkImpl Table.linear
                              (ArgVec.mk [0; 1; 3]%Q 3 (1 # 1000000) (2 # 1000000)
                                 false (3 # 2) 1)
                              [0; 1; 5]%Q 3 [] Table.linearInterpolate_fn))
                        (len [0; 1; 3]%Q - 1) false 4
               /\ Table.Table_lookup 4 t = (Ok v, t)
               /\ Table.Table_call 4 t = (Ok 0%Q, t).
Proof.
  refine (proj2 (lookup_outside_domain [0; 1; 3]%Q [0; 1; 5]%Q Table.linear
                   _ [(1 # 2)%Q] 4 _ _ _) _).
  - simpl. repeat split; reflexivity.
  - reflexivity.
  - vm_compute. reflexivity.
  - vm_compute. reflexivity.
Defined.

(** ** Two-dimensional tables: construction and index searches *)

Lemma rehint2_inv (t : Table2D.Table2DImpl) (lx ly : Z) :
  Table2D_inv t ->
  1 <= lx <= ArgVec._n (Table2D._xargs t) - 1 ->
  1 <= ly <= ArgVec._n (Table2D._yargs t) - 1 ->
  Table2D_inv (rehint2 lx ly t).
Proof.
  intros [Hx Hy Hny Hv Hnx] Hlx Hly.
  constructor; cbn; try assumption; apply set_lastIndex_inv; assumption.
Qed.

Lemma rehint2_rehint2 (t : Table2D.Table2DImpl) (lx ly lx' ly' : Z) :
  rehint2 lx' ly' (rehint2 lx ly t) = rehint2 lx' ly' t.
Proof. reflexivity. Qed.

Lemma rehint2_same (t : Table2D.Table2DImpl) :
  rehint2 (ArgVec._lastIndex (Table2D._xargs t))
          (ArgVec._lastIndex (Table2D._yargs t)) t = t.
Proof. destruct t as [[] [] vals ny d]; reflexivity. Qed.

(** Neither the interpolation nor the gradient looks at the cached
    indices. *)
Lemma interp_rehint2 (t : Table2D.Table2DImpl) (lx ly : Z) (x y : Q) (i j : Z) :
  Table2D.interp (rehint2 lx ly t) x y i j = Table2D.interp t x y i j.
Proof. destruct t as [[] [] vals ny d]; reflexivity. Qed.

Lemma grad_rehint2 (t : Table2D.Table2DImpl) (lx ly : Z) (x y : Q) (i j : Z) :
  Table2D.grad (rehint2 lx ly t) x y i j = Table2D.grad t x y i j.
Proof. destruct t as [[] [] vals ny d]; reflexivity. Qed.

(** The two searches succeed and move nothing but the cached indices. *)
Lemma upperIndices_spec (t : Table2D.Table2DImpl) (x y : Q) :
  Table2D_inv t ->
  exists i j lx ly,
    fst (ArgVec.upperIndex x (Table2D._xargs t)) = Ok i
    /\ fst (ArgVec.upperIndex y (Table2D._yargs t)) = Ok j
    /\ 1 <= i <= ArgVec._n (Table2D._xargs t) - 1
    /\ 1 <= j <= ArgVec._n (Table2D._yargs t) - 1
    /\ 1 <= lx <= ArgVec._n (Table2D._xargs t) - 1
    /\ 1 <= ly <= ArgVec._n (Table2D._yargs t) - 1
    /\ Table2D.upperIndices x y t = (Ok (i, j), rehint2 lx ly t).
Proof.
  intros [Hx Hy _ _ _].
  destruct (upperIndex_total _ x Hx) as (i & lx & Ex & Hlx & Hi).
  destruct (upperIndex_total _ y Hy) as (j & ly & Ey & Hly & Hj).
  exists i, j, lx, ly. rewrite Ex, Ey.
  repeat split; try lia.
  unfold Table2D.upperIndices. rewrite Ex.
  cbn [Table2D._yargs Table2D.set_xargs]. rewrite Ey. reflexivity.
Qed.

Lemma lookup2_spec (t : Table2D.Table2DImpl) (x y : Q) :
  Table2D_inv t ->
  exists i j lx ly,
    fst (ArgVec.upperIndex x (Table2D._xargs t)) = Ok i
    /\ fst (ArgVec.upperIndex y (Table2D._yargs t)) = Ok j
    /\ 1 <= i <= ArgVec._n (Table2D._xargs t) - 1
    /\ 1 <= j <= ArgVec._n (Table2D._yargs t) - 1
    /\ 1 <= lx <= ArgVec._n (Table2D._xargs t) - 1
    /\ 1 <= ly <= ArgVec._n (Table2D._yargs t) - 1
    /\ Table2D.lookup x y t = (Table2D.interp t x y i j, rehint2 lx ly t)
    /\ Table2D.gradient x y t = (Table2D.grad t x y i j, rehint2 lx ly t).
Proof.
  intros Ht.
  destruct (upperIndices_spec t x y Ht)
    as (i & j & lx & ly & Ei & Ej & Hi & Hj & Hlx & Hly & E).
  exists i, j, lx, ly. repeat split; try assumption; try lia.
  - unfold Table2D.lookup, mbind. rewrite E. cbn [fst snd].
    now rewrite interp_rehint2.
  - unfold Table2D.gradient, mbind. rewrite E. cbn [fst snd].
    now rewrite grad_rehint2.
Qed.

Lemma Table2D_after_rehint (pts : list (Q * Q)) :
  forall t, Table2D_inv t ->
            exists lx ly,
              1 <= lx <= ArgVec._n (Table2D._xargs t) - 1
              /\ 1 <= ly <= ArgVec._n (Table2D._yargs t) - 1
              /\ Table2D_after pts t = rehint2 lx ly t.
Proof.
  induction pts as [|p pts IH]; intros t Ht.
  - exists (ArgVec._lastIndex (Table2D._xargs t)),
           (ArgVec._lastIndex (Table2D._yargs t)).
    rewrite rehint2_same. destruct Ht as [[] [] _ _ _]. repeat split; lia.
  - destruct (lookup2_spec t (fst p) (snd p) Ht)
      as (i & j & lx & ly & _ & _ & _ & _ & Hlx & Hly & E & _).
    unfold Table2D_after in *. cbn [fold_left]. rewrite E. cbn [snd].
    destruct (IH (rehint2 lx ly t) (rehint2_inv t lx ly Ht Hlx Hly))
      as (lx' & ly' & Hlx' & Hly' & ->).
    cbn in Hlx', Hly'. exists lx', ly'.
    split; [lia|]. split; [lia|]. apply rehint2_rehint2.
Qed.

(** [makeImpl], mode by mode. *)
Lemma makeImpl_spec (xargs yargs vals dfdx dfdy d2fdxdy : list Q)
      (m : Table2D.interpolant) (ko : option InterpolantXY)
      (t : Table2D.Table2DImpl) :
  increasing xargs -> increasing yargs ->
  len vals = len xargs * len yargs ->
  Table2D.makeImpl xargs yargs vals (len xargs) (len yargs) m
    dfdx dfdy d2fdxdy ko = Ok t ->
  Table2D_inv t
  /\ ArgVec._vec (Table2D._xargs t) = xargs
  /\ ArgVec._vec (Table2D._yargs t) = yargs
  /\ Table2D._vals t = vals
  /\ Table2D._ny t = len yargs
  /\ 2 <= len xargs /\ 2 <= len yargs
  /\ (forall k, m = Table2D.interpolant2d -> ko = Some k ->
                Table2D.self t = Table2D.T2DInterpolant2D (len xargs) k)
  /\ (m <> Table2D.interpolant2d ->
      forall k, Table2D.self t = derived_of m (len xargs) dfdx dfdy d2fdxdy k).
Proof.
  intros Hix Hiy Hlen Hmk.
  assert (Hcrtp : forall d,
             Table2D.T2DCRTP_new xargs yargs vals (len xargs) (len yargs) d = Ok t ->
             (forall nx k, d = Table2D.T2DInterpolant2D nx k -> nx = len xargs) ->
             Table2D_inv t
             /\ ArgVec._vec (Table2D._xargs t) = xargs
             /\ ArgVec._vec (Table2D._yargs t) = yargs
             /\ Table2D._vals t = vals
             /\ Table2D._ny t = len yargs
             /\ 2 <= len xargs /\ 2 <= len yargs
             /\ Table2D.self t = d).
  { intros d Hd Hnx. unfold Table2D.T2DCRTP_new in Hd.
    apply bind_Ok in Hd as (xa & Hxa & Hd).
    apply bind_Ok in Hd as (ya & Hya & Hd).
    pose proof (ArgVec_new_two _ _ _ Hxa) as Hx2.
    pose proof (ArgVec_new_two _ _ _ Hya) as Hy2.
    destruct (ArgVec_new_ok xargs Hix ltac:(lia)) as (xa' & Hxa' & Hxi & Hxv & Hxn & _).
    destruct (ArgVec_new_ok yargs Hiy ltac:(lia)) as (ya' & Hya' & Hyi & Hyv & Hyn & _).
    assert (xa' = xa) as -> by congruence.
    assert (ya' = ya) as -> by congruence.
    injection Hd as <-. cbn.
    split; [constructor; cbn; try assumption; try lia;
            intros nx k E; rewrite Hxn; eapply Hnx; exact E|].
    repeat split; try assumption; lia. }
  unfold Table2D.makeImpl in Hmk.
  destruct m; try discriminate Hmk;
    try (destruct (Hcrtp _ Hmk) as (H1 & H2 & H3 & H4 & H5 & H6 & H7 & H8);
         [intros nx k E; discriminate E|];
         split; [exact H1|];
         repeat split; try assumption;
         [intros k E; discriminate E|intros _ k; exact H8]).
  destruct ko as [k|]; [|discriminate Hmk].
  destruct (Hcrtp _ Hmk) as (H1 & H2 & H3 & H4 & H5 & H6 & H7 & H8).
  { intros nx k' E. now injection E as <- _. }
  split; [exact H1|]. repeat split; try assumption.
  - intros k' _ E. injection E as <-. exact H8.
  - intros Hne. now destruct Hne.
Qed.

(** ** C6: modes without a gradient *)

(** C6.  On a table built in floor, ceil, nearest or interpolant2d mode,
    in any state, [gradient] ends for every query point in the
    [std::runtime_error] of the mode, and so does [gradientMany] on every
    batch with at least one query point (its first point already
    throws). *)
Theorem gradient_unsupported
        (xargs yargs vals dfdx dfdy d2fdxdy : list Q)
        (ko : option InterpolantXY) (m : Table2D.interpolant)
        (t0 : Table2D.Table2DImpl) (pts : list (Q * Q)) :
  increasing xargs -> increasing yargs ->
  len vals = len xargs * len yargs ->
  m = Table2D.floor \/ m = Table2D.ceil \/ m = Table2D.nearest
  \/ m = Table2D.interpolant2d ->
  Table2D.makeImpl xargs yargs vals (len xargs) (len yargs) m
    dfdx dfdy d2fdxdy ko = Ok t0 ->
  let t := Table2D_after pts t0 in
  (forall x y,
      fst (Table2D.gradient x y t) = Err (RuntimeError (gradient_refusal m)))
  /\ (forall xvec yvec dfdxvec dfdyvec N,
         1 <= N -> 1 <= len xvec -> 1 <= len yvec ->
         fst (Table2D.gradientMany xvec yvec dfdxvec dfdyvec N t)
         = Err (RuntimeError (gradient_refusal m))).
Proof.
  intros Hix Hiy Hlen Hm Hmk t.
  destruct (makeImpl_spec _ _ _ _ _ _ _ _ _ Hix Hiy Hlen Hmk)
    as (Hinv0 & _ & _ & _ & _ & _ & _ & Hk & Hself).
  destruct (Table2D_after_rehint pts t0 Hinv0) as (lx & ly & Hlx & Hly & Ht).
  assert (Hinv : Table2D_inv t) by (subst t; rewrite Ht; now apply rehint2_inv).
  assert (Hgrad : forall x y i j,
             Table2D.grad t x y i j = Err (RuntimeError (gradient_refusal m))).
  { intros x y i j. subst t. rewrite Ht, grad_rehint2. unfold Table2D.grad.
    destruct Hm as [-> | [-> | [-> | ->]]].
    - rewrite (Hself ltac:(discriminate) (mkInterpolantXY false 0 (fun _ _ => 0%Q))).
      reflexivity.
    - rewrite (Hself ltac:(discriminate) (mkInterpolantXY false 0 (fun _ _ => 0%Q))).
      reflexivity.
    - rewrite (Hself ltac:(discriminate) (mkInterpolantXY false 0 (fun _ _ => 0%Q))).
      reflexivity.
    - destruct ko as [k|]; [|discriminate Hmk].
      rewrite (Hk k eq_refl eq_refl). reflexivity. }
  assert (Hone : forall x y,
             fst (Table2D.gradient x y t) = Err (RuntimeError (gradient_refusal m))).
  { intros x y.
    destruct (lookup2_spec t x y Hinv)
      as (i & j & lx' & ly' & _ & _ & _ & _ & _ & _ & _ & E).
    rewrite E. cbn [fst]. apply Hgrad. }
  clearbody t. split; [exact Hone|].
  intros xvec yvec dfdxvec dfdyvec N HN Hxv Hyv.
  unfold Table2D.gradientMany.
  destruct (Z.to_nat N) as [|n'] eqn:EN; [lia|].
  cbn [Table2D.gradientMany_loop]. unfold mbind, lift.
  rewrite !get_ok by lia.
  specialize (Hone (elt xvec 0) (elt yvec 0)).
  destruct (Table2D.gradient (elt xvec 0) (elt yvec 0) t) as [r t'].
  cbn [fst] in Hone. subst r. reflexivity.
Qed.

Lemma gradient_unsupported_witness :
  let t := Table2D_after [((1 # 2)%Q, (1 # 2)%Q)]
             (Table2D.mkImpl
                (ArgVec.mk [0; 1]%Q 2 (1 # 1000000) (1 # 1000000) true (1 # 1) 1)
                (ArgVec.mk [0; 1]%Q 2 (1 # 1000000) (1 # 1000000) true (1 # 1) 1)
                [0; 1; 1; 2]%Q 2 Table2D.T2DNearest) in
  (forall x y,
      fst (Table2D.gradient x y t)
      = Err (RuntimeError (gradient_refusal Table2D.nearest)))
  /\ (forall xvec yvec dfdxvec dfdyvec N,
         1 <= N -> 1 <= len xvec -> 1 <= len yvec ->
         fst (Table2D.gradientMany xvec yvec dfdxvec dfdyvec N t)
         = Err (RuntimeError (gradient_refusal Table2D.nearest))).
Proof.
  apply (gradient_unsupported [0; 1]%Q [0; 1]%Q [0; 1; 1; 2]%Q [] [] [] None
           Table2D.nearest).
  - simpl. repeat split; reflexivity.
  - simpl. repeat split; reflexivity.
  - reflexivity.
  - right; right; left; reflexivity.
  - vm_compute. reflexivity.
Defined.

(** ** C7: the gradient of the cubic convolution *)

Lemma only_out_of_bounds_get (v : list Q) (i : Z) : only_out_of_bounds (get v i).
Proof.
  destruct (Z_lt_dec i 0); [rewrite get_err by lia; reflexivity|].
  destruct (Z_le_dec (len v) i); [rewrite get_err by lia; reflexivity|].
  rewrite get_ok by lia. exact I.
Qed.

Lemma only_out_of_bounds_bind {A B : Type} (r : result A) (k : A -> result B) :
  only_out_of_bounds r -> (forall a, only_out_of_bounds (k a)) ->
  only_out_of_bounds (bind r k).
Proof. destruct r as [a|e]; simpl; auto. Qed.


(** A node of the grid lies inside the array of values. *)
Lemma grid_index (nx ny ii jj : Z) :
  0 <= ii < nx -> 0 <= jj < ny -> 0 <= ii * ny + jj < nx * ny.
Proof. intros Hi Hj. nia. Qed.





(** ** C10: an empty kernel support *)

(** C10.  On a table built in interpolant2d mode, in any state, with [i]
    and [j] the brackets found for the query: when the nodes inside the
    kernel's support, clamped to the grid, are none along x
    ([ixMin > ixMax]) or none along y ([iyMin > iyMax]), [lookup] returns
    0 exactly, wherever the query lies. *)
Theorem kernel_empty_support
        (xargs yargs vals dfdx dfdy d2fdxdy : list Q) (k : InterpolantXY)
        (t0 : Table2D.Table2DImpl) (pts : list (Q * Q)) (x y : Q) (i j : Z) :
  increasing xargs -> increasing yargs ->
  len vals = len xargs * len yargs ->
  Table2D.makeImpl xargs yargs vals (len xargs) (len yargs)
    Table2D.interpolant2d dfdx dfdy d2fdxdy (Some k) = Ok t0 ->
  let t := Table2D_after pts t0 in
  fst (ArgVec.upperIndex x (Table2D._xargs t)) = Ok i ->
  fst (ArgVec.upperIndex y (Table2D._yargs t)) = Ok j ->
  let wx := window k (len xargs) i (offset xargs x i) in
  let wy := window k (len yargs) j (offset yargs y j) in
  fst wx > snd wx \/ fst wy > snd wy ->
  fst (Table2D.lookup x y t) = Ok 0%Q.
Proof.
  intros Hix Hiy Hlen Hmk t.
  destruct (makeImpl_spec _ _ _ _ _ _ _ _ _ Hix Hiy Hlen Hmk)
    as (Hinv0 & Hxv0 & Hyv0 & _ & Hny0 & Hx2 & Hy2 & Hself0 & _).
  destruct (Table2D_after_rehint pts t0 Hinv0) as (lx & ly & Hlx & Hly & Ht).
  assert (Hinv : Table2D_inv t) by (subst t; rewrite Ht; now apply rehint2_inv).
  assert (Hxv : ArgVec._vec (Table2D._xargs t) = xargs)
    by (subst t; rewrite Ht; exact Hxv0).
  assert (Hyv : ArgVec._vec (Table2D._yargs t) = yargs)
    by (subst t; rewrite Ht; exact Hyv0).
  assert (Hny : Table2D._ny t = len yargs) by (subst t; rewrite Ht; exact Hny0).
  assert (Hself : Table2D.self t = Table2D.T2DInterpolant2D (len xargs) k).
  { subst t. rewrite Ht. cbn. now apply Hself0. }
  clearbody t. clear Ht.
  intros Ei Ej wx wy Hempty.
  pose proof Hinv as [Hxa Hya _ _ _].
  pose proof Hxa as [Hxn _ _ _ _]. pose proof Hya as [Hyn _ _ _ _].
  rewrite Hxv in Hxn. rewrite Hyv in Hyn.
  destruct (lookup2_spec t x y Hinv)
    as (i' & j' & lx' & ly' & Ei' & Ej' & Hi & Hj & _ & _ & E & _).
  assert (i' = i) as -> by congruence. assert (j' = j) as -> by congruence.
  rewrite E. cbn [fst]. unfold Table2D.interp. rewrite Hself.
  unfold Table2D.Interp_interp, ArgVec.at_. cbv zeta.
  rewrite Hxv, Hyv, Hny. rewrite !get_ok by lia. cbn [bind].
  fold (offset xargs x i). fold (offset yargs y j).
  subst wx wy. unfold window in Hempty. cbn [fst snd] in Hempty.
  match goal with
  | |- context [?hi <? ?lo] => destruct (Z.ltb_spec hi lo) as [|Hx]
  end; [reflexivity|].
  match goal with
  | |- context [?hi <? ?lo] => destruct (Z.ltb_spec hi lo) as [|Hy]
  end; [reflexivity|].
  lia.
Qed.

Lemma kernel_empty_support_witness :
  fst (Table2D.lookup (1 # 2) (1 # 2)
         (Table2D_after []
            (Table2D.mkImpl
               (ArgVec.mk [0; 1]%Q 2 (1 # 1000000) (1 # 1000000) true (1 # 1) 1)
               (ArgVec.mk [0; 1]%Q 2 (1 # 1000000) (1 # 1000000) true (1 # 1) 1)
               [1; 1; 1; 1]%Q 2
               (Table2D.T2DInterpolant2D 2
                  (mkInterpolantXY false (1 # 4) (fun _ _ => 1%Q))))))
  = Ok 0%Q.
Proof.
  apply (kernel_empty_support [0; 1]%Q [0; 1]%Q [1; 1; 1; 1]%Q [] [] []
           (mkInterpolantXY false (1 # 4) (fun _ _ => 1%Q)) _ [] (1 # 2) (1 # 2) 1 1).
  - simpl. repeat split; reflexivity.
  - simpl. repeat split; reflexivity.
  - reflexivity.
  - vm_compute. reflexivity.
  - vm_compute. reflexivity.
  - vm_compute. reflexivity.
  - left. vm_compute. reflexivity.
Defined.

(** ** C4: ties in nearest mode *)

(** A query strictly inside bracket [i] is answered [i], whatever the
    cached index. *)
Lemma upperIndex_strictly_inside (av : ArgVec.t) (a : Q) (i : Z) :
  ArgVec_inv av -> 1 <= i <= ArgVec._n av - 1 ->
  (elt (ArgVec._vec av) (i - 1) < a < elt (ArgVec._vec av) i)%Q ->
  fst (ArgVec.upperIndex a av) = Ok i.
Proof.
  intros Hav Hi [Hlo Hhi]. pose proof Hav as [Hn Htwo Hincr _ _].
  destruct (upperIndex_inside av a Hav) as (i' & li & E & _ & Hi' & Hb1 & Hb2).
  { split.
    - apply Qle_trans with (elt (ArgVec._vec av) (i - 1)); [|lra].
      apply increasing_elt_le; [assumption|lia..].
    - apply Qle_trans with (elt (ArgVec._vec av) i); [lra|].
      apply increasing_elt_le; [assumption|lia..]. }
  rewrite E. cbn [fst]. f_equal.
  destruct (Z.lt_trichotomy i' i) as [Hlt|[Heq|Hgt]]; [exfalso|exact Heq|exfalso].
  - assert (elt (ArgVec._vec av) i' <= elt (ArgVec._vec av) (i - 1))%Q
      by (apply increasing_elt_le; [assumption|lia..]).
    lra.
  - assert (elt (ArgVec._vec av) i <= elt (ArgVec._vec av) (i' - 1))%Q
      by (apply increasing_elt_le; [assumption|lia..]).
    lra.
Qed.

(** A point at the same distance from both ends of a bracket lies
    strictly inside it. *)
Lemma tie_strictly_inside (v : list Q) (a : Q) (i : Z) :
  increasing v -> 1 <= i <= len v - 1 ->
  (a - elt v (i - 1) == elt v i - a)%Q ->
  (elt v (i - 1) < a < elt v i)%Q.
Proof.
  intros Hv Hi Htie.
  assert (elt v (i - 1) < elt v i)%Q by (apply increasing_elt; [assumption|lia..]).
  split; lra.
Qed.

(** The node selected by [T2DNearest::interp] from the brackets [i], [j]. *)
Lemma Nearest_interp_spec (t : Table2D.Table2DImpl) (x y : Q) (i j : Z) :
  Table2D_inv t ->
  1 <= i <= ArgVec._n (Table2D._xargs t) - 1 ->
  1 <= j <= ArgVec._n (Table2D._yargs t) - 1 ->
  exists i' j',
    (i' = i \/ i' = i - 1 /\ (x - elt (ArgVec._vec (Table2D._xargs t)) (i - 1)
                              < elt (ArgVec._vec (Table2D._xargs t)) i - x)%Q)
    /\ (j' = j \/ j' = j - 1 /\ (y - elt (ArgVec._vec (Table2D._yargs t)) (j - 1)
                                 < elt (ArgVec._vec (Table2D._yargs t)) j - y)%Q)
    /\ Table2D.Nearest_interp t x y i j
       = Ok (elt (Table2D._vals t) (i' * Table2D._ny t + j')).
Proof.
  intros [[Hxn _ _ _ _] [Hyn _ _ _ _] Hny Hv _] Hi Hj.
  unfold Table2D.Nearest_interp, ArgVec.at_. cbv zeta.
  rewrite !(get_ok (ArgVec._vec _)) by lia. cbn [bind].
  destruct (Qlt_le_dec _ _) as [Hx|Hx];
    rewrite ?(get_ok (ArgVec._vec _)) by lia; cbn [bind];
    destruct (Qlt_le_dec _ _) as [Hy|Hy].
  - exists (i - 1), (j - 1). split; [right; split; [reflexivity|exact Hx]|].
    split; [right; split; [reflexivity|exact Hy]|].
    apply get_ok. rewrite Hv. apply grid_index; lia.
  - exists (i - 1), j. split; [right; split; [reflexivity|exact Hx]|].
    split; [left; reflexivity|].
    apply get_ok. rewrite Hv. apply grid_index; lia.
  - exists i, (j - 1). split; [left; reflexivity|].
    split; [right; split; [reflexivity|exact Hy]|].
    apply get_ok. rewrite Hv. apply grid_index; lia.
  - exists i, j. split; [left; reflexivity|]. split; [left; reflexivity|].
    apply get_ok. rewrite Hv. apply grid_index; lia.
Qed.

(** C4, as stated, fails: on the nodes 0, 2 with the values 10, 20 the
    query 1, at distance 1 from both nodes, is answered 20, the value of
    the upper node. *)
Lemma tie_answered_by_upper_node :
  ~ (forall (args vals : list Q) (t0 : Table.TableImpl) (a : Q) (i : Z),
        increasing args -> len vals = len args ->
        Table.new args vals (len args) Table.nearest = Ok t0 ->
        1 <= i <= len args - 1 ->
        (a - elt args (i - 1) == elt args i - a)%Q ->
        exists v, fst (Table.Table_lookup a t0) = Ok v
                  /\ (v == elt vals (i - 1))%Q).
Proof.
  intros H.
  destruct (H [0; 2]%Q [10; 20]%Q
              (Table.mkImpl Table.nearest
                 (ArgVec.mk [0; 2]%Q 2 (2 # 1000000) (2 # 1000000) true (2 # 1) 1)
                 [10; 20]%Q 2 [] Table.nearestInterpolate_fn)
              1%Q 1) as (v & Hv & Heq).
  - simpl. repeat split; reflexivity.
  - reflexivity.
  - vm_compute. reflexivity.
  - vm_compute. split; discriminate.
  - vm_compute. reflexivity.
  - vm_compute in Hv. injection Hv as <-. vm_compute in Heq. discriminate Heq.
Qed.

(** C4, as the code has it.  In nearest mode a query at the same distance
    from the two nodes [args[i-1]] and [args[i]] of its bracket is
    answered with the value of the upper node [i]: for a 1D table, and
    along each axis of a 2D table (both axes tied: the node [(i, j)];
    one axis tied: a node of row [i], or of column [j]). *)
Theorem nearest_tie :
  (forall (args vals : list Q) (t0 : Table.TableImpl) (qs : list Q) (a : Q) (i : Z),
      increasing args -> len vals = len args ->
      Table.new args vals (len args) Table.nearest = Ok t0 ->
      1 <= i <= len args - 1 ->
      (a - elt args (i - 1) == elt args i - a)%Q ->
      fst (Table.Table_lookup a (Table_after qs t0)) = Ok (elt vals i))
  /\ (forall (xargs yargs vals dfdx dfdy d2fdxdy : list Q)
             (ko : option InterpolantXY) (t0 : Table2D.Table2DImpl)
             (pts : list (Q * Q)) (x y : Q),
         increasing xargs -> increasing yargs ->
         len vals = len xargs * len yargs ->
         Table2D.makeImpl xargs yargs vals (len xargs) (len yargs)
           Table2D.nearest dfdx dfdy d2fdxdy ko = Ok t0 ->
         let r := fst (Table2D.lookup x y (Table2D_after pts t0)) in
         (forall i j,
             1 <= i <= len xargs - 1 -> 1 <= j <= len yargs - 1 ->
             (x - elt xargs (i - 1) == elt xargs i - x)%Q ->
             (y - elt yargs (j - 1) == elt yargs j - y)%Q ->
             r = Ok (elt vals (i * len yargs + j)))
         /\ (forall i,
                1 <= i <= len xargs - 1 ->
                (x - elt xargs (i - 1) == elt xargs i - x)%Q ->
                exists j, 0 <= j <= len yargs - 1
                          /\ r = Ok (elt vals (i * len yargs + j)))
         /\ (forall j,
                1 <= j <= len yargs - 1 ->
                (y - elt yargs (j - 1) == elt yargs j - y)%Q ->
                exists i, 0 <= i <= len xargs - 1
                          /\ r = Ok (elt vals (i * len yargs + j)))).
Proof.
  split.
  - intros args vals t0 qs a i Hincr Hlen Hnew Hi Htie.
    destruct (Table_new_spec args vals _ t0 Hincr Hlen Hnew)
      as (Hinv0 & Hvec0 & Hval0 & Hn0 & _ & Htwo).
    pose proof (Table_new_fn _ _ _ _ _ Hnew ltac:(discriminate)) as Hfn0.
    destruct (Table_after_rehint qs t0 Hinv0) as (li & Hli & ->).
    pose proof (rehint_inv t0 li Hinv0 Hli) as Hinv.
    pose proof Hinv0 as [Ha0 Hnt0 Hv0 _]. pose proof Hinv as [Ha _ _ _].
    destruct (tie_strictly_inside args a i Hincr Hi Htie) as [Hlo Hhi].
    pose proof (upperIndex_strictly_inside _ a i Ha) as Ei.
    cbn in Ei. rewrite Hvec0, <- Hnt0, Hn0 in Ei.
    specialize (Ei Hi (conj Hlo Hhi)).
    destruct (lookup_spec (rehint li t0) a Hinv) as (i' & li' & E & _ & _ & El).
    cbn in E. rewrite E in Ei. cbn [fst] in Ei. injection Ei as ->.
    unfold Table.Table_lookup. rewrite El. cbn [fst]. rewrite call_rehint.
    unfold Table.call. rewrite Hfn0.
    unfold Table.nearestInterpolate, ArgVec.at_. rewrite Hvec0, Hval0.
    rewrite !get_ok by lia. cbn [bind].
    destruct (Qlt_le_dec (a - elt args (i - 1)) (elt args i - a)) as [Hc|_]; [lra|].
    apply get_ok. lia.
  - intros xargs yargs vals dfdx dfdy d2fdxdy ko t0 pts x y Hix Hiy Hlen Hmk r.
    destruct (makeImpl_spec _ _ _ _ _ _ _ _ _ Hix Hiy Hlen Hmk)
      as (Hinv0 & Hxv0 & Hyv0 & Hval0 & Hny0 & Hx2 & Hy2 & _ & Hself0).
    destruct (Table2D_after_rehint pts t0 Hinv0) as (lx & ly & Hlx & Hly & Ht).
    set (t := Table2D_after pts t0) in *.
    assert (Hinv : Table2D_inv t) by (rewrite Ht; now apply rehint2_inv).
    assert (Hxv : ArgVec._vec (Table2D._xargs t) = xargs) by (rewrite Ht; exact Hxv0).
    assert (Hyv : ArgVec._vec (Table2D._yargs t) = yargs) by (rewrite Ht; exact Hyv0).
    assert (Hval : Table2D._vals t = vals) by (rewrite Ht; exact Hval0).
    assert (Hny : Table2D._ny t = len yargs) by (rewrite Ht; exact Hny0).
    assert (Hself : Table2D.self t = Table2D.T2DNearest).
    { rewrite Ht. cbn.
      apply (Hself0 ltac:(discriminate) (mkInterpolantXY false 0 (fun _ _ => 0%Q))). }
    clearbody t. clear Ht.
    pose proof Hinv as [Hxa Hya _ _ _].
    pose proof Hxa as [Hxn _ _ _ _]. pose proof Hya as [Hyn _ _ _ _].
    rewrite Hxv in Hxn. rewrite Hyv in Hyn.
    destruct (lookup2_spec t x y Hinv)
      as (i0 & j0 & lx' & ly' & Ei & Ej & Hi0 & Hj0 & _ & _ & E & _).
    destruct (Nearest_interp_spec t x y i0 j0 Hinv Hi0 Hj0)
      as (i' & j' & Hi' & Hj' & Hr).
    rewrite Hxv in Hi'. rewrite Hyv in Hj'. rewrite Hval, Hny in Hr.
    assert (Er : r = Ok (elt vals (i' * len yargs + j'))).
    { subst r. rewrite E. cbn [fst]. unfold Table2D.interp.
      rewrite Hself. exact Hr. }
    assert (Hxtie : forall i, 1 <= i <= len xargs - 1 ->
                              (x - elt xargs (i - 1) == elt xargs i - x)%Q -> i' = i).
    { intros i Hi Htie.
      destruct (tie_strictly_inside xargs x i Hix Hi Htie) as [Hlo Hhi].
      pose proof (upperIndex_strictly_inside _ x i Hxa) as Ei'.
      rewrite Hxv, Hxn in Ei'. specialize (Ei' Hi (conj Hlo Hhi)).
      assert (i0 = i) as -> by congruence.
      destruct Hi' as [Hi'|[_ Hc]]; [exact Hi'|lra]. }
    assert (Hytie : forall j, 1 <= j <= len yargs - 1 ->
                              (y - elt yargs (j - 1) == elt yargs j - y)%Q -> j' = j).
    { intros j Hj Htie.
      destruct (tie_strictly_inside yargs y j Hiy Hj Htie) as [Hlo Hhi].
      pose proof (upperIndex_strictly_inside _ y j Hya) as Ej'.
      rewrite Hyv, Hyn in Ej'. specialize (Ej' Hj (conj Hlo Hhi)).
      assert (j0 = j) as -> by congruence.
      destruct Hj' as [Hj'|[_ Hc]]; [exact Hj'|lra]. }
    clearbody r. split; [|split].
    + intros i j Hi Hj Hxt Hyt.
      rewrite <- (Hxtie i Hi Hxt), <- (Hytie j Hj Hyt). exact Er.
    + intros i Hi Hxt. exists j'. rewrite <- (Hxtie i Hi Hxt).
      split; [|exact Er]. destruct Hj' as [->|[-> _]]; lia.
    + intros j Hj Hyt. exists i'. rewrite <- (Hytie j Hj Hyt).
      split; [|exact Er]. destruct Hi' as [->|[-> _]]; lia.
Qed.

Lemma nearest_tie_witness :
  fst (Table.Table_lookup 1
         (Table_after [(1 # 2)%Q]
            (Table.mkImpl Table.nearest
               (ArgVec.mk [0; 2]%Q 2 (2 # 1000000) (2 # 1000000) true (2 # 1) 1)
               [10; 20]%Q 2 [] Table.nearestInterpolate_fn)))
  = Ok (elt [10; 20]%Q 1)
  /\ fst (Table2D.lookup 1 1
            (Table2D_after []
               (Table2D.mkImpl
                  (ArgVec.mk [0; 2]%Q 2 (2 # 1000000) (2 # 1000000) true (2 # 1) 1)
                  (ArgVec.mk [0; 2]%Q 2 (2 # 1000000) (2 # 1000000) true (2 # 1) 1)
                  [1; 2; 3; 4]%Q 2 Table2D.T2DNearest)))
     = Ok (elt [1; 2; 3; 4]%Q (1 * len [0; 2]%Q + 1)).
Proof.
  split.
  - apply (proj1 nearest_tie [0; 2]%Q [10; 20]%Q _ [(1 # 2)%Q] 1%Q 1).
    + simpl. repeat split; reflexivity.
    + reflexivity.
    + vm_compute. reflexivity.
    + vm_compute. split; discriminate.
    + vm_compute. reflexivity.
  - refine (proj1 (proj2 nearest_tie [0; 2]%Q [0; 2]%Q [1; 2; 3; 4]%Q
                     [] [] [] None _ [] 1%Q 1%Q _ _ _ _) 1 1 _ _ _ _).
    + simpl. repeat split; reflexivity.
    + simpl. repeat split; reflexivity.
    + reflexivity.
    + vm_compute. reflexivity.
    + vm_compute. split; discriminate.
    + vm_compute. split; discriminate.
    + vm_compute. reflexivity.
    + vm_compute. reflexivity.
Defined.

(** * Further properties of the code *)

(** ** ArgVec: the equal-spacing flag *)

Lemma equalSpaced_loop_true (vec : list Q) (da : Q) (k : nat) :
  forall (i : Z) (es es' : bool),
    0 <= i -> i + Z.of_nat k <= len vec ->
    ArgVec.equalSpaced_loop k i vec da es = Ok es' ->
    (es' = true <->
     es = true
     /\ forall j, i <= j < i + Z.of_nat k ->
                  (Qabs ((elt vec j - elt vec 0) / da - inject_Z j)
                   <= ArgVec.tolerance)%Q).
Proof.
  induction k as [|k IH]; intros i es es' Hi Hk Hloop.
  - cbn in Hloop. injection Hloop as <-. split; [intros ->|tauto].
    split; [reflexivity|]. intros j Hj. lia.
  - cbn [ArgVec.equalSpaced_loop] in Hloop.
    rewrite !get_ok in Hloop by lia. cbn [bind] in Hloop.
    apply IH in Hloop; [|lia..].
    destruct (Qlt_le_dec ArgVec.tolerance
                (Qabs ((elt vec i - elt vec 0) / da - inject_Z i))) as [Hbad|Hgood].
    + split.
      * intros E. apply Hloop in E as [E _]. discriminate E.
      * intros [_ Hall]. specialize (Hall i ltac:(lia)). lra.
    + rewrite Hloop. split.
      * intros [-> Hall]. split; [reflexivity|]. intros j Hj.
        destruct (Z.eq_dec j i) as [->|Hne]; [exact Hgood|apply Hall; lia].
      * intros [-> Hall]. split; [reflexivity|]. intros j Hj. apply Hall. lia.
Qed.

(** The value of [_da] and the meaning of the flag. *)
Lemma ArgVec_new_flag (vec : list Q) (av : ArgVec.t) :
  ArgVec.new vec (len vec) = Ok av ->
  (ArgVec._da av
   = (elt vec (len vec - 1) - elt vec 0) / inject_Z (len vec - 1))%Q
  /\ (ArgVec._equalSpaced av = true <->
      forall j, 1 <= j <= len vec - 1 ->
                (Qabs ((elt vec j - elt vec 0) / ArgVec._da av - inject_Z j)
                 <= 1 # 100)%Q).
Proof.
  intros Hnew. pose proof (ArgVec_new_two _ _ _ Hnew) as Htwo.
  unfold ArgVec.new in Hnew. rewrite !get_ok in Hnew by lia.
  cbn [bind] in Hnew.
  apply bind_Ok in Hnew as (es & Hes & Hnew).
  rewrite ?get_ok in Hnew by lia. cbn [bind] in Hnew.
  injection Hnew as <-. cbn [ArgVec._da ArgVec._equalSpaced].
  split; [reflexivity|].
  apply equalSpaced_loop_true in Hes; [|lia..].
  rewrite Hes. split.
  - intros [_ Hall] j Hj. apply Hall. lia.
  - intros Hall. split; [reflexivity|]. intros j Hj. apply Hall. lia.
Qed.

(** ** ArgVec: exactly equally spaced arrays *)

Lemma increasing_of_steps (v : list Q) :
  (forall i : nat, (S i < length v)%nat -> (nth i v 0 < nth (S i) v 0)%Q) ->
  increasing v.
Proof.
  induction v as [|x v IH]; intros Hstep; [exact I|].
  destruct v as [|y v]; [exact I|].
  split.
  - apply (Hstep 0%nat). simpl. lia.
  - apply IH. intros i Hi. apply (Hstep (S i)). simpl in *. lia.
Qed.

Lemma scan_up_stop (fuel : nat) (vec : list Q) (a : Q) (i : Z) :
  0 <= i < len vec -> (a <= elt vec i)%Q -> ArgVec.scan_up fuel vec a i = Ok i.
Proof.
  intros Hi Ha. destruct fuel; cbn [ArgVec.scan_up];
    rewrite get_ok by lia; cbn [bind];
    (destruct (Qlt_le_dec (elt vec i) a); [lra|reflexivity]).
Qed.

Lemma scan_down_stop (fuel : nat) (vec : list Q) (a : Q) (i : Z) :
  1 <= i <= len vec -> (elt vec (i - 1) <= a)%Q -> ArgVec.scan_down fuel vec a i = Ok i.
Proof.
  intros Hi Ha. destruct fuel; cbn [ArgVec.scan_down];
    rewrite get_ok by lia; cbn [bind];
    (destruct (Qlt_le_dec a (elt vec (i - 1))); [lra|reflexivity]).
Qed.

(** On the equal-spaced branch, and outside the domain, the object is
    left as it was. *)
Lemma equalSpaced_keeps_state (av : ArgVec.t) (b : Q) :
  ArgVec._equalSpaced av = true -> snd (ArgVec.upperIndex b av) = av.
Proof.
  intros Hes. destruct av as [v n ls us es da li0]. cbn in Hes. subst es.
  unfold ArgVec.upperIndex, mbind, ArgVec.front, ArgVec.back, reads, mret,
    ArgVec.upperIndex_equalSpaced.
  av_norm.
  destruct (get v 0) as [f|e]; [|reflexivity].
  destruct (Qlt_le_dec b f); [reflexivity|]. av_norm.
  destruct (get v (n - 1)) as [bk|e]; [|reflexivity].
  destruct (Qlt_le_dec bk b); reflexivity.
Qed.

(** X2.  Under exact arithmetic, on an exactly equally spaced array,
    [vec[j] = x0 + j*d] with [d > 0], the constructor sets the flag, and
    every query inside the domain is answered by the arithmetic alone: the
    index is [max (1, ceil ((a - x0) / d))], no stepping is needed and the
    cached index is never touched.  (With rounded quotients the first
    guess of the code may be the neighbouring index at a node.) *)
Theorem equalSpaced_index (vec : list Q) (x0 d : Q) (av0 : ArgVec.t)
        (qs : list Q) (a : Q) :
  2 <= len vec -> (0 < d)%Q ->
  (forall j, 0 <= j <= len vec - 1 -> (elt vec j == x0 + inject_Z j * d)%Q) ->
  ArgVec.new vec (len vec) = Ok av0 ->
  (elt vec 0 <= a <= elt vec (len vec - 1))%Q ->
  ArgVec._equalSpaced av0 = true
  /\ calls qs av0 = av0
  /\ ArgVec.upperIndex a av0 = (Ok (Z.max 1 (Qceiling ((a - x0) / d))), av0).
Proof.
  intros Htwo Hd Hvec Hnew [Hlo Hhi].
  assert (Hincr : increasing vec).
  { apply increasing_of_steps. intros i Hi.
    pose proof (Hvec (Z.of_nat i) ltac:(unfold len; lia)) as H1.
    pose proof (Hvec (Z.of_nat (S i)) ltac:(unfold len; lia)) as H2.
    unfold elt in H1, H2. rewrite Nat2Z.id in H1, H2. rewrite H1, H2.
    rewrite Nat2Z.inj_succ. unfold Z.succ. rewrite inject_Z_plus.
    change (inject_Z 1) with 1%Q. nra. }
  destruct (ArgVec_new_ok vec Hincr Htwo) as (av & Hav & Hinv & Hv & Hn & Hli).
  assert (av = av0) as -> by congruence. clear Hav.
  pose proof (ArgVec_new_flag vec av0 Hnew) as [Hda Hflag].
  assert (H0 : (elt vec 0 == x0)%Q).
  { rewrite (Hvec 0) by lia. change (inject_Z 0) with 0%Q. ring. }
  assert (Hn1 : (0 < inject_Z (len vec - 1))%Q).
  { change 0%Q with (inject_Z 0). rewrite <- Zlt_Qlt. lia. }
  assert (Hdaq : (ArgVec._da av0 == d)%Q).
  { rewrite Hda, (Hvec (len vec - 1)), H0 by lia. field. lra. }
  assert (Hes : ArgVec._equalSpaced av0 = true).
  { apply Hflag. intros j Hj. rewrite Hdaq, (Hvec j), H0 by lia.
    assert ((x0 + inject_Z j * d - x0) / d - inject_Z j == 0)%Q as ->
      by (field; lra).
    discriminate. }
  assert (Hcalls : calls qs av0 = av0).
  { clear - Hes. induction qs as [|q qs IH]; [reflexivity|].
    unfold calls in *. cbn [fold_left].
    rewrite (equalSpaced_keeps_state av0 q Hes). exact IH. }
  split; [exact Hes|]. split; [exact Hcalls|].
  set (q := ((a - x0) / d)%Q).
  assert (Hq0 : (0 <= q)%Q) by (apply Qle_shift_div_l; lra).
  assert (Hqd : (q * d == a - x0)%Q) by (unfold q; field; lra).
  assert (Hq1 : (q <= inject_Z (len vec - 1))%Q).
  { apply Qle_shift_div_r; [lra|]. rewrite (Hvec (len vec - 1)) in Hhi by lia. lra. }
  pose proof (Qle_ceiling q) as Hc1. pose proof (Qceiling_lt q) as Hc2.
  assert (Hrange : 0 <= Qceiling q <= len vec - 1).
  { apply Qceiling_resp_le in Hq0, Hq1. rewrite Qceiling_Z in Hq1.
    change (Qceiling 0) with 0 in Hq0. lia. }
  destruct av0 as [v n ls us es da li0].
  cbn [ArgVec._vec ArgVec._n ArgVec._equalSpaced ArgVec._da] in *. subst v n es.
  unfold ArgVec.upperIndex, mbind, ArgVec.front, ArgVec.back, reads, mret.
  cbn [ArgVec._vec ArgVec._n ArgVec._equalSpaced].
  rewrite get_ok by lia.
  destruct (Qlt_le_dec a (elt vec 0)) as [|_]; [lra|]. av_norm.
  rewrite get_ok by lia.
  destruct (Qlt_le_dec (elt vec (len vec - 1)) a) as [|_]; [lra|]. av_norm.
  unfold ArgVec.upperIndex_equalSpaced, ArgVec.front.
  av_norm. rewrite get_ok by lia. av_norm.
  assert (Qceiling ((a - elt vec 0) / da) = Qceiling q) as ->.
  { apply Qceiling_comp. unfold q. rewrite H0, Hdaq. reflexivity. }
  unfold ArgVec.settle. cbn [ArgVec._vec ArgVec._n].
  destruct (Z.leb_spec (len vec) (Qceiling q)) as [|_]; [lia|].
  assert ((if Qceiling q =? 0 then Qceiling q + 1 else Qceiling q)
          = Z.max 1 (Qceiling q)) as ->
    by (destruct (Z.eqb_spec (Qceiling q) 0); lia).
  set (i := Z.max 1 (Qceiling q)).
  assert (1 <= i <= len vec - 1) as Hi by (subst i; lia).
  assert (Hup : (a <= elt vec i)%Q).
  { rewrite (Hvec i) by lia.
    assert (inject_Z (Qceiling q) <= inject_Z i)%Q
      by (rewrite <- Zle_Qle; subst i; lia).
    nra. }
  assert (Hdown : (elt vec (i - 1) <= a)%Q).
  { rewrite (Hvec (i - 1)) by lia.
    destruct (Z.eq_dec (Qceiling q) 0) as [Ez|Hnz].
    - assert (i = 1) as -> by (subst i; lia). change (inject_Z (1 - 1)) with 0%Q.
      lra.
    - assert (i = Qceiling q) as -> by (subst i; lia). nra. }
  rewrite scan_up_stop by (try lia; exact Hup). cbn [bind].
  rewrite scan_down_stop by (try lia; exact Hdown). reflexivity.
Qed.

Lemma equalSpaced_index_witness :
  ArgVec._equalSpaced
    (ArgVec.mk [0; 1; 2; 3]%Q 4 (1 # 1000000) (1 # 1000000) true (3 # 3) 1) = true
  /\ calls [(1 # 2)%Q; (5 # 2)%Q]
       (ArgVec.mk [0; 1; 2; 3]%Q 4 (1 # 1000000) (1 # 1000000) true (3 # 3) 1)
     = ArgVec.mk [0; 1; 2; 3]%Q 4 (1 # 1000000) (1 # 1000000) true (3 # 3) 1
  /\ ArgVec.upperIndex (5 # 2)
       (ArgVec.mk [0; 1; 2; 3]%Q 4 (1 # 1000000) (1 # 1000000) true (3 # 3) 1)
     = (Ok (Z.max 1 (Qceiling (((5 # 2) - 0) / 1))),
        ArgVec.mk [0; 1; 2; 3]%Q 4 (1 # 1000000) (1 # 1000000) true (3 # 3) 1).
Proof.
  apply (equalSpaced_index [0; 1; 2; 3]%Q 0 1).
  - vm_compute. discriminate.
  - reflexivity.
  - intros j Hj.
    assert (j = 0 \/ j = 1 \/ j = 2 \/ j = 3) as [-> | [-> | [-> | ->]]]
      by (change (len [0; 1; 2; 3]%Q) with 4 in Hj; lia); reflexivity.
  - vm_compute. reflexivity.
  - vm_compute. split; discriminate.
Defined.

(** ** ArgVec: the cached index *)

(** The search branch, inside the domain: the index returned is the one
    left in the cache. *)
Lemma upperIndex_search_spec (av : ArgVec.t) (a : Q) :
  ArgVec_inv av -> ArgVec._equalSpaced av = false ->
  (elt (ArgVec._vec av) 0 <= a <= elt (ArgVec._vec av) (ArgVec._n av - 1))%Q ->
  exists i,
    ArgVec.upperIndex a av = (Ok i, ArgVec.set_lastIndex i av)
    /\ 1 <= i <= ArgVec._n av - 1
    /\ (elt (ArgVec._vec av) (i - 1) <= a <= elt (ArgVec._vec av) i)%Q.
Proof.
  intros Hav Hes [Hlo Hhi]. pose proof Hav as [Hn Htwo Hincr Hda Hlast].
  destruct av as [vec n ls us es da li].
  cbn [ArgVec._vec ArgVec._n ArgVec._da ArgVec._lastIndex ArgVec._equalSpaced] in *.
  subst es.
  unfold ArgVec.upperIndex, mbind, ArgVec.front, ArgVec.back, reads, mret.
  av_norm. rewrite get_ok by lia.
  destruct (Qlt_le_dec a (elt vec 0)) as [|_]; [lra|]. av_norm.
  rewrite get_ok by lia.
  destruct (Qlt_le_dec (elt vec (n - 1)) a) as [|_]; [lra|]. av_norm.
  unfold ArgVec.upperIndex_search, mbind, reads, modify, mret, ArgVec.at_.
  av_norm. rewrite get_ok by lia.
  destruct (Qlt_le_dec a (elt vec (li - 1))) as [Hlow|Hnlow]; av_norm.
  - assert (li <> 1)
      by (intros E; rewrite E in Hlow; change (1 - 1) with 0 in Hlow; lra).
    rewrite get_ok by lia.
    destruct (Qle_lt_dec (elt vec (li - 2)) a) as [Hprev|Hnprev]; av_norm.
    + exists (li - 1). split; [reflexivity|]. split; [lia|].
      replace (li - 1 - 1) with (li - 2) by lia. split; [exact Hprev|lra].
    + unfold upper_bound.
      destruct (upper_bound_loop_spec vec a (Z.to_nat (li - 1 - 0)) 0 (li - 1 - 0))
        as (p & -> & Hp & Hleft & Hright); [lia..|].
      assert (p <> 0) by (intros ->; specialize (Hright ltac:(lia)); lra).
      assert (p <> li - 1).
      { intros ->. specialize (Hleft ltac:(lia)).
        replace (li - 1 - 1) with (li - 2) in Hleft by lia. lra. }
      exists p. split; [reflexivity|]. split; [lia|]. split.
      * apply Hleft; lia.
      * apply Qlt_le_weak, Hright; lia.
  - rewrite get_ok by lia.
    destruct (Qlt_le_dec (elt vec li) a) as [Hup|Hnup]; av_norm.
    + assert (li <> n - 1) by (intros E; rewrite E in Hup; lra).
      rewrite get_ok by lia.
      destruct (Qle_lt_dec a (elt vec (li + 1))) as [Hnext|Hnnext]; av_norm.
      * exists (li + 1). split; [reflexivity|]. split; [lia|].
        replace (li + 1 - 1) with li by lia. split; [lra|exact Hnext].
      * unfold lower_bound.
        destruct (lower_bound_loop_spec vec a (Z.to_nat (n - (li + 1)))
                    (li + 1) (n - (li + 1)))
          as (p & -> & Hp & Hleft & Hright); [lia..|].
        assert (p <> li + 1) by (intros ->; specialize (Hright ltac:(lia)); lra).
        assert (p <> n).
        { intros ->. specialize (Hleft ltac:(lia)). lra. }
        exists p. split; [reflexivity|]. split; [lia|]. split.
        -- apply Qlt_le_weak, Hleft; lia.
        -- apply Hright; lia.
    + exists li. split; [reflexivity|]. split; [lia|]. split; assumption.
Qed.

(** A query whose bracket is the cached one is answered from the cache,
    which stays as it is. *)
Lemma upperIndex_hit (av : ArgVec.t) (a : Q) :
  ArgVec_inv av -> ArgVec._equalSpaced av = false ->
  (elt (ArgVec._vec av) (ArgVec._lastIndex av - 1) <= a
   <= elt (ArgVec._vec av) (ArgVec._lastIndex av))%Q ->
  ArgVec.upperIndex a av = (Ok (ArgVec._lastIndex av), av).
Proof.
  intros Hav Hes [Hlo Hhi]. pose proof Hav as [Hn Htwo Hincr Hda Hlast].
  destruct av as [vec n ls us es da li].
  cbn [ArgVec._vec ArgVec._n ArgVec._da ArgVec._lastIndex ArgVec._equalSpaced] in *.
  subst es.
  assert (elt vec 0 <= elt vec (li - 1))%Q
    by (apply increasing_elt_le; [assumption|lia..]).
  assert (elt vec li <= elt vec (n - 1))%Q
    by (apply increasing_elt_le; [assumption|lia..]).
  unfold ArgVec.upperIndex, mbind, ArgVec.front, ArgVec.back, reads, mret.
  av_norm. rewrite get_ok by lia.
  destruct (Qlt_le_dec a (elt vec 0)) as [|_]; [lra|]. av_norm.
  rewrite get_ok by lia.
  destruct (Qlt_le_dec (elt vec (n - 1)) a) as [|_]; [lra|]. av_norm.
  unfold ArgVec.upperIndex_search, mbind, reads, modify, mret, ArgVec.at_.
  av_norm. rewrite get_ok by lia.
  destruct (Qlt_le_dec a (elt vec (li - 1))) as [|_]; [lra|]. av_norm.
  rewrite get_ok by lia.
  destruct (Qlt_le_dec (elt vec li) a) as [|_]; [lra|]. reflexivity.
Qed.

(** X3.  Asking the same query twice in a row gives the same answer and
    leaves the object as the first call left it, whatever was asked before;
    and on an array that is not flagged as equally spaced, a query inside
    the domain leaves its own answer in the cached index. *)
Theorem upperIndex_repeat (vec : list Q) (av0 : ArgVec.t) (qs : list Q) (a : Q) :
  increasing vec -> 2 <= len vec ->
  ArgVec.new vec (len vec) = Ok av0 ->
  let s := calls qs av0 in
  ArgVec.upperIndex a (snd (ArgVec.upperIndex a s)) = ArgVec.upperIndex a s
  /\ (ArgVec._equalSpaced av0 = false ->
      (elt vec 0 <= a <= elt vec (len vec - 1))%Q ->
      fst (ArgVec.upperIndex a s)
      = Ok (ArgVec._lastIndex (snd (ArgVec.upperIndex a s)))).
Proof.
  intros Hincr Htwo Hnew s.
  destruct (ArgVec_new_ok vec Hincr Htwo) as (av & Hav & Hinv0 & Hv0 & Hn0 & _).
  assert (av = av0) as -> by congruence. clear Hav.
  destruct (calls_inv qs av0 Hinv0) as (Hinv & Hv & Hn).
  fold s in Hinv, Hv, Hn.
  assert (Hflag : ArgVec._equalSpaced s = ArgVec._equalSpaced av0).
  { subst s. clear - Hinv0. revert av0 Hinv0.
    induction qs as [|q qs IH]; intros av0 Hinv0; [reflexivity|].
    destruct (upperIndex_total av0 q Hinv0) as (i & li & E & Hli & _).
    unfold calls in *. cbn [fold_left]. rewrite E. cbn [snd].
    rewrite IH by (apply set_lastIndex_inv; assumption). reflexivity. }
  rewrite Hv0 in Hv. rewrite Hn0 in Hn. clearbody s.
  assert (Hsearch : ArgVec._equalSpaced s = false ->
                    (elt vec 0 <= a <= elt vec (len vec - 1))%Q ->
                    exists i, ArgVec.upperIndex a s = (Ok i, ArgVec.set_lastIndex i s)
                              /\ ArgVec.upperIndex a (ArgVec.set_lastIndex i s)
                                 = (Ok i, ArgVec.set_lastIndex i s)).
  { intros Hes Ha.
    destruct (upperIndex_search_spec s a Hinv Hes) as (i & E & Hi & Hb).
    { now rewrite Hv, Hn. }
    exists i. split; [exact E|].
    apply (upperIndex_hit (ArgVec.set_lastIndex i s) a).
    - apply set_lastIndex_inv; assumption.
    - exact Hes.
    - exact Hb. }
  split.
  - destruct (ArgVec._equalSpaced s) eqn:Hes.
    + rewrite (equalSpaced_keeps_state s a Hes). reflexivity.
    + destruct (Qlt_le_dec a (elt vec 0)) as [Hlo|Hlo].
      { rewrite (upperIndex_below s a Hinv) by (now rewrite Hv). cbn [snd].
        apply upperIndex_below; [assumption|now rewrite Hv]. }
      destruct (Qlt_le_dec (elt vec (len vec - 1)) a) as [Hhi|Hhi].
      { rewrite (upperIndex_above s a Hinv) by (now rewrite Hv, Hn). cbn [snd].
        apply upperIndex_above; [assumption|now rewrite Hv, Hn]. }
      destruct (Hsearch eq_refl (conj Hlo Hhi)) as (i & E1 & E2).
      rewrite E1. cbn [snd]. exact E2.
  - intros Hes Ha. rewrite <- Hflag in Hes.
    destruct (Hsearch Hes Ha) as (i & E1 & _). rewrite E1. reflexivity.
Qed.

Lemma upperIndex_repeat_witness :
  let s := calls [(1 # 2)%Q]
             (ArgVec.mk [0; 1; 3; 4]%Q 4 (1 # 1000000) (1 # 1000000) false (4 # 3) 1) in
  ArgVec.upperIndex (7 # 2) (snd (ArgVec.upperIndex (7 # 2) s))
  = ArgVec.upperIndex (7 # 2) s
  /\ (ArgVec._equalSpaced
        (ArgVec.mk [0; 1; 3; 4]%Q 4 (1 # 1000000) (1 # 1000000) false (4 # 3) 1)
      = false ->
      (elt [0; 1; 3; 4]%Q 0 <= 7 # 2 <= elt [0; 1; 3; 4]%Q (len [0; 1; 3; 4]%Q - 1))%Q ->
      fst (ArgVec.upperIndex (7 # 2) s)
      = Ok (ArgVec._lastIndex (snd (ArgVec.upperIndex (7 # 2) s)))).
Proof.
  apply (upperIndex_repeat [0; 1; 3; 4]%Q).
  - simpl. repeat split; reflexivity.
  - vm_compute. discriminate.
  - vm_compute. reflexivity.
Defined.

(** ** One-dimensional tables: what each mode returns *)

(** The bracket a lookup evaluates its formula at. *)
Lemma lookup_bracket (t : Table.TableImpl) (a : Q) :
  Table_inv t ->
  exists i,
    fst (Table.lookup a t) = Table.call t a i
    /\ 1 <= i <= Table._n t - 1
    /\ ((a < elt (ArgVec._vec (Table._args t)) 0)%Q /\ i = 1
        \/ (elt (ArgVec._vec (Table._args t)) (Table._n t - 1) < a)%Q
           /\ i = Table._n t - 1
        \/ (elt (ArgVec._vec (Table._args t)) (i - 1) <= a
            <= elt (ArgVec._vec (Table._args t)) i)%Q).
Proof.
  intros Ht. pose proof Ht as [Ha Hnt _ _]. pose proof Ha as [Hn Htwo _ _ _].
  destruct (lookup_spec t a Ht) as (i & li & E & _ & Hi & El).
  exists i. rewrite El. cbn [fst]. split; [reflexivity|]. split; [exact Hi|].
  destruct (Qlt_le_dec a (elt (ArgVec._vec (Table._args t)) 0)) as [Hlo|Hlo].
  { left. split; [exact Hlo|].
    rewrite (upperIndex_below _ a Ha Hlo) in E. now injection E as <-. }
  destruct (Qlt_le_dec (elt (ArgVec._vec (Table._args t)) (Table._n t - 1)) a)
    as [Hhi|Hhi].
  { right; left. split; [exact Hhi|]. rewrite Hnt in Hhi |- *.
    rewrite (upperIndex_above _ a Ha Hhi) in E. now injection E as <-. }
  right; right. rewrite Hnt in Hhi.
  destruct (upperIndex_inside _ a Ha (conj Hlo Hhi)) as (i' & li' & E' & _ & _ & Hb).
  rewrite E' in E. injection E as <- _. exact Hb.
Qed.

(** A table after its construction and any sequence of lookups. *)
Lemma Table_state (args vals : list Q) (m : Table.interpolant)
      (t0 : Table.TableImpl) (qs : list Q) :
  increasing args -> len vals = len args ->
  Table.new args vals (len args) m = Ok t0 ->
  Table_inv (Table_after qs t0)
  /\ ArgVec._vec (Table._args (Table_after qs t0)) = args
  /\ Table._vals (Table_after qs t0) = vals
  /\ Table._n (Table_after qs t0) = len args
  /\ Table.interpolate (Table_after qs t0) = Table.interpolate t0
  /\ Table._y2 (Table_after qs t0) = Table._y2 t0
  /\ 2 <= len args.
Proof.
  intros Hincr Hlen Hnew.
  destruct (Table_new_spec args vals m t0 Hincr Hlen Hnew)
    as (Hinv & Hvec & Hval & Hn & _ & Htwo).
  destruct (Table_after_rehint qs t0 Hinv) as (li & Hli & ->).
  split; [now apply rehint_inv|]. cbn. repeat split; assumption.
Qed.

(** X4.  In floor mode, for a query with [args[k] <= a < args[k+1]], the
    lookup returns [vals[k]], the value of the last node not above the
    query, whatever bracket the index search settled on. *)
Theorem floor_lookup (args vals : list Q) (t0 : Table.TableImpl)
        (qs : list Q) (a : Q) (k : Z) :
  increasing args -> len vals = len args ->
  Table.new args vals (len args) Table.floor = Ok t0 ->
  0 <= k <= len args - 2 ->
  (elt args k <= a < elt args (k + 1))%Q ->
  fst (Table.Table_lookup a (Table_after qs t0)) = Ok (elt vals k).
Proof.
  intros Hincr Hlen Hnew Hk [Hlo Hhi].
  pose proof (Table_new_fn _ _ _ _ _ Hnew ltac:(discriminate)) as Hfn.
  destruct (Table_state args vals _ t0 qs Hincr Hlen Hnew)
    as (Hinv & Hvec & Hval & Hn & Hfn' & _ & Htwo).
  set (t := Table_after qs t0) in *. clearbody t.
  destruct (lookup_bracket t a Hinv) as (i & E & Hi & Hb).
  rewrite Hvec, Hn in *. unfold Table.Table_lookup. rewrite E.
  assert (elt args 0 <= elt args k)%Q
    by (apply increasing_elt_le; [assumption|lia..]).
  assert (elt args (k + 1) <= elt args (len args - 1))%Q
    by (apply increasing_elt_le; [assumption|lia..]).
  destruct Hb as [[Hout _]|[[Hout _]|[Hb1 Hb2]]]; [lra|lra|].
  assert (i - 1 < k + 1).
  { destruct (Z_lt_dec (i - 1) (k + 1)) as [|Hge]; [assumption|].
    assert (elt args (k + 1) <= elt args (i - 1))%Q
      by (apply increasing_elt_le; [assumption|lia..]). lra. }
  assert (k <= i) by (apply (increasing_index_le args); try assumption; try lia; lra).
  unfold Table.call. rewrite Hfn', Hfn.
  unfold Table.floorInterpolate, ArgVec.at_. rewrite Hvec, Hval.
  rewrite get_ok by lia. cbn [bind].
  destruct (Qeq_dec a (elt args i)) as [Heq|Hne].
  - assert (i = k) as ->.
    { destruct (Z.eq_dec i k) as [|Hik]; [assumption|].
      assert (i = k + 1) as -> by lia. lra. }
    replace (k + 1 - 1) with k by lia. apply get_ok. lia.
  - assert (i = k + 1) as ->.
    { destruct (Z.eq_dec i (k + 1)) as [|Hik]; [assumption|].
      assert (i = k) as -> by lia. destruct Hne. lra. }
    replace (k + 1 - 1) with k by lia. apply get_ok. lia.
Qed.

Lemma floor_lookup_witness :
  fst (Table.Table_lookup (5 # 2)
         (Table_after [(1 # 2)%Q]
            (Table.mkImpl Table.floor
               (ArgVec.mk [0; 1; 3]%Q 3 (1 # 1000000) (2 # 1000000) false (3 # 2) 1)
               [10; 20; 30]%Q 3 [] Table.floorInterpolate_fn)))
  = Ok (elt [10; 20; 30]%Q 1).
Proof.
  apply (floor_lookup [0; 1; 3]%Q [10; 20; 30]%Q _ [(1 # 2)%Q] (5 # 2) 1).
  - simpl. repeat split; reflexivity.
  - reflexivity.
  - vm_compute. reflexivity.
  - vm_compute. split; discriminate.
  - vm_compute. split; [discriminate|reflexivity].
Defined.

(** X5.  In ceil mode, for a query with [args[k-1] < a <= args[k]], the
    lookup returns [vals[k]], the value of the first node not below the
    query. *)
Theorem ceil_lookup (args vals : list Q) (t0 : Table.TableImpl)
        (qs : list Q) (a : Q) (k : Z) :
  increasing args -> len vals = len args ->
  Table.new args vals (len args) Table.ceil = Ok t0 ->
  1 <= k <= len args - 1 ->
  (elt args (k - 1) < a <= elt args k)%Q ->
  fst (Table.Table_lookup a (Table_after qs t0)) = Ok (elt vals k).
Proof.
  intros Hincr Hlen Hnew Hk [Hlo Hhi].
  pose proof (Table_new_fn _ _ _ _ _ Hnew ltac:(discriminate)) as Hfn.
  destruct (Table_state args vals _ t0 qs Hincr Hlen Hnew)
    as (Hinv & Hvec & Hval & Hn & Hfn' & _ & Htwo).
  set (t := Table_after qs t0) in *. clearbody t.
  destruct (lookup_bracket t a Hinv) as (i & E & Hi & Hb).
  rewrite Hvec, Hn in *. unfold Table.Table_lookup. rewrite E.
  assert (elt args 0 <= elt args (k - 1))%Q
    by (apply increasing_elt_le; [assumption|lia..]).
  assert (elt args k <= elt args (len args - 1))%Q
    by (apply increasing_elt_le; [assumption|lia..]).
  destruct Hb as [[Hout _]|[[Hout _]|[Hb1 Hb2]]]; [lra|lra|].
  assert (k - 1 < i).
  { destruct (Z_lt_dec (k - 1) i) as [|Hge]; [assumption|].
    assert (elt args i <= elt args (k - 1))%Q
      by (apply increasing_elt_le; [assumption|lia..]). lra. }
  assert (i - 1 <= k)
    by (apply (increasing_index_le args); try assumption; try lia; lra).
  unfold Table.call. rewrite Hfn', Hfn.
  unfold Table.ceilInterpolate, ArgVec.at_. rewrite Hvec, Hval.
  rewrite get_ok by lia. cbn [bind].
  destruct (Qeq_dec a (elt args (i - 1))) as [Heq|Hne].
  - assert (i = k + 1) as ->.
    { destruct (Z.eq_dec i (k + 1)) as [|Hik]; [assumption|].
      assert (i = k) as -> by lia. lra. }
    replace (k + 1 - 1) with k by lia. apply get_ok. lia.
  - assert (i = k) as ->.
    { destruct (Z.eq_dec i k) as [|Hik]; [assumption|].
      assert (i = k + 1) as -> by lia.
      replace (k + 1 - 1) with k in Hne, Hb1 by lia. destruct Hne. lra. }
    apply get_ok. lia.
Qed.

Lemma ceil_lookup_witness :
  fst (Table.Table_lookup (5 # 2)
         (Table_after [(1 # 2)%Q]
            (Table.mkImpl Table.ceil
               (ArgVec.mk [0; 1; 3]%Q 3 (1 # 1000000) (2 # 1000000) false (3 # 2) 1)
               [10; 20; 30]%Q 3 [] Table.ceilInterpolate_fn)))
  = Ok (elt [10; 20; 30]%Q 2).
Proof.
  apply (ceil_lookup [0; 1; 3]%Q [10; 20; 30]%Q _ [(1 # 2)%Q] (5 # 2) 2).
  - simpl. repeat split; reflexivity.
  - reflexivity.
  - vm_compute. reflexivity.
  - vm_compute. split; discriminate.
  - vm_compute. split; [reflexivity|discriminate].
Defined.

(** X6.  Under exact arithmetic, in nearest mode every lookup, inside or
    outside the domain, returns the value of a node that no other node is
    closer to.  (The code compares the two rounded differences, which can
    give the other end of the bracket when they round to the same
    number.) *)
Theorem nearest_lookup (args vals : list Q) (t0 : Table.TableImpl)
        (qs : list Q) (a : Q) :
  increasing args -> len vals = len args ->
  Table.new args vals (len args) Table.nearest = Ok t0 ->
  exists k,
    0 <= k <= len args - 1
    /\ fst (Table.Table_lookup a (Table_after qs t0)) = Ok (elt vals k)
    /\ forall j, 0 <= j <= len args - 1 ->
                 (Qabs (a - elt args k) <= Qabs (a - elt args j))%Q.
Proof.
  intros Hincr Hlen Hnew.
  pose proof (Table_new_fn _ _ _ _ _ Hnew ltac:(discriminate)) as Hfn.
  destruct (Table_state args vals _ t0 qs Hincr Hlen Hnew)
    as (Hinv & Hvec & Hval & Hn & Hfn' & _ & Htwo).
  set (t := Table_after qs t0) in *. clearbody t.
  destruct (lookup_bracket t a Hinv) as (i & E & Hi & Hb).
  rewrite Hvec, Hn in *. unfold Table.Table_lookup. rewrite E.
  unfold Table.call. rewrite Hfn', Hfn.
  unfold Table.nearestInterpolate, ArgVec.at_. rewrite Hvec, Hval.
  rewrite !get_ok by lia. cbn [bind].
  assert (Hmono : forall p q, 0 <= p -> p <= q -> q <= len args - 1 ->
                              (elt args p <= elt args q)%Q).
  { intros p q Hp Hpq Hq. apply increasing_elt_le; [assumption|lia..]. }
  assert (Hstep : (elt args (i - 1) < elt args i)%Q)
    by (apply increasing_elt; [assumption|lia..]).
  (* distances to the nodes on either side of the bracket *)
  assert (Hleft : forall j, 0 <= j <= i - 1 -> (elt args (i - 1) <= a)%Q ->
                            (Qabs (a - elt args j) == a - elt args j)%Q).
  { intros j Hj Ha. apply Qabs_pos. pose proof (Hmono j (i - 1) ltac:(lia) ltac:(lia) ltac:(lia)). lra. }
  assert (Hright : forall j, i <= j <= len args - 1 -> (a <= elt args i)%Q ->
                             (Qabs (a - elt args j) == elt args j - a)%Q).
  { intros j Hj Ha. rewrite Qabs_neg; [ring|]. pose proof (Hmono i j ltac:(lia) ltac:(lia) ltac:(lia)). lra. }
  destruct (Qlt_le_dec (a - elt args (i - 1)) (elt args i - a)) as [Hnear|Hfar].
  - exists (i - 1). split; [lia|]. split; [apply get_ok; lia|].
    intros j Hj.
    destruct Hb as [[Hout ->]|[[Hout ->]|[Hb1 Hb2]]].
    + change (1 - 1) with 0 in *.
      rewrite !Qabs_neg; [|pose proof (Hmono 0 j ltac:(lia) ltac:(lia) ltac:(lia)); lra|lra].
      pose proof (Hmono 0 j ltac:(lia) ltac:(lia) ltac:(lia)). lra.
    + pose proof (Hmono (len args - 1 - 1) (len args - 1) ltac:(lia) ltac:(lia) ltac:(lia)). lra.
    + destruct (Z_le_dec j (i - 1)) as [Hle|Hgt].
      * rewrite (Hleft (i - 1)), (Hleft j) by (try lia; assumption).
        pose proof (Hmono j (i - 1) ltac:(lia) ltac:(lia) ltac:(lia)). lra.
      * rewrite (Hleft (i - 1)), (Hright j) by (try lia; assumption).
        pose proof (Hmono i j ltac:(lia) ltac:(lia) ltac:(lia)). lra.
  - exists i. split; [lia|]. split; [apply get_ok; lia|].
    intros j Hj.
    destruct Hb as [[Hout ->]|[[Hout ->]|[Hb1 Hb2]]].
    + change (1 - 1) with 0 in *. lra.
    + rewrite !Qabs_pos; [|pose proof (Hmono j (len args - 1) ltac:(lia) ltac:(lia) ltac:(lia)); lra|lra].
      pose proof (Hmono j (len args - 1) ltac:(lia) ltac:(lia) ltac:(lia)). lra.
    + destruct (Z_le_dec j (i - 1)) as [Hle|Hgt].
      * rewrite (Hright i), (Hleft j) by (try lia; assumption).
        pose proof (Hmono j (i - 1) ltac:(lia) ltac:(lia) ltac:(lia)). lra.
      * rewrite (Hright i), (Hright j) by (try lia; assumption).
        pose proof (Hmono i j ltac:(lia) ltac:(lia) ltac:(lia)). lra.
Qed.

Lemma nearest_lookup_witness :
  exists k,
    0 <= k <= len [0; 1; 3]%Q - 1
    /\ fst (Table.Table_lookup (9 # 4)
              (Table_after [(1 # 2)%Q]
                 (Table.mkImpl Table.nearest
                    (ArgVec.mk [0; 1; 3]%Q 3 (1 # 1000000) (2 # 1000000) false
                       (3 # 2) 1)
                    [10; 20; 30]%Q 3 [] Table.nearestInterpolate_fn)))
       = Ok (elt [10; 20; 30]%Q k)
    /\ forall j, 0 <= j <= len [0; 1; 3]%Q - 1 ->
                 (Qabs ((9 # 4) - elt [0; 1; 3]%Q k)
                  <= Qabs ((9 # 4) - elt [0; 1; 3]%Q j))%Q.
Proof.
  apply (nearest_lookup [0; 1; 3]%Q [10; 20; 30]%Q).
  - simpl. repeat split; reflexivity.
  - reflexivity.
  - vm_compute. reflexivity.
Defined.

(** X7.  Outside the domain the step modes answer from the end bracket:
    floor returns [vals[0]] below the first argument and [vals[n-2]] above
    the last one (not the value of the last node), ceil returns [vals[1]]
    below (not the value of the first node) and [vals[n-1]] above, nearest
    returns [vals[0]] below and [vals[n-1]] above. *)
Theorem step_modes_outside_domain
        (args vals : list Q) (m : Table.interpolant) (t0 : Table.TableImpl)
        (qs : list Q) (a : Q) :
  increasing args -> len vals = len args ->
  Table.new args vals (len args) m = Ok t0 ->
  (a < elt args 0)%Q \/ (elt args (len args - 1) < a)%Q ->
  let r := fst (Table.Table_lookup a (Table_after qs t0)) in
  let n := len args in
  (m = Table.floor ->
   ((a < elt args 0)%Q -> r = Ok (elt vals 0))
   /\ ((elt args (n - 1) < a)%Q -> r = Ok (elt vals (n - 2))))
  /\ (m = Table.ceil ->
      ((a < elt args 0)%Q -> r = Ok (elt vals 1))
      /\ ((elt args (n - 1) < a)%Q -> r = Ok (elt vals (n - 1))))
  /\ (m = Table.nearest ->
      ((a < elt args 0)%Q -> r = Ok (elt vals 0))
      /\ ((elt args (n - 1) < a)%Q -> r = Ok (elt vals (n - 1)))).
Proof.
  intros Hincr Hlen Hnew _ r n.
  destruct (Table_state args vals _ t0 qs Hincr Hlen Hnew)
    as (Hinv & Hvec & Hval & Hn & Hfn' & _ & Htwo).
  subst r n. set (t := Table_after qs t0) in *. clearbody t.
  destruct (lookup_bracket t a Hinv) as (i & E & Hi & Hb).
  rewrite Hvec, Hn in *. unfold Table.Table_lookup. rewrite E.
  assert (Hspan : (elt args 0 < elt args (len args - 1))%Q)
    by (apply increasing_elt; [assumption|lia..]).
  assert (H01 : (elt args 0 < elt args 1)%Q)
    by (apply increasing_elt; [assumption|lia..]).
  assert (Hn21 : (elt args (len args - 2) < elt args (len args - 1))%Q)
    by (apply increasing_elt; [assumption|lia..]).
  assert (Hlow : (a < elt args 0)%Q -> i = 1).
  { intros Ha. destruct Hb as [[_ ->]|[[Hc _]|[Hb1 Hb2]]]; [reflexivity|lra|].
    assert (elt args 0 <= elt args (i - 1))%Q
      by (apply increasing_elt_le; [assumption|lia..]). lra. }
  assert (Hhigh : (elt args (len args - 1) < a)%Q -> i = len args - 1).
  { intros Ha. destruct Hb as [[Hc _]|[[_ ->]|[Hb1 Hb2]]]; [lra|reflexivity|].
    assert (elt args i <= elt args (len args - 1))%Q
      by (apply increasing_elt_le; [assumption|lia..]). lra. }
  unfold Table.call. rewrite Hfn'.
  split; [|split]; intros ->;
    rewrite (Table_new_fn _ _ _ _ _ Hnew ltac:(discriminate));
    unfold Table.floorInterpolate, Table.ceilInterpolate,
      Table.nearestInterpolate, ArgVec.at_;
    rewrite Hvec, Hval; (split; intros Ha;
      [rewrite (Hlow Ha); change (1 - 1) with 0
      |rewrite (Hhigh Ha); replace (len args - 1 - 1) with (len args - 2) by lia]);
    rewrite ?get_ok by lia; cbn [bind].
  - destruct (Qeq_dec a (elt args 1)) as [Heq|_]; [lra|]. apply get_ok. lia.
  - destruct (Qeq_dec a (elt args (len args - 1))) as [Heq|_]; [lra|].
    replace (len args - 1 - 1) with (len args - 2) by lia. apply get_ok. lia.
  - destruct (Qeq_dec a (elt args 0)) as [Heq|_]; [lra|]. apply get_ok. lia.
  - destruct (Qeq_dec a (elt args (len args - 2))) as [Heq|_]; [lra|].
    apply get_ok. lia.
  - destruct (Qlt_le_dec (a - elt args 0) (elt args 1 - a)) as [_|Hc]; [|lra].
    apply get_ok. lia.
  - destruct (Qlt_le_dec (a - elt args (len args - 2)) (elt args (len args - 1) - a))
      as [Hc|_]; [lra|].
    apply get_ok. lia.
Qed.

Lemma step_modes_outside_domain_witness :
  let r := fst (Table.Table_lookup 7
                  (Table_after [(1 # 2)%Q]
                     (Table.mkImpl Table.floor
                        (ArgVec.mk [0; 1; 3]%Q 3 (1 # 1000000) (2 # 1000000) false
                           (3 # 2) 1)
                        [10; 20; 30]%Q 3 [] Table.floorInterpolate_fn))) in
  r = Ok (elt [10; 20; 30]%Q (len [0; 1; 3]%Q - 2)).
Proof.
  refine (proj2 (proj1 (step_modes_outside_domain [0; 1; 3]%Q [10; 20; 30]%Q
                          Table.floor _ [(1 # 2)%Q] 7 _ _ _ _) eq_refl) _).
  - simpl. repeat split; reflexivity.
  - reflexivity.
  - vm_compute. reflexivity.
  - right. vm_compute. reflexivity.
  - vm_compute. reflexivity.
Defined.

(** ** One-dimensional tables: values do not depend on the cache *)

(** At a query equal to node [k], from the bracket below or above the
    node, every formula returns the value of the node. *)
Lemma call_at_node_eq (t : Table.TableImpl) (a : Q) (k i : Z) :
  Table_inv t -> increasing (ArgVec._vec (Table._args t)) ->
  0 <= k <= Table._n t - 1 -> 1 <= i <= Table._n t - 1 ->
  i = k \/ i = k + 1 ->
  (a == elt (ArgVec._vec (Table._args t)) k)%Q ->
  exists v, Table.call t a i = Ok v /\ (v == elt (Table._vals t) k)%Q.
Proof.
  intros Ht Hincr Hk Hi Hik Ha.
  destruct (call_at_node t k i Ht Hincr Hk Hi Hik) as (v0 & Hv0 & Hv0eq).
  destruct (call_ok t a i Ht Hi) as (v & Hv). exists v. split; [exact Hv|].
  rewrite <- Hv0eq. clear Hv0eq.
  destruct Ht as [[Hn _ _ _ _] Hnt Hvl Hy].
  unfold Table.call in *.
  destruct (Table.interpolate t) eqn:Hfn;
    unfold Table.linearInterpolate, Table.floorInterpolate,
      Table.ceilInterpolate, Table.nearestInterpolate,
      Table.splineInterpolate, ArgVec.at_ in *;
    try specialize (Hy eq_refl);
    rewrite ?get_ok in Hv, Hv0 by lia; cbn [bind] in Hv, Hv0.
  - injection Hv as <-. injection Hv0 as <-. now rewrite Ha.
  - destruct (Qeq_dec a _) as [E1|E1], (Qeq_dec (elt _ k) _) as [E2|E2];
      try (rewrite Ha in E1; contradiction); congruence.
  - destruct (Qeq_dec a _) as [E1|E1], (Qeq_dec (elt _ k) _) as [E2|E2];
      try (rewrite Ha in E1; contradiction); congruence.
  - destruct (Qlt_le_dec (a - _) _) as [E1|E1],
             (Qlt_le_dec (elt _ k - _) _) as [E2|E2];
      try (rewrite Ha in E1; lra); congruence.
  - rewrite ?get_ok in Hv, Hv0 by lia.
    injection Hv as <-. injection Hv0 as <-. now rewrite Ha.
Qed.

(** Two brackets of one query are the same, or meet at a node equal to
    the query. *)
Lemma two_brackets (v : list Q) (a : Q) (i1 i2 : Z) :
  increasing v ->
  1 <= i1 <= len v - 1 -> 1 <= i2 <= len v - 1 ->
  (elt v (i1 - 1) <= a <= elt v i1)%Q ->
  (elt v (i2 - 1) <= a <= elt v i2)%Q ->
  i1 < i2 -> i2 = i1 + 1 /\ (a == elt v i1)%Q.
Proof.
  intros Hv H1 H2 [Hl1 Hh1] [Hl2 Hh2] Hlt.
  assert (elt v i1 <= elt v (i2 - 1))%Q
    by (apply increasing_elt_le; [assumption|lia..]).
  split; [|lra].
  assert (i2 - 1 <= i1)
    by (apply (increasing_index_le v); try assumption; try lia; lra).
  lia.
Qed.

(** X8.  Under exact arithmetic, the value a lookup returns does not
    depend on the lookups made before it: for every mode and every query,
    after any two histories the two results are equal as rationals.  (At a
    node linear and spline compute the same number through two different
    brackets; with rounding the two spline results may differ in the last
    bits.) *)
Theorem lookup_value_independent_of_history
        (args vals : list Q) (m : Table.interpolant) (t0 : Table.TableImpl)
        (qs qs' : list Q) (a : Q) :
  increasing args -> len vals = len args ->
  Table.new args vals (len args) m = Ok t0 ->
  exists v v',
    fst (Table.Table_lookup a (Table_after qs t0)) = Ok v
    /\ fst (Table.Table_lookup a (Table_after qs' t0)) = Ok v'
    /\ (v == v')%Q.
Proof.
  intros Hincr Hlen Hnew.
  destruct (Table_new_spec args vals m t0 Hincr Hlen Hnew)
    as (Hinv & Hvec & Hval & Hn & _ & Htwo).
  destruct (Table_after_rehint qs t0 Hinv) as (l1 & Hl1 & ->).
  destruct (Table_after_rehint qs' t0 Hinv) as (l2 & Hl2 & ->).
  destruct (lookup_bracket _ a (rehint_inv t0 l1 Hinv Hl1)) as (i1 & E1 & Hi1 & Hb1).
  destruct (lookup_bracket _ a (rehint_inv t0 l2 Hinv Hl2)) as (i2 & E2 & Hi2 & Hb2).
  cbn in Hi1, Hi2, Hb1, Hb2. rewrite Hvec, Hn in *.
  unfold Table.Table_lookup. rewrite E1, E2, !call_rehint.
  assert (Hspan : (elt args 0 < elt args (len args - 1))%Q)
    by (apply increasing_elt; [assumption|lia..]).
  assert (Hin : forall i, 1 <= i <= len args - 1 ->
                          (elt args (i - 1) <= a <= elt args i)%Q ->
                          (elt args 0 <= a <= elt args (len args - 1))%Q).
  { intros i Hi [Hlo Hhi]. split.
    - apply Qle_trans with (elt args (i - 1)); [|exact Hlo].
      apply increasing_elt_le; [assumption|lia..].
    - apply Qle_trans with (elt args i); [exact Hhi|].
      apply increasing_elt_le; [assumption|lia..]. }
  assert (Hsame : i1 = i2 ->
                  exists v v', Table.call t0 a i1 = Ok v
                               /\ Table.call t0 a i2 = Ok v' /\ (v == v')%Q).
  { intros <-. destruct (call_ok t0 a i1 Hinv) as (v & Hv); [lia|].
    exists v, v. split; [exact Hv|]. split; [exact Hv|reflexivity]. }
  assert (Hnode : forall j1 j2,
             1 <= j1 <= len args - 1 -> 1 <= j2 <= len args - 1 ->
             (elt args (j1 - 1) <= a <= elt args j1)%Q ->
             (elt args (j2 - 1) <= a <= elt args j2)%Q ->
             j1 < j2 ->
             exists v v', Table.call t0 a j1 = Ok v
                          /\ Table.call t0 a j2 = Ok v' /\ (v == v')%Q).
  { intros j1 j2 Hj1 Hj2 Hc1 Hc2 Hlt.
    destruct (two_brackets args a j1 j2 Hincr Hj1 Hj2 Hc1 Hc2 Hlt) as [-> Ha].
    destruct (call_at_node_eq t0 a j1 j1 Hinv) as (v & Hv & Hveq);
      try rewrite Hvec; try assumption; try lia.
    destruct (call_at_node_eq t0 a j1 (j1 + 1) Hinv) as (v' & Hv' & Hveq');
      try rewrite Hvec; try assumption; try lia.
    exists v, v'. split; [exact Hv|]. split; [exact Hv'|].
    now rewrite Hveq, Hveq'. }
  destruct Hb1 as [[Ho1 ->]|[[Ho1 ->]|Hc1]], Hb2 as [[Ho2 ->]|[[Ho2 ->]|Hc2]];
    try (apply Hsame; reflexivity);
    try (exfalso; lra);
    try (exfalso; pose proof (Hin _ Hi1 Hc1); lra);
    try (exfalso; pose proof (Hin _ Hi2 Hc2); lra).
  destruct (Z.lt_trichotomy i1 i2) as [Hlt|[Heq|Hgt]].
  - now apply Hnode.
  - now apply Hsame.
  - destruct (Hnode i2 i1 Hi2 Hi1 Hc2 Hc1 Hgt) as (v' & v & Hv' & Hv & Heq).
    exists v, v'. split; [exact Hv|]. split; [exact Hv'|]. now symmetry.
Qed.

Lemma lookup_value_independent_of_history_witness :
  exists v v',
    fst (Table.Table_lookup 1
           (Table_after []
              (Table.mkImpl Table.linear
                 (ArgVec.mk [0; 1; 3]%Q 3 (1 # 1000000) (2 # 1000000) false (3 # 2) 1)
                 [10; 20; 50]%Q 3 [] Table.linearInterpolate_fn)))
    = Ok v
    /\ fst (Table.Table_lookup 1
              (Table_after [2%Q]
                 (Table.mkImpl Table.linear
                    (ArgVec.mk [0; 1; 3]%Q 3 (1 # 1000000) (2 # 1000000) false
                       (3 # 2) 1)
                    [10; 20; 50]%Q 3 [] Table.linearInterpolate_fn)))
       = Ok v'
    /\ (v == v')%Q.
Proof.
  apply (lookup_value_independent_of_history [0; 1; 3]%Q [10; 20; 50]%Q Table.linear).
  - simpl. repeat split; reflexivity.
  - reflexivity.
  - vm_compute. reflexivity.
Defined.

(** ** One-dimensional tables: linear mode *)

(** X9.  Under exact arithmetic, linear mode reproduces affine data: when
    [vals[k] = s * args[k] + c] at every node, every lookup returns
    [s * a + c], inside the domain and, by extrapolation along the end
    bracket, outside it. *)
Theorem linear_reproduces_affine
        (args vals : list Q) (t0 : Table.TableImpl) (qs : list Q) (s c a : Q) :
  increasing args -> len vals = len args ->
  Table.new args vals (len args) Table.linear = Ok t0 ->
  (forall k, 0 <= k <= len args - 1 -> (elt vals k == s * elt args k + c)%Q) ->
  exists v, fst (Table.Table_lookup a (Table_after qs t0)) = Ok v
            /\ (v == s * a + c)%Q.
Proof.
  intros Hincr Hlen Hnew Haff.
  pose proof (Table_new_fn _ _ _ _ _ Hnew ltac:(discriminate)) as Hfn.
  destruct (Table_state args vals _ t0 qs Hincr Hlen Hnew)
    as (Hinv & Hvec & Hval & Hn & Hfn' & _ & Htwo).
  set (t := Table_after qs t0) in *. clearbody t.
  destruct (lookup_bracket t a Hinv) as (i & E & Hi & _).
  rewrite Hn in Hi. unfold Table.Table_lookup. rewrite E.
  unfold Table.call. rewrite Hfn', Hfn.
  unfold Table.linearInterpolate, ArgVec.at_. rewrite Hvec, Hval.
  rewrite !get_ok by lia. cbn [bind].
  eexists. split; [reflexivity|].
  rewrite (Haff i), (Haff (i - 1)) by lia.
  assert (elt args (i - 1) < elt args i)%Q
    by (apply increasing_elt; [assumption|lia..]).
  field. lra.
Qed.

Lemma linear_reproduces_affine_witness :
  exists v,
    fst (Table.Table_lookup 7
           (Table_after [(1 # 2)%Q]
              (Table.mkImpl Table.linear
                 (ArgVec.mk [0; 1; 3]%Q 3 (1 # 1000000) (2 # 1000000) false (3 # 2) 1)
                 [5; 7; 11]%Q 3 [] Table.linearInterpolate_fn)))
    = Ok v
    /\ (v == 2 * 7 + 5)%Q.
Proof.
  apply (linear_reproduces_affine [0; 1; 3]%Q [5; 7; 11]%Q).
  - simpl. repeat split; reflexivity.
  - reflexivity.
  - vm_compute. reflexivity.
  - intros k Hk. change (len [0; 1; 3]%Q) with 3 in Hk.
    assert (k = 0 \/ k = 1 \/ k = 2) as [-> | [-> | ->]] by lia; reflexivity.
Defined.

(** X10.  Under exact arithmetic, inside the domain linear mode never
    overshoots: the value returned lies between the values of the two
    nodes of a bracket that contains the query. *)
Theorem linear_between_nodes
        (args vals : list Q) (t0 : Table.TableImpl) (qs : list Q) (a : Q) :
  increasing args -> len vals = len args ->
  Table.new args vals (len args) Table.linear = Ok t0 ->
  (elt args 0 <= a <= elt args (len args - 1))%Q ->
  exists v i,
    fst (Table.Table_lookup a (Table_after qs t0)) = Ok v
    /\ 1 <= i <= len args - 1
    /\ (elt args (i - 1) <= a <= elt args i)%Q
    /\ ((elt vals (i - 1) <= v <= elt vals i)%Q
        \/ (elt vals i <= v <= elt vals (i - 1))%Q).
Proof.
  intros Hincr Hlen Hnew [Hlo Hhi].
  pose proof (Table_new_fn _ _ _ _ _ Hnew ltac:(discriminate)) as Hfn.
  destruct (Table_state args vals _ t0 qs Hincr Hlen Hnew)
    as (Hinv & Hvec & Hval & Hn & Hfn' & _ & Htwo).
  set (t := Table_after qs t0) in *. clearbody t.
  destruct (lookup_bracket t a Hinv) as (i & E & Hi & Hb).
  rewrite Hvec, Hn in *. unfold Table.Table_lookup. rewrite E.
  destruct Hb as [[Ho _]|[[Ho _]|[Hb1 Hb2]]]; [lra|lra|].
  unfold Table.call. rewrite Hfn', Hfn.
  unfold Table.linearInterpolate, ArgVec.at_. rewrite Hvec, Hval.
  rewrite !get_ok by lia. cbn [bind].
  eexists. exists i. split; [reflexivity|]. split; [lia|]. split; [tauto|].
  assert (Hstep : (elt args (i - 1) < elt args i)%Q)
    by (apply increasing_elt; [assumption|lia..]).
  set (ax := ((elt args i - a) / (elt args i - elt args (i - 1)))%Q).
  assert (0 <= ax)%Q by (apply Qle_shift_div_l; lra).
  assert (ax <= 1)%Q by (apply Qle_shift_div_r; lra).
  clearbody ax.
  destruct (Qlt_le_dec (elt vals i) (elt vals (i - 1))); [right|left]; split; nra.
Qed.

Lemma linear_between_nodes_witness :
  exists v i,
    fst (Table.Table_lookup 2
           (Table_after [(1 # 2)%Q]
              (Table.mkImpl Table.linear
                 (ArgVec.mk [0; 1; 3]%Q 3 (1 # 1000000) (2 # 1000000) false (3 # 2) 1)
                 [5; 7; 1]%Q 3 [] Table.linearInterpolate_fn)))
    = Ok v
    /\ 1 <= i <= len [0; 1; 3]%Q - 1
    /\ (elt [0; 1; 3]%Q (i - 1) <= 2 <= elt [0; 1; 3]%Q i)%Q
    /\ ((elt [5; 7; 1]%Q (i - 1) <= v <= elt [5; 7; 1]%Q i)%Q
        \/ (elt [5; 7; 1]%Q i <= v <= elt [5; 7; 1]%Q (i - 1))%Q).
Proof.
  apply (linear_between_nodes [0; 1; 3]%Q [5; 7; 1]%Q).
  - simpl. repeat split; reflexivity.
  - reflexivity.
  - vm_compute. reflexivity.
  - vm_compute. split; discriminate.
Defined.

(** ** One-dimensional tables: spline mode on affine data *)

(** One step of the elimination on a system with right-hand side zero. *)
Lemma elimination_step (h b2 P g zp zi zn : Q) :
  ~ (P == 0)%Q ->
  (P * zp + h * zi == 0)%Q ->
  (h * zp + b2 * zi + g * zn == 0)%Q ->
  ((b2 - h * (h / P)) * zi + g * zn == 0)%Q.
Proof.
  intros HP H1 H2.
  assert (E : (P * ((b2 - h * (h / P)) * zi + g * zn)
               == P * (h * zp + b2 * zi + g * zn) - h * (P * zp + h * zi))%Q)
    by (field; exact HP).
  rewrite H1, H2 in E.
  assert (E' : (P * ((b2 - h * (h / P)) * zi + g * zn) == 0)%Q)
    by (rewrite E; ring).
  destruct (Qmult_integral _ _ E') as [HP0|Hz]; [now destruct HP|exact Hz].
Qed.

Lemma pivot_nonzero (x : list Q) (k : nat) :
  increasing x -> Z.of_nat k + 2 < len x -> ~ (pivot x k == 0)%Q.
Proof.
  intros Hincr Hk. pose proof (pivot_dominant x Hincr k Hk) as Hd.
  assert (elt x (Z.of_nat k + 1) < elt x (Z.of_nat k + 2))%Q
    by (apply increasing_elt; [assumption|lia..]).
  lra.
Qed.

(** After the elimination, a system with right-hand side zero links each
    unknown to the next one alone. *)
Lemma homogeneous_elimination (x y z : list Q) :
  increasing x -> (elt z 0 == 0)%Q ->
  (forall i, 1 <= i <= len x - 2 -> tridiagonal_row x y z i) ->
  (forall i, 1 <= i <= len x - 2 -> (spline_rhs x y i == 0)%Q) ->
  forall k : nat,
    Z.of_nat k + 2 < len x ->
    (pivot x k * elt z (Z.of_nat k + 1)
     + (elt x (Z.of_nat k + 2) - elt x (Z.of_nat k + 1)) * elt z (Z.of_nat k + 2)
     == 0)%Q.
Proof.
  intros Hincr H0 Hrows Hrhs. induction k as [|k IH]; intros Hk.
  - pose proof (Hrows 1 ltac:(lia)) as Hrow. unfold tridiagonal_row in Hrow.
    rewrite (Hrhs 1) in Hrow by lia.
    change (1 - 1) with 0 in Hrow. change (1 + 1) with 2 in Hrow.
    cbn [pivot]. change (Z.of_nat 0 + 1) with 1. change (Z.of_nat 0 + 2) with 2.
    rewrite H0 in Hrow. rewrite <- Hrow. ring.
  - specialize (IH ltac:(lia)).
    pose proof (Hrows (Z.of_nat k + 2) ltac:(lia)) as Hrow.
    unfold tridiagonal_row in Hrow. rewrite (Hrhs (Z.of_nat k + 2)) in Hrow by lia.
    replace (Z.of_nat k + 2 - 1) with (Z.of_nat k + 1) in Hrow by lia.
    replace (Z.of_nat k + 2 + 1) with (Z.of_nat k + 3) in Hrow by lia.
    cbn [pivot].
    replace (Z.of_nat (S k) + 1) with (Z.of_nat k + 2) by lia.
    replace (Z.of_nat (S k) + 2) with (Z.of_nat k + 3) by lia.
    replace (Z.of_nat k + 1 + 1) with (Z.of_nat k + 2) by lia.
    replace (Z.of_nat k + 1 + 2) with (Z.of_nat k + 3) by lia.
    apply (elimination_step _ _ _ _ (elt z (Z.of_nat k + 1)));
      [apply pivot_nonzero; [assumption|lia]|exact IH|exact Hrow].
Qed.

(** The natural-spline system with right-hand side zero has the solution
    zero only. *)
Lemma homogeneous_solution (x y z : list Q) :
  increasing x -> 3 <= len x ->
  (elt z 0 == 0)%Q -> (elt z (len x - 1) == 0)%Q ->
  (forall i, 1 <= i <= len x - 2 -> tridiagonal_row x y z i) ->
  (forall i, 1 <= i <= len x - 2 -> (spline_rhs x y i == 0)%Q) ->
  forall i, 0 <= i <= len x - 1 -> (elt z i == 0)%Q.
Proof.
  intros Hincr Hn H0 Hlast Hrows Hrhs.
  assert (Hback : forall d : nat,
             Z.of_nat d <= len x - 2 -> (elt z (len x - 1 - Z.of_nat d) == 0)%Q).
  { induction d as [|d IH]; intros Hd.
    - replace (len x - 1 - Z.of_nat 0) with (len x - 1) by lia. exact Hlast.
    - specialize (IH ltac:(lia)).
      pose proof (homogeneous_elimination x y z Hincr H0 Hrows Hrhs
                    (Z.to_nat (len x - 3 - Z.of_nat d)) ltac:(lia)) as He.
      replace (Z.of_nat (Z.to_nat (len x - 3 - Z.of_nat d)) + 1)
        with (len x - 1 - Z.of_nat (S d)) in He by lia.
      replace (Z.of_nat (Z.to_nat (len x - 3 - Z.of_nat d)) + 2)
        with (len x - 1 - Z.of_nat d) in He by lia.
      rewrite IH in He.
      assert (He' : (pivot x (Z.to_nat (len x - 3 - Z.of_nat d))
                     * elt z (len x - 1 - Z.of_nat (S d)) == 0)%Q)
        by (rewrite <- He; ring).
      destruct (Qmult_integral _ _ He') as [HP|Hz]; [|exact Hz].
      exfalso. revert HP. apply pivot_nonzero; [assumption|lia]. }
  intros i Hi. destruct (Z.eq_dec i 0) as [->|Hne]; [exact H0|].
  replace i with (len x - 1 - Z.of_nat (Z.to_nat (len x - 1 - i))) by lia.
  apply Hback. lia.
Qed.

(** On affine data every right-hand side of the spline system is zero. *)
Lemma spline_rhs_affine (x y : list Q) (s c : Q) (i : Z) :
  increasing x -> 1 <= i <= len x - 2 ->
  (forall k, 0 <= k <= len x - 1 -> (elt y k == s * elt x k + c)%Q) ->
  (spline_rhs x y i == 0)%Q.
Proof.
  intros Hincr Hi Haff. unfold spline_rhs.
  rewrite (Haff (i + 1)), (Haff i), (Haff (i - 1)) by lia.
  assert (elt x (i - 1) < elt x i)%Q by (apply increasing_elt; [assumption|lia..]).
  assert (elt x i < elt x (i + 1))%Q by (apply increasing_elt; [assumption|lia..]).
  field. split; lra.
Qed.

(** X11.  Under exact arithmetic, spline mode reproduces affine data:
    when [vals[k] = s * args[k] + c] at every node, the second derivatives
    computed by the constructor are all zero and every lookup, inside the
    domain or outside, returns [s * a + c]. *)
Theorem spline_reproduces_affine
        (args vals : list Q) (t0 : Table.TableImpl) (qs : list Q) (s c a : Q) :
  increasing args -> len vals = len args ->
  Table.new args vals (len args) Table.spline = Ok t0 ->
  (forall k, 0 <= k <= len args - 1 -> (elt vals k == s * elt args k + c)%Q) ->
  (forall i, 0 <= i <= len args - 1 -> (elt (Table._y2 t0) i == 0)%Q)
  /\ exists v, fst (Table.Table_lookup a (Table_after qs t0)) = Ok v
               /\ (v == s * a + c)%Q.
Proof.
  intros Hincr Hlen Hnew Haff.
  destruct (Table_new_spline args vals t0 Hincr Hlen Hnew)
    as (Hthree & Hfn & Hly & H0 & Hlast & Hrows).
  assert (Hz : forall i, 0 <= i <= len args - 1 -> (elt (Table._y2 t0) i == 0)%Q).
  { apply (homogeneous_solution args vals); try assumption.
    - now rewrite H0.
    - now rewrite Hlast.
    - intros i Hi. now apply (spline_rhs_affine args vals s c). }
  split; [exact Hz|].
  destruct (Table_state args vals _ t0 qs Hincr Hlen Hnew)
    as (Hinv & Hvec & Hval & Hn & Hfn' & Hy2 & Htwo).
  set (t := Table_after qs t0) in *. clearbody t.
  destruct (lookup_bracket t a Hinv) as (i & E & Hi & _).
  rewrite Hn in Hi. unfold Table.Table_lookup. rewrite E.
  unfold Table.call. rewrite Hfn', Hfn.
  unfold Table.splineInterpolate, ArgVec.at_. rewrite Hvec, Hval, Hy2.
  rewrite !get_ok by lia. cbn [bind].
  eexists. split; [reflexivity|].
  rewrite (Hz i), (Hz (i - 1)), (Haff i), (Haff (i - 1)) by lia.
  assert (elt args (i - 1) < elt args i)%Q
    by (apply increasing_elt; [assumption|lia..]).
  field. lra.
Qed.

Lemma spline_reproduces_affine_witness :
  (forall i, 0 <= i <= len [0; 1; 3; 4]%Q - 1 ->
             (elt [0; 0 # 55296; 0 # 768; 0]%Q i == 0)%Q)
  /\ exists v,
      fst (Table.Table_lookup 2
             (Table_after [(7 # 2)%Q]
                (Table.mkImpl Table.spline
                   (ArgVec.mk [0; 1; 3; 4]%Q 4 (1 # 1000000) (1 # 1000000) false
                      (4 # 3) 1)
                   [5; 7; 11; 13]%Q 4 [0; 0 # 55296; 0 # 768; 0]%Q
                   Table.splineInterpolate_fn)))
      = Ok v
      /\ (v == 2 * 2 + 5)%Q.
Proof.
  apply (spline_reproduces_affine [0; 1; 3; 4]%Q [5; 7; 11; 13]%Q
           (Table.mkImpl Table.spline
              (ArgVec.mk [0; 1; 3; 4]%Q 4 (1 # 1000000) (1 # 1000000) false
                 (4 # 3) 1)
              [5; 7; 11; 13]%Q 4 [0; 0 # 55296; 0 # 768; 0]%Q
              Table.splineInterpolate_fn)).
  - simpl. repeat split; reflexivity.
  - reflexivity.
  - vm_compute. reflexivity.
  - intros k Hk. change (len [0; 1; 3; 4]%Q) with 4 in Hk.
    assert (k = 0 \/ k = 1 \/ k = 2 \/ k = 3) as [-> | [-> | [-> | ->]]] by lia;
      reflexivity.
Defined.

(** ** One-dimensional tables: [operator()] and [interpMany] *)

(** X12.  [Table::operator()] compares strictly: for a query inside the
    closed domain it is the lookup; so in floor, ceil, nearest and linear
    mode, at a node, the two end nodes included, it returns the value of
    the node and not 0.  (The spline formula divides at a node, and its
    rounded result is left out of the statement.) *)
Theorem Table_call_inside
        (args vals : list Q) (m : Table.interpolant) (t0 : Table.TableImpl)
        (qs : list Q) :
  increasing args -> len vals = len args ->
  Table.new args vals (len args) m = Ok t0 ->
  (forall a, (elt args 0 <= a <= elt args (len args - 1))%Q ->
             Table.Table_call a (Table_after qs t0)
             = Table.Table_lookup a (Table_after qs t0))
  /\ (m <> Table.spline ->
      forall k, 0 <= k <= len args - 1 ->
                exists v, fst (Table.Table_call (elt args k) (Table_after qs t0))
                          = Ok v
                          /\ (v == elt vals k)%Q).
Proof.
  intros Hincr Hlen Hnew.
  destruct (Table_state args vals _ t0 qs Hincr Hlen Hnew)
    as (Hinv & Hvec & Hval & Hn & _ & _ & Htwo).
  set (t := Table_after qs t0) in *. clearbody t.
  assert (Hin : forall a, (elt args 0 <= a <= elt args (len args - 1))%Q ->
                          Table.Table_call a t = Table.Table_lookup a t).
  { intros a [Hlo Hhi]. pose proof Hinv as [[Han _ _ _ _] Hnt _ _].
    unfold Table.Table_call, Table.argMin, Table.argMax, ArgVec.front, ArgVec.back.
    rewrite <- Hnt, Hn, Hvec. rewrite !get_ok by lia.
    destruct (Qlt_le_dec a (elt args 0)) as [Hc|_]; [lra|].
    destruct (Qlt_le_dec (elt args (len args - 1)) a) as [Hc|_]; [lra|].
    reflexivity. }
  split; [exact Hin|].
  intros _ k Hk. rewrite Hin.
  - destruct (lookup_at_node_inv t k Hinv) as (v & E & Hv).
    + now rewrite Hvec.
    + lia.
    + rewrite Hvec in E. rewrite Hval in Hv. exists v. split; assumption.
  - split; apply increasing_elt_le; try assumption; lia.
Qed.

Lemma Table_call_inside_witness :
  (forall a, (elt [0; 1; 3]%Q 0 <= a <= elt [0; 1; 3]%Q (len [0; 1; 3]%Q - 1))%Q ->
             Table.Table_call a
               (Table_after [2%Q]
                  (Table.mkImpl Table.linear
                     (ArgVec.mk [0; 1; 3]%Q 3 (1 # 1000000) (2 # 1000000) false
                        (3 # 2) 1)
                     [5; 7; 11]%Q 3 [] Table.linearInterpolate_fn))
             = Table.Table_lookup a
                 (Table_after [2%Q]
                    (Table.mkImpl Table.linear
                       (ArgVec.mk [0; 1; 3]%Q 3 (1 # 1000000) (2 # 1000000) false
                          (3 # 2) 1)
                       [5; 7; 11]%Q 3 [] Table.linearInterpolate_fn)))
  /\ (forall k, 0 <= k <= len [0; 1; 3]%Q - 1 ->
                exists v,
                  fst (Table.Table_call (elt [0; 1; 3]%Q k)
                         (Table_after [2%Q]
                            (Table.mkImpl Table.linear
                               (ArgVec.mk [0; 1; 3]%Q 3 (1 # 1000000) (2 # 1000000)
                                  false (3 # 2) 1)
                               [5; 7; 11]%Q 3 [] Table.linearInterpolate_fn)))
                  = Ok v
                  /\ (v == elt [5; 7; 11]%Q k)%Q).
Proof.
  refine ((fun H => conj (proj1 H) (proj2 H _))
            (Table_call_inside [0; 1; 3]%Q [5; 7; 11]%Q Table.linear _ [2%Q] _ _ _)).
  - discriminate.
  - simpl. repeat split; reflexivity.
  - reflexivity.
  - vm_compute. reflexivity.
Defined.

Lemma Table_after_app (qs qs' : list Q) (t : Table.TableImpl) :
  Table_after (qs ++ qs') t = Table_after qs' (Table_after qs t).
Proof. unfold Table_after. apply fold_left_app. Qed.

(** A lookup on a built table returns a value, in every state. *)
Lemma Table_lookup_total (args vals : list Q) (m : Table.interpolant)
      (t0 : Table.TableImpl) (qs : list Q) (a : Q) :
  increasing args -> len vals = len args ->
  Table.new args vals (len args) m = Ok t0 ->
  exists v, fst (Table.lookup a (Table_after qs t0)) = Ok v.
Proof.
  intros Hincr Hlen Hnew.
  destruct (Table_state args vals _ t0 qs Hincr Hlen Hnew) as (Hinv & _).
  destruct (lookup_bracket _ a Hinv) as (i & E & Hi & _).
  rewrite E. now apply call_ok.
Qed.

(** The loop of the one-dimensional [interpMany] over a table whose
    lookups all return. *)
Lemma Table_interpMany_loop_spec (t0 : Table.TableImpl) (argvec : list Q) :
  (forall qs a, exists v, fst (Table.lookup a (Table_after qs t0)) = Ok v) ->
  forall (n : nat) (k : Z) (valvec qs : list Q),
    0 <= k -> k + Z.of_nat n <= len argvec -> k + Z.of_nat n <= len valvec ->
    exists out,
      Table.interpMany_loop n k argvec valvec (Table_after qs t0)
      = (Ok out, Table_after (qs ++ points n k argvec) t0)
      /\ len out = len valvec
      /\ (forall q, k <= q < k + Z.of_nat n ->
                    fst (Table.Table_lookup (elt argvec q)
                           (Table_after (qs ++ points (Z.to_nat (q - k)) k argvec) t0))
                    = Ok (elt out q))
      /\ (forall q, 0 <= q -> ~ k <= q < k + Z.of_nat n ->
                    elt out q = elt valvec q).
Proof.
  intros Htotal. induction n as [|n IH]; intros k valvec qs Hk Hx Hv.
  - exists valvec. cbn [points Table.interpMany_loop]. rewrite app_nil_r.
    split; [reflexivity|]. split; [reflexivity|]. split; [intros q Hq; lia|].
    reflexivity.
  - cbn [Table.interpMany_loop]. unfold mbind at 1, lift at 1.
    rewrite get_ok by lia. unfold mbind at 1.
    destruct (Htotal qs (elt argvec k)) as (v & Ev).
    destruct (Table.lookup (elt argvec k) (Table_after qs t0)) as [r t'] eqn:El.
    cbn [fst] in Ev. subst r.
    assert (t' = Table_after (qs ++ [elt argvec k]) t0) as ->.
    { rewrite Table_after_app. unfold Table_after at 1. cbn [fold_left].
      now rewrite El. }
    unfold mbind at 1, lift at 1. rewrite put_ok by lia.
    destruct (IH (k + 1) (<[Z.to_nat k := v]> valvec) (qs ++ [elt argvec k]))
      as (out & E & Hlen & Hin & Hout); try rewrite len_insert; try lia.
    exists out. rewrite E. cbn [points]. rewrite <- app_assoc. cbn [app].
    split; [reflexivity|]. split; [now rewrite Hlen, len_insert|]. split.
    + intros q Hq. destruct (Z.eq_dec q k) as [->|Hne].
      * rewrite Hout by lia. rewrite elt_insert_eq by lia.
        replace (k - k) with 0 by lia. cbn [Z.to_nat points].
        rewrite app_nil_r. unfold Table.Table_lookup. rewrite El. reflexivity.
      * rewrite <- (Hin q) by lia.
        replace (Z.to_nat (q - k)) with (S (Z.to_nat (q - (k + 1)))) by lia.
        cbn [points]. rewrite <- app_assoc. reflexivity.
    + intros q Hq Hnot. rewrite Hout by lia. apply elt_insert_ne; lia.
Qed.

(** X13.  On a table built in any mode, [interpMany] over [N] queries
    never fails: it reads the entries [0 .. N-1] of [argvec], writes the
    entries [0 .. N-1] of [valvec] and no other, entry [q] being what the
    lookup of query [q] returns after the lookups of the queries before
    it, and it leaves the table in the state these [N] lookups leave it
    in. *)
Theorem interpMany_1d
        (args vals : list Q) (m : Table.interpolant) (t0 : Table.TableImpl)
        (qs argvec valvec : list Q) (N : Z) :
  increasing args -> len vals = len args ->
  Table.new args vals (len args) m = Ok t0 ->
  0 <= N -> N <= len argvec -> N <= len valvec ->
  exists out,
    Table.interpMany argvec valvec N (Table_after qs t0)
    = (Ok out, Table_after (qs ++ points (Z.to_nat N) 0 argvec) t0)
    /\ len out = len valvec
    /\ (forall q, 0 <= q < N ->
                  fst (Table.Table_lookup (elt argvec q)
                         (Table_after (qs ++ points (Z.to_nat q) 0 argvec) t0))
                  = Ok (elt out q))
    /\ (forall q, N <= q -> elt out q = elt valvec q).
Proof.
  intros Hincr Hlen Hnew HN Hx Hv.
  destruct (Table_interpMany_loop_spec t0 argvec
              (fun qs' a => Table_lookup_total args vals m t0 qs' a Hincr Hlen Hnew)
              (Z.to_nat N) 0 valvec qs)
    as (out & E & Hl & Hin & Hout); try lia.
  exists out. unfold Table.interpMany. rewrite E.
  split; [reflexivity|]. split; [exact Hl|]. split.
  - intros q Hq. rewrite <- (Hin q) by lia.
    replace (q - 0) with q by lia. reflexivity.
  - intros q Hq. apply Hout; lia.
Qed.

Lemma interpMany_1d_witness :
  exists out,
    Table.interpMany [2; 1; 4]%Q [0; 0; 42]%Q 2
      (Table_after [(1 # 2)%Q]
         (Table.mkImpl Table.spline
            (ArgVec.mk [0; 1; 2; 3]%Q 4 (1 # 1000000) (1 # 1000000) true (3 # 3) 1)
            [0; 1; 4; 9]%Q 4 [0; 2304 # 960; 144 # 60; 0]%Q
            Table.splineInterpolate_fn))
    = (Ok out,
       Table_after ([(1 # 2)%Q] ++ points (Z.to_nat 2) 0 [2; 1; 4]%Q)
         (Table.mkImpl Table.spline
            (ArgVec.mk [0; 1; 2; 3]%Q 4 (1 # 1000000) (1 # 1000000) true (3 # 3) 1)
            [0; 1; 4; 9]%Q 4 [0; 2304 # 960; 144 # 60; 0]%Q
            Table.splineInterpolate_fn))
    /\ len out = len [0; 0; 42]%Q
    /\ (forall q, 0 <= q < 2 ->
                  fst (Table.Table_lookup (elt [2; 1; 4]%Q q)
                         (Table_after
                            ([(1 # 2)%Q] ++ points (Z.to_nat q) 0 [2; 1; 4]%Q)
                            (Table.mkImpl Table.spline
                               (ArgVec.mk [0; 1; 2; 3]%Q 4 (1 # 1000000)
                                  (1 # 1000000) true (3 # 3) 1)
                               [0; 1; 4; 9]%Q 4 [0; 2304 # 960; 144 # 60; 0]%Q
                               Table.splineInterpolate_fn)))
                  = Ok (elt out q))
    /\ (forall q, 2 <= q -> elt out q = elt [0; 0; 42]%Q q).
Proof.
  apply (interpMany_1d [0; 1; 2; 3]%Q [0; 1; 4; 9]%Q Table.spline).
  - simpl. repeat split; reflexivity.
  - reflexivity.
  - vm_compute. reflexivity.
  - lia.
  - vm_compute. discriminate.
  - vm_compute. discriminate.
Defined.

(** ** Two-dimensional tables: what each class returns *)

(** The bracket a search returns, for any query. *)
Lemma upperIndex_cases (av : ArgVec.t) (a : Q) :
  ArgVec_inv av ->
  exists i,
    fst (ArgVec.upperIndex a av) = Ok i
    /\ 1 <= i <= ArgVec._n av - 1
    /\ ((a < elt (ArgVec._vec av) 0)%Q /\ i = 1
        \/ (elt (ArgVec._vec av) (ArgVec._n av - 1) < a)%Q /\ i = ArgVec._n av - 1
        \/ (elt (ArgVec._vec av) (i - 1) <= a <= elt (ArgVec._vec av) i)%Q).
Proof.
  intros Ha. pose proof Ha as [Hn Htwo _ _ _].
  destruct (Qlt_le_dec a (elt (ArgVec._vec av) 0)) as [Hlo|Hlo].
  { exists 1. rewrite (upperIndex_below _ a Ha Hlo).
    split; [reflexivity|]. split; [lia|]. left. split; [exact Hlo|reflexivity]. }
  destruct (Qlt_le_dec (elt (ArgVec._vec av) (ArgVec._n av - 1)) a) as [Hhi|Hhi].
  { exists (ArgVec._n av - 1). rewrite (upperIndex_above _ a Ha Hhi).
    split; [reflexivity|]. split; [lia|]. right; left.
    split; [exact Hhi|reflexivity]. }
  destruct (upperIndex_inside _ a Ha (conj Hlo Hhi)) as (i & li & E & _ & Hi & Hb).
  exists i. rewrite E. split; [reflexivity|]. split; [exact Hi|].
  right; right. exact Hb.
Qed.

(** The brackets a 2D lookup and a gradient call evaluate their class at. *)
Lemma lookup2_bracket (t : Table2D.Table2DImpl) (x y : Q) :
  Table2D_inv t ->
  exists i j,
    fst (Table2D.lookup x y t) = Table2D.interp t x y i j
    /\ fst (Table2D.gradient x y t) = Table2D.grad t x y i j
    /\ 1 <= i <= ArgVec._n (Table2D._xargs t) - 1
    /\ 1 <= j <= ArgVec._n (Table2D._yargs t) - 1
    /\ ((x < elt (ArgVec._vec (Table2D._xargs t)) 0)%Q /\ i = 1
        \/ (elt (ArgVec._vec (Table2D._xargs t))
                (ArgVec._n (Table2D._xargs t) - 1) < x)%Q
           /\ i = ArgVec._n (Table2D._xargs t) - 1
        \/ (elt (ArgVec._vec (Table2D._xargs t)) (i - 1) <= x
            <= elt (ArgVec._vec (Table2D._xargs t)) i)%Q)
    /\ ((y < elt (ArgVec._vec (Table2D._yargs t)) 0)%Q /\ j = 1
        \/ (elt (ArgVec._vec (Table2D._yargs t))
                (ArgVec._n (Table2D._yargs t) - 1) < y)%Q
           /\ j = ArgVec._n (Table2D._yargs t) - 1
        \/ (elt (ArgVec._vec (Table2D._yargs t)) (j - 1) <= y
            <= elt (ArgVec._vec (Table2D._yargs t)) j)%Q).
Proof.
  intros Ht. pose proof Ht as [Hx Hy _ _ _].
  destruct (lookup2_spec t x y Ht)
    as (i & j & lx & ly & Ei & Ej & Hi & Hj & _ & _ & El & Eg).
  destruct (upperIndex_cases _ x Hx) as (i' & Ei' & _ & Hbx).
  destruct (upperIndex_cases _ y Hy) as (j' & Ej' & _ & Hby).
  assert (i' = i) as -> by congruence.
  assert (j' = j) as -> by congruence.
  exists i, j. rewrite El, Eg. cbn [fst].
  split; [reflexivity|]. split; [reflexivity|].
  split; [exact Hi|]. split; [exact Hj|]. split; [exact Hbx|exact Hby].
Qed.

(** A 2D table after its construction and any sequence of lookups. *)
Lemma Table2D_state (xargs yargs vals dfdx dfdy d2fdxdy : list Q)
      (m : Table2D.interpolant) (ko : option InterpolantXY)
      (t0 : Table2D.Table2DImpl) (pts : list (Q * Q)) :
  increasing xargs -> increasing yargs ->
  len vals = len xargs * len yargs ->
  Table2D.makeImpl xargs yargs vals (len xargs) (len yargs) m
    dfdx dfdy d2fdxdy ko = Ok t0 ->
  Table2D_inv (Table2D_after pts t0)
  /\ ArgVec._vec (Table2D._xargs (Table2D_after pts t0)) = xargs
  /\ ArgVec._vec (Table2D._yargs (Table2D_after pts t0)) = yargs
  /\ ArgVec._n (Table2D._xargs (Table2D_after pts t0)) = len xargs
  /\ ArgVec._n (Table2D._yargs (Table2D_after pts t0)) = len yargs
  /\ Table2D._vals (Table2D_after pts t0) = vals
  /\ Table2D._ny (Table2D_after pts t0) = len yargs
  /\ Table2D.self (Table2D_after pts t0) = Table2D.self t0
  /\ 2 <= len xargs /\ 2 <= len yargs.
Proof.
  intros Hix Hiy Hlen Hmk.
  destruct (makeImpl_spec _ _ _ _ _ _ _ _ _ Hix Hiy Hlen Hmk)
    as (Hinv & Hxv & Hyv & Hv & Hny & Hx2 & Hy2 & _ & _).
  destruct (Table2D_after_rehint pts t0 Hinv) as (lx & ly & Hlx & Hly & ->).
  split; [now apply rehint2_inv|]. cbn.
  destruct Hinv as [[Hxn _ _ _ _] [Hyn _ _ _ _] _ _ _].
  rewrite Hxv in Hxn. rewrite Hyv in Hyn.
  split; [exact Hxv|]. split; [exact Hyv|]. split; [exact Hxn|].
  split; [exact Hyn|]. split; [exact Hv|]. split; [exact Hny|].
  split; [reflexivity|]. split; [exact Hx2|exact Hy2].
Qed.

(** The class of a table built in a mode other than the kernel mode. *)
Lemma makeImpl_self (xargs yargs vals dfdx dfdy d2fdxdy : list Q) (Nx Ny : Z)
      (m : Table2D.interpolant) (ko : option InterpolantXY)
      (t0 : Table2D.Table2DImpl) :
  Table2D.makeImpl xargs yargs vals Nx Ny m dfdx dfdy d2fdxdy ko = Ok t0 ->
  m <> Table2D.interpolant2d ->
  Table2D.self t0
  = derived_of m Nx dfdx dfdy d2fdxdy (mkInterpolantXY false 0 (fun _ _ => 0%Q)).
Proof.
  intros Hmk Hm. unfold Table2D.makeImpl, Table2D.T2DCRTP_new in Hmk.
  destruct m; try discriminate Hmk; try (now destruct Hm);
    apply bind_Ok in Hmk as (xa & _ & Hmk);
    apply bind_Ok in Hmk as (ya & _ & Hmk);
    injection Hmk as <-; reflexivity.
Qed.

(** ** Two-dimensional tables: bilinear mode *)

(** X14.  Under exact arithmetic, bilinear mode reproduces bilinear data:
    when the grid holds [f(x, y) = a + b x + c y + d x y] at every node,
    every lookup returns [f(x, y)] and every gradient call returns the
    partial derivatives [(b + d y, c + d x)], inside the grid and
    outside. *)
Theorem bilinear_reproduces
        (xargs yargs vals dfdx dfdy d2fdxdy : list Q) (ko : option InterpolantXY)
        (t0 : Table2D.Table2DImpl) (pts : list (Q * Q)) (a b c d x y : Q) :
  increasing xargs -> increasing yargs ->
  len vals = len xargs * len yargs ->
  Table2D.makeImpl xargs yargs vals (len xargs) (len yargs)
    Table2D.linear dfdx dfdy d2fdxdy ko = Ok t0 ->
  (forall k l, 0 <= k <= len xargs - 1 -> 0 <= l <= len yargs - 1 ->
               (elt vals (k * len yargs + l)
                == a + b * elt xargs k + c * elt yargs l
                   + d * elt xargs k * elt yargs l)%Q) ->
  (exists v, fst (Table2D.lookup x y (Table2D_after pts t0)) = Ok v
             /\ (v == a + b * x + c * y + d * x * y)%Q)
  /\ (exists g, fst (Table2D.gradient x y (Table2D_after pts t0)) = Ok g
                /\ (fst g == b + d * y)%Q /\ (snd g == c + d * x)%Q).
Proof.
  intros Hix Hiy Hlen Hmk Hbil.
  pose proof (makeImpl_self _ _ _ _ _ _ _ _ _ _ _ Hmk ltac:(discriminate)) as Hself0.
  destruct (Table2D_state _ _ _ _ _ _ _ _ _ pts Hix Hiy Hlen Hmk)
    as (Hinv & Hxv & Hyv & Hxn & Hyn & Hv & Hny & Hself & Hx2 & Hy2).
  set (t := Table2D_after pts t0) in *. clearbody t.
  destruct (lookup2_bracket t x y Hinv) as (i & j & El & Eg & Hi & Hj & _ & _).
  rewrite Hxn in Hi. rewrite Hyn in Hj. rewrite El, Eg.
  unfold Table2D.interp, Table2D.grad. rewrite Hself, Hself0. cbn [derived_of].
  unfold Table2D.Linear_interp, Table2D.Linear_grad, ArgVec.at_. cbv zeta.
  rewrite Hxv, Hyv, Hv, Hny.
  rewrite !get_ok by first [lia | rewrite Hlen; apply grid_index; lia].
  cbn [bind].
  assert (elt xargs (i - 1) < elt xargs i)%Q
    by (apply increasing_elt; [assumption|lia..]).
  assert (elt yargs (j - 1) < elt yargs j)%Q
    by (apply increasing_elt; [assumption|lia..]).
  split.
  - eexists. split; [reflexivity|].
    rewrite (Hbil (i - 1) (j - 1)), (Hbil i (j - 1)), (Hbil (i - 1) j), (Hbil i j)
      by lia.
    field. split; lra.
  - eexists. split; [reflexivity|]. cbn [fst snd].
    rewrite (Hbil (i - 1) (j - 1)), (Hbil i (j - 1)), (Hbil (i - 1) j), (Hbil i j)
      by lia.
    split; field; split; lra.
Qed.

Lemma bilinear_reproduces_witness :
  (exists v,
      fst (Table2D.lookup (1 # 2) 5
             (Table2D_after [((1 # 3)%Q, 1%Q)]
                (Table2D.mkImpl
                   (ArgVec.mk [0; 1]%Q 2 (1 # 1000000) (1 # 1000000) true (1 # 1) 1)
                   (ArgVec.mk [0; 2]%Q 2 (2 # 1000000) (2 # 1000000) true (2 # 1) 1)
                   [1; 7; 3; 17]%Q 2 Table2D.T2DLinear)))
      = Ok v
      /\ (v == 1 + 2 * (1 # 2) + 3 * 5 + 4 * (1 # 2) * 5)%Q)
  /\ (exists g,
         fst (Table2D.gradient (1 # 2) 5
                (Table2D_after [((1 # 3)%Q, 1%Q)]
                   (Table2D.mkImpl
                      (ArgVec.mk [0; 1]%Q 2 (1 # 1000000) (1 # 1000000) true (1 # 1) 1)
                      (ArgVec.mk [0; 2]%Q 2 (2 # 1000000) (2 # 1000000) true (2 # 1) 1)
                      [1; 7; 3; 17]%Q 2 Table2D.T2DLinear)))
         = Ok g
         /\ (fst g == 2 + 4 * 5)%Q /\ (snd g == 3 + 4 * (1 # 2))%Q).
Proof.
  apply (bilinear_reproduces [0; 1]%Q [0; 2]%Q [1; 7; 3; 17]%Q [] [] [] None).
  - simpl. repeat split; reflexivity.
  - simpl. repeat split; reflexivity.
  - reflexivity.
  - vm_compute. reflexivity.
  - intros k l Hk Hl. change (len [0; 1]%Q) with 2 in Hk.
    change (len [0; 2]%Q) with 2 in Hl |- *.
    assert (k = 0 \/ k = 1) as [-> | ->] by lia;
      assert (l = 0 \/ l = 1) as [-> | ->] by lia; reflexivity.
Defined.

(** ** Two-dimensional tables: floor and ceil modes *)

(** Along one axis, for a query in [[v[k], v[k+1])], the bracket of the
    search is [k] when the query is its upper end and [k+1] otherwise. *)
Lemma floor_shift (v : list Q) (a : Q) (i k : Z) :
  increasing v -> 0 <= k <= len v - 2 ->
  (elt v k <= a < elt v (k + 1))%Q ->
  1 <= i <= len v - 1 ->
  ((a < elt v 0)%Q /\ i = 1
   \/ (elt v (len v - 1) < a)%Q /\ i = len v - 1
   \/ (elt v (i - 1) <= a <= elt v i)%Q) ->
  ((a == elt v i)%Q -> i = k) /\ (~ (a == elt v i)%Q -> i = k + 1).
Proof.
  intros Hv Hk [Hlo Hhi] Hi Hb.
  assert (elt v 0 <= elt v k)%Q by (apply increasing_elt_le; [assumption|lia..]).
  assert (elt v (k + 1) <= elt v (len v - 1))%Q
    by (apply increasing_elt_le; [assumption|lia..]).
  destruct Hb as [[Hout _]|[[Hout _]|[Hb1 Hb2]]]; [lra|lra|].
  assert (i - 1 < k + 1).
  { destruct (Z_lt_dec (i - 1) (k + 1)) as [|Hge]; [assumption|].
    assert (elt v (k + 1) <= elt v (i - 1))%Q
      by (apply increasing_elt_le; [assumption|lia..]). lra. }
  assert (k <= i) by (apply (increasing_index_le v); try assumption; try lia; lra).
  split; intros He.
  - destruct (Z.eq_dec i k) as [|Hik]; [assumption|].
    assert (i = k + 1) as -> by lia. lra.
  - destruct (Z.eq_dec i (k + 1)) as [|Hik]; [assumption|].
    assert (i = k) as -> by lia. destruct He. lra.
Qed.

(** Along one axis, for a query in [(v[k-1], v[k]]], the bracket of the
    search is [k+1] when the query is its lower end and [k] otherwise. *)
Lemma ceil_shift (v : list Q) (a : Q) (i k : Z) :
  increasing v -> 1 <= k <= len v - 1 ->
  (elt v (k - 1) < a <= elt v k)%Q ->
  1 <= i <= len v - 1 ->
  ((a < elt v 0)%Q /\ i = 1
   \/ (elt v (len v - 1) < a)%Q /\ i = len v - 1
   \/ (elt v (i - 1) <= a <= elt v i)%Q) ->
  ((a == elt v (i - 1))%Q -> i = k + 1) /\ (~ (a == elt v (i - 1))%Q -> i = k).
Proof.
  intros Hv Hk [Hlo Hhi] Hi Hb.
  assert (elt v 0 <= elt v (k - 1))%Q
    by (apply increasing_elt_le; [assumption|lia..]).
  assert (elt v k <= elt v (len v - 1))%Q
    by (apply increasing_elt_le; [assumption|lia..]).
  destruct Hb as [[Hout _]|[[Hout _]|[Hb1 Hb2]]]; [lra|lra|].
  assert (k - 1 < i).
  { destruct (Z_lt_dec (k - 1) i) as [|Hge]; [assumption|].
    assert (elt v i <= elt v (k - 1))%Q
      by (apply increasing_elt_le; [assumption|lia..]). lra. }
  assert (i - 1 <= k)
    by (apply (increasing_index_le v); try assumption; try lia; lra).
  split; intros He.
  - destruct (Z.eq_dec i (k + 1)) as [|Hik]; [assumption|].
    assert (i = k) as -> by lia. lra.
  - destruct (Z.eq_dec i k) as [|Hik]; [assumption|].
    assert (i = k + 1) as -> by lia.
    replace (k + 1 - 1) with k in He, Hb1 by lia. destruct He. lra.
Qed.

(** X15.  In 2D floor mode, for a query in the cell
    [[x[k], x[k+1]) x [y[l], y[l+1])], the lookup returns the value of the
    lower-left node [(k, l)], whatever brackets the two searches settled
    on. *)
Theorem cell_floor_2d
        (xargs yargs vals dfdx dfdy d2fdxdy : list Q) (ko : option InterpolantXY)
        (t0 : Table2D.Table2DImpl) (pts : list (Q * Q)) (x y : Q) (k l : Z) :
  increasing xargs -> increasing yargs ->
  len vals = len xargs * len yargs ->
  Table2D.makeImpl xargs yargs vals (len xargs) (len yargs)
    Table2D.floor dfdx dfdy d2fdxdy ko = Ok t0 ->
  0 <= k <= len xargs - 2 -> 0 <= l <= len yargs - 2 ->
  (elt xargs k <= x < elt xargs (k + 1))%Q ->
  (elt yargs l <= y < elt yargs (l + 1))%Q ->
  fst (Table2D.lookup x y (Table2D_after pts t0))
  = Ok (elt vals (k * len yargs + l)).
Proof.
  intros Hix Hiy Hlen Hmk Hk Hl Hx Hy.
  pose proof (makeImpl_self _ _ _ _ _ _ _ _ _ _ _ Hmk ltac:(discriminate)) as Hself0.
  destruct (Table2D_state _ _ _ _ _ _ _ _ _ pts Hix Hiy Hlen Hmk)
    as (Hinv & Hxv & Hyv & Hxn & Hyn & Hv & Hny & Hself & Hx2 & Hy2).
  set (t := Table2D_after pts t0) in *. clearbody t.
  destruct (lookup2_bracket t x y Hinv) as (i & j & El & _ & Hi & Hj & Hbx & Hby).
  rewrite Hxv, Hxn in *. rewrite Hyv, Hyn in *. rewrite El.
  destruct (floor_shift xargs x i k Hix Hk Hx Hi Hbx) as [Hxe Hxn'].
  destruct (floor_shift yargs y j l Hiy Hl Hy Hj Hby) as [Hye Hyn'].
  unfold Table2D.interp. rewrite Hself, Hself0. cbn [derived_of].
  unfold Table2D.Floor_interp, ArgVec.at_. cbv zeta.
  rewrite Hxv, Hyv, Hv, Hny. rewrite !get_ok by lia. cbn [bind].
  destruct (Qeq_dec x (elt xargs i)) as [Ex|Ex];
    [rewrite (Hxe Ex)|rewrite (Hxn' Ex)];
    (destruct (Qeq_dec y (elt yargs j)) as [Ey|Ey];
     [rewrite (Hye Ey)|rewrite (Hyn' Ey)]);
    match goal with
    | |- get _ ?idx = _ => replace idx with (k * len yargs + l) by lia
    end;
    apply get_ok; rewrite Hlen; apply grid_index; lia.
Qed.

Lemma cell_floor_2d_witness :
  fst (Table2D.lookup 1 (3 # 2)
         (Table2D_after [((1 # 2)%Q, (5 # 2)%Q)]
            (Table2D.mkImpl
               (ArgVec.mk [0; 1; 3]%Q 3 (1 # 1000000) (2 # 1000000) false (3 # 2) 1)
               (ArgVec.mk [0; 1; 3]%Q 3 (1 # 1000000) (2 # 1000000) false (3 # 2) 1)
               [1; 2; 3; 4; 5; 6; 7; 8; 9]%Q 3 Table2D.T2DFloor)))
  = Ok (elt [1; 2; 3; 4; 5; 6; 7; 8; 9]%Q (1 * len [0; 1; 3]%Q + 1)).
Proof.
  apply (cell_floor_2d [0; 1; 3]%Q [0; 1; 3]%Q [1; 2; 3; 4; 5; 6; 7; 8; 9]%Q
           [] [] [] None).
  - simpl. repeat split; reflexivity.
  - simpl. repeat split; reflexivity.
  - reflexivity.
  - vm_compute. reflexivity.
  - vm_compute. split; discriminate.
  - vm_compute. split; discriminate.
  - vm_compute. split; [discriminate|reflexivity].
  - vm_compute. split; [discriminate|reflexivity].
Defined.

(** X16.  In 2D ceil mode, for a query in the cell
    [(x[k-1], x[k]] x (y[l-1], y[l]]], the lookup returns the value of the
    upper-right node [(k, l)], whatever brackets the two searches settled
    on. *)
Theorem cell_ceil_2d
        (xargs yargs vals dfdx dfdy d2fdxdy : list Q) (ko : option InterpolantXY)
        (t0 : Table2D.Table2DImpl) (pts : list (Q * Q)) (x y : Q) (k l : Z) :
  increasing xargs -> increasing yargs ->
  len vals = len xargs * len yargs ->
  Table2D.makeImpl xargs yargs vals (len xargs) (len yargs)
    Table2D.ceil dfdx dfdy d2fdxdy ko = Ok t0 ->
  1 <= k <= len xargs - 1 -> 1 <= l <= len yargs - 1 ->
  (elt xargs (k - 1) < x <= elt xargs k)%Q ->
  (elt yargs (l - 1) < y <= elt yargs l)%Q ->
  fst (Table2D.lookup x y (Table2D_after pts t0))
  = Ok (elt vals (k * len yargs + l)).
Proof.
  intros Hix Hiy Hlen Hmk Hk Hl Hx Hy.
  pose proof (makeImpl_self _ _ _ _ _ _ _ _ _ _ _ Hmk ltac:(discriminate)) as Hself0.
  destruct (Table2D_state _ _ _ _ _ _ _ _ _ pts Hix Hiy Hlen Hmk)
    as (Hinv & Hxv & Hyv & Hxn & Hyn & Hv & Hny & Hself & Hx2 & Hy2).
  set (t := Table2D_after pts t0) in *. clearbody t.
  destruct (lookup2_bracket t x y Hinv) as (i & j & El & _ & Hi & Hj & Hbx & Hby).
  rewrite Hxv, Hxn in *. rewrite Hyv, Hyn in *. rewrite El.
  destruct (ceil_shift xargs x i k Hix Hk Hx Hi Hbx) as [Hxe Hxn'].
  destruct (ceil_shift yargs y j l Hiy Hl Hy Hj Hby) as [Hye Hyn'].
  unfold Table2D.interp. rewrite Hself, Hself0. cbn [derived_of].
  unfold Table2D.Ceil_interp, ArgVec.at_. cbv zeta.
  rewrite Hxv, Hyv, Hv, Hny. rewrite !get_ok by lia. cbn [bind].
  destruct (Qeq_dec x (elt xargs (i - 1))) as [Ex|Ex];
    [rewrite (Hxe Ex)|rewrite (Hxn' Ex)];
    (destruct (Qeq_dec y (elt yargs (j - 1))) as [Ey|Ey];
     [rewrite (Hye Ey)|rewrite (Hyn' Ey)]);
    match goal with
    | |- get _ ?idx = _ => replace idx with (k * len yargs + l) by lia
    end;
    apply get_ok; rewrite Hlen; apply grid_index; lia.
Qed.

Lemma cell_ceil_2d_witness :
  fst (Table2D.lookup 1 (3 # 2)
         (Table2D_after [((1 # 2)%Q, (5 # 2)%Q)]
            (Table2D.mkImpl
               (ArgVec.mk [0; 1; 3]%Q 3 (1 # 1000000) (2 # 1000000) false (3 # 2) 1)
               (ArgVec.mk [0; 1; 3]%Q 3 (1 # 1000000) (2 # 1000000) false (3 # 2) 1)
               [1; 2; 3; 4; 5; 6; 7; 8; 9]%Q 3 Table2D.T2DCeil)))
  = Ok (elt [1; 2; 3; 4; 5; 6; 7; 8; 9]%Q (1 * len [0; 1; 3]%Q + 2)).
Proof.
  apply (cell_ceil_2d [0; 1; 3]%Q [0; 1; 3]%Q [1; 2; 3; 4; 5; 6; 7; 8; 9]%Q
           [] [] [] None).
  - simpl. repeat split; reflexivity.
  - simpl. repeat split; reflexivity.
  - reflexivity.
  - vm_compute. reflexivity.
  - vm_compute. split; discriminate.
  - vm_compute. split; discriminate.
  - vm_compute. split; [reflexivity|discriminate].
  - vm_compute. split; [reflexivity|discriminate].
Defined.

(** ** Two-dimensional tables: bicubic Hermite mode *)

(** The bracket of a search for a node has the node at one of its ends. *)
Lemma node_bracket (v : list Q) (i k : Z) :
  increasing v -> 0 <= k <= len v - 1 -> 1 <= i <= len v - 1 ->
  ((elt v k < elt v 0)%Q /\ i = 1
   \/ (elt v (len v - 1) < elt v k)%Q /\ i = len v - 1
   \/ (elt v (i - 1) <= elt v k <= elt v i)%Q) ->
  i = k \/ i = k + 1.
Proof.
  intros Hv Hk Hi Hb.
  assert (elt v 0 <= elt v k)%Q by (apply increasing_elt_le; [assumption|lia..]).
  assert (elt v k <= elt v (len v - 1))%Q
    by (apply increasing_elt_le; [assumption|lia..]).
  destruct Hb as [[Hout _]|[[Hout _]|[Hb1 Hb2]]]; [lra|lra|].
  apply increasing_index_le in Hb1, Hb2; try assumption; lia.
Qed.

(** X17.  Under exact arithmetic, in bicubic mode, with derivative arrays
    as large as the grid, the table reproduces its data at the nodes: at
    node [(k, l)] the lookup returns [vals[k][l]] and the gradient call
    returns the supplied derivatives [(dfdx[k][l], dfdy[k][l])], for each
    of the brackets the two searches may settle on. *)
Theorem cubic_at_nodes
        (xargs yargs vals dfdx dfdy d2fdxdy : list Q) (ko : option InterpolantXY)
        (t0 : Table2D.Table2DImpl) (pts : list (Q * Q)) (k l : Z) :
  increasing xargs -> increasing yargs ->
  len vals = len xargs * len yargs ->
  len dfdx = len xargs * len yargs ->
  len dfdy = len xargs * len yargs ->
  len d2fdxdy = len xargs * len yargs ->
  Table2D.makeImpl xargs yargs vals (len xargs) (len yargs)
    Table2D.cubic dfdx dfdy d2fdxdy ko = Ok t0 ->
  0 <= k <= len xargs - 1 -> 0 <= l <= len yargs - 1 ->
  (exists v,
      fst (Table2D.lookup (elt xargs k) (elt yargs l) (Table2D_after pts t0)) = Ok v
      /\ (v == elt vals (k * len yargs + l))%Q)
  /\ (exists g,
         fst (Table2D.gradient (elt xargs k) (elt yargs l) (Table2D_after pts t0))
         = Ok g
         /\ (fst g == elt dfdx (k * len yargs + l))%Q
         /\ (snd g == elt dfdy (k * len yargs + l))%Q).
Proof.
  intros Hix Hiy Hlen Hldx Hldy Hld2 Hmk Hk Hl.
  pose proof (makeImpl_self _ _ _ _ _ _ _ _ _ _ _ Hmk ltac:(discriminate)) as Hself0.
  destruct (Table2D_state _ _ _ _ _ _ _ _ _ pts Hix Hiy Hlen Hmk)
    as (Hinv & Hxv & Hyv & Hxn & Hyn & Hv & Hny & Hself & Hx2 & Hy2).
  set (t := Table2D_after pts t0) in *. clearbody t.
  destruct (lookup2_bracket t (elt xargs k) (elt yargs l) Hinv)
    as (i & j & El & Eg & Hi & Hj & Hbx & Hby).
  rewrite Hxv, Hxn in *. rewrite Hyv, Hyn in *. rewrite El, Eg.
  pose proof (node_bracket xargs i k Hix Hk Hi Hbx) as Hik.
  pose proof (node_bracket yargs j l Hiy Hl Hj Hby) as Hjl.
  clear Hbx Hby El Eg.
  unfold Table2D.interp, Table2D.grad. rewrite Hself, Hself0. cbn [derived_of].
  unfold Table2D.Cubic_interp, Table2D.Cubic_grad, ArgVec.at_. cbv zeta.
  rewrite Hxv, Hyv, Hv, Hny.
  rewrite !get_ok
    by first [lia | rewrite ?Hlen, ?Hldx, ?Hldy, ?Hld2; apply grid_index; lia].
  cbn [bind].
  assert (elt xargs (i - 1) < elt xargs i)%Q
    by (apply increasing_elt; [assumption|lia..]).
  assert (elt yargs (j - 1) < elt yargs j)%Q
    by (apply increasing_elt; [assumption|lia..]).
  unfold Table2D.Cubic_oneDSpline, Table2D.Cubic_oneDGrad.
  destruct Hik as [-> | ->], Hjl as [-> | ->];
    replace (k + 1 - 1) with k in * by lia;
    replace (l + 1 - 1) with l in * by lia;
    (split; eexists; (split; [reflexivity|]); cbn [fst snd];
     [|split]; field; split; lra).
Qed.

Lemma cubic_at_nodes_witness :
  (exists v,
      fst (Table2D.lookup (elt [0; 1]%Q 1) (elt [0; 2]%Q 0)
             (Table2D_after [((1 # 3)%Q, 1%Q)]
                (Table2D.mkImpl
                   (ArgVec.mk [0; 1]%Q 2 (1 # 1000000) (1 # 1000000) true (1 # 1) 1)
                   (ArgVec.mk [0; 2]%Q 2 (2 # 1000000) (2 # 1000000) true (2 # 1) 1)
                   [1; 7; 3; 17]%Q 2
                   (Table2D.T2DCubic [2; 10; 2; 10]%Q [3; 3; 7; 7]%Q [4; 4; 4; 4]%Q))))
      = Ok v
      /\ (v == elt [1; 7; 3; 17]%Q (1 * len [0; 2]%Q + 0))%Q)
  /\ (exists g,
         fst (Table2D.gradient (elt [0; 1]%Q 1) (elt [0; 2]%Q 0)
                (Table2D_after [((1 # 3)%Q, 1%Q)]
                   (Table2D.mkImpl
                      (ArgVec.mk [0; 1]%Q 2 (1 # 1000000) (1 # 1000000) true (1 # 1) 1)
                      (ArgVec.mk [0; 2]%Q 2 (2 # 1000000) (2 # 1000000) true (2 # 1) 1)
                      [1; 7; 3; 17]%Q 2
                      (Table2D.T2DCubic [2; 10; 2; 10]%Q [3; 3; 7; 7]%Q
                         [4; 4; 4; 4]%Q))))
         = Ok g
         /\ (fst g == elt [2; 10; 2; 10]%Q (1 * len [0; 2]%Q + 0))%Q
         /\ (snd g == elt [3; 3; 7; 7]%Q (1 * len [0; 2]%Q + 0))%Q).
Proof.
  apply (cubic_at_nodes [0; 1]%Q [0; 2]%Q [1; 7; 3; 17]%Q
           [2; 10; 2; 10]%Q [3; 3; 7; 7]%Q [4; 4; 4; 4]%Q None).
  - simpl. repeat split; reflexivity.
  - simpl. repeat split; reflexivity.
  - reflexivity.
  - reflexivity.
  - reflexivity.
  - reflexivity.
  - vm_compute. reflexivity.
  - vm_compute. split; discriminate.
  - vm_compute. split; discriminate.
Defined.

(** ** Two-dimensional tables: cubic convolution *)

Lemma Conv_interp_only_out_of_bounds (t : Table2D.Table2DImpl) (x y : Q) (i j : Z) :
  only_out_of_bounds (Table2D.Conv_interp t x y i j).
Proof.
  unfold Table2D.Conv_interp, ArgVec.at_. cbv zeta.
  repeat first [ apply only_out_of_bounds_get
               | apply only_out_of_bounds_bind
               | intro
               | exact I ].
Qed.

(** The first and the last read of the 4 x 4 stencil. *)
Lemma Conv_interp_reads (t : Table2D.Table2DImpl) (x y : Q) (i j : Z) (v : Q) :
  Table2D.Conv_interp t x y i j = Ok v ->
  0 <= (i - 2) * Table2D._ny t + (j - 2)
  /\ (i + 1) * Table2D._ny t + (j + 1) < len (Table2D._vals t).
Proof.
  unfold Table2D.Conv_interp. cbv zeta. intros H.
  apply bind_Ok in H as (xi & _ & H). apply bind_Ok in H as (xm & _ & H).
  apply bind_Ok in H as (yj & _ & H). apply bind_Ok in H as (ym & _ & H).
  apply bind_Ok in H as (valm1 & Hfirst & H).
  apply bind_Ok in H as (val0 & _ & H).
  apply bind_Ok in H as (val1 & _ & H).
  apply bind_Ok in H as (val2 & Hlast & _).
  apply bind_Ok in Hfirst as (a & Ha & _). apply get_inv in Ha as [Ha _].
  apply bind_Ok in Hlast as (a' & _ & Hlast).
  apply bind_Ok in Hlast as (b' & _ & Hlast).
  apply bind_Ok in Hlast as (c' & _ & Hlast).
  apply bind_Ok in Hlast as (d' & Hd & _). apply get_inv in Hd as [Hd _].
  lia.
Qed.

(** The stencil stays inside the array of values exactly for these
    brackets: the rows of the grid are contiguous, so a stencil that
    leaves the grid along y alone reads the neighbouring rows. *)
Lemma Conv_interp_ok_iff (t : Table2D.Table2DImpl) (x y : Q) (i j : Z) :
  Table2D_inv t ->
  1 <= i <= ArgVec._n (Table2D._xargs t) - 1 ->
  1 <= j <= ArgVec._n (Table2D._yargs t) - 1 ->
  (exists v, Table2D.Conv_interp t x y i j = Ok v)
  <-> (3 <= i \/ i = 2 /\ 2 <= j)
      /\ (i <= ArgVec._n (Table2D._xargs t) - 3
          \/ i = ArgVec._n (Table2D._xargs t) - 2
             /\ j <= ArgVec._n (Table2D._yargs t) - 2).
Proof.
  intros [[Hxn _ _ _ _] [Hyn _ _ _ _] Hny Hv _] Hi Hj.
  set (nx := ArgVec._n (Table2D._xargs t)) in *.
  set (ny := ArgVec._n (Table2D._yargs t)) in *.
  split.
  - intros (v & E). apply Conv_interp_reads in E as [Hlo Hhi].
    rewrite Hv, Hny in *. fold nx ny in Hlo, Hhi. clearbody nx ny. nia.
  - intros [Hlow Hhigh].
    unfold Table2D.Conv_interp, ArgVec.at_. cbv zeta.
    rewrite Hny. fold nx ny.
    assert (Hg : forall p q, -2 <= p <= 1 -> -2 <= q <= 1 ->
                             0 <= (i + p) * ny + (j + q) < len (Table2D._vals t)).
    { intros p q Hp Hq. rewrite Hv, Hny. fold nx ny. clearbody nx ny. nia. }
    rewrite !(get_ok (ArgVec._vec _)) by lia. cbn [bind].
    pose proof (Hg (-2) (-2) ltac:(lia) ltac:(lia)) as G00.
    pose proof (Hg (-1) (-2) ltac:(lia) ltac:(lia)) as G10.
    pose proof (Hg 0 (-2) ltac:(lia) ltac:(lia)) as G20.
    pose proof (Hg 1 (-2) ltac:(lia) ltac:(lia)) as G30.
    pose proof (Hg (-2) (-1) ltac:(lia) ltac:(lia)) as G01.
    pose proof (Hg (-1) (-1) ltac:(lia) ltac:(lia)) as G11.
    pose proof (Hg 0 (-1) ltac:(lia) ltac:(lia)) as G21.
    pose proof (Hg 1 (-1) ltac:(lia) ltac:(lia)) as G31.
    pose proof (Hg (-2) 0 ltac:(lia) ltac:(lia)) as G02.
    pose proof (Hg (-1) 0 ltac:(lia) ltac:(lia)) as G12.
    pose proof (Hg 0 0 ltac:(lia) ltac:(lia)) as G22.
    pose proof (Hg 1 0 ltac:(lia) ltac:(lia)) as G32.
    pose proof (Hg (-2) 1 ltac:(lia) ltac:(lia)) as G03.
    pose proof (Hg (-1) 1 ltac:(lia) ltac:(lia)) as G13.
    pose proof (Hg 0 1 ltac:(lia) ltac:(lia)) as G23.
    pose proof (Hg 1 1 ltac:(lia) ltac:(lia)) as G33.
    rewrite !get_ok by lia. cbn [bind].
    eexists. reflexivity.
Qed.

(** X18.  The 4 x 4 stencil of the cubic convolution is read from the
    flat array of values without regard to the grid: at brackets [i], [j]
    the interpolation returns a value exactly when [i >= 3], or [i = 2]
    and [j >= 2], and also [i <= nx-3], or [i = nx-2] and [j <= ny-2];
    at every other bracket a read falls outside the array. *)
Theorem convolution_stencil
        (xargs yargs vals dfdx dfdy d2fdxdy : list Q) (ko : option InterpolantXY)
        (t0 : Table2D.Table2DImpl) (pts : list (Q * Q)) (x y : Q) (i j : Z) :
  increasing xargs -> increasing yargs ->
  len vals = len xargs * len yargs ->
  Table2D.makeImpl xargs yargs vals (len xargs) (len yargs)
    Table2D.cubicConvolve dfdx dfdy d2fdxdy ko = Ok t0 ->
  1 <= i <= len xargs - 1 -> 1 <= j <= len yargs - 1 ->
  ((exists v, Table2D.interp (Table2D_after pts t0) x y i j = Ok v)
   <-> (3 <= i \/ i = 2 /\ 2 <= j)
       /\ (i <= len xargs - 3 \/ i = len xargs - 2 /\ j <= len yargs - 2))
  /\ only_out_of_bounds (Table2D.interp (Table2D_after pts t0) x y i j).
Proof.
  intros Hix Hiy Hlen Hmk Hi Hj.
  pose proof (makeImpl_self _ _ _ _ _ _ _ _ _ _ _ Hmk ltac:(discriminate)) as Hself0.
  destruct (Table2D_state _ _ _ _ _ _ _ _ _ pts Hix Hiy Hlen Hmk)
    as (Hinv & Hxv & Hyv & Hxn & Hyn & Hv & Hny & Hself & Hx2 & Hy2).
  set (t := Table2D_after pts t0) in *. clearbody t.
  unfold Table2D.interp. rewrite Hself, Hself0. cbn [derived_of].
  split; [|apply Conv_interp_only_out_of_bounds].
  rewrite <- Hxn, <- Hyn in *. now apply Conv_interp_ok_iff.
Qed.

Lemma convolution_stencil_witness :
  ((exists v,
       Table2D.interp
         (Table2D_after []
            (Table2D.mkImpl
               (ArgVec.mk [0; 1; 2; 4; 5]%Q 5 (1 # 1000000) (1 # 1000000) false
                  (5 # 4) 1)
               (ArgVec.mk [0; 2]%Q 2 (2 # 1000000) (2 # 1000000) true (2 # 1) 1)
               [0; 1; 2; 3; 4; 5; 6; 7; 8; 9]%Q 2 Table2D.T2DCubicConvolution))
         3 1 3 1 = Ok v)
   <-> (3 <= 3 \/ 3 = 2 /\ 2 <= 1)
       /\ (3 <= len [0; 1; 2; 4; 5]%Q - 3
           \/ 3 = len [0; 1; 2; 4; 5]%Q - 2 /\ 1 <= len [0; 2]%Q - 2))
  /\ only_out_of_bounds
       (Table2D.interp
          (Table2D_after []
             (Table2D.mkImpl
                (ArgVec.mk [0; 1; 2; 4; 5]%Q 5 (1 # 1000000) (1 # 1000000) false
                   (5 # 4) 1)
                (ArgVec.mk [0; 2]%Q 2 (2 # 1000000) (2 # 1000000) true (2 # 1) 1)
                [0; 1; 2; 3; 4; 5; 6; 7; 8; 9]%Q 2 Table2D.T2DCubicConvolution))
          3 1 3 1).
Proof.
  apply (convolution_stencil [0; 1; 2; 4; 5]%Q [0; 2]%Q
           [0; 1; 2; 3; 4; 5; 6; 7; 8; 9]%Q [] [] [] None).
  - simpl. repeat split; reflexivity.
  - simpl. repeat split; reflexivity.
  - reflexivity.
  - vm_compute. reflexivity.
  - vm_compute. split; discriminate.
  - vm_compute. split; discriminate.
Defined.

(** The brackets of x at which a lookup leaves the array, and those at
    which it cannot. *)
Lemma convolution_lookup_cases
        (xargs yargs vals dfdx dfdy d2fdxdy : list Q) (ko : option InterpolantXY)
        (t0 : Table2D.Table2DImpl) (pts : list (Q * Q)) (x y : Q) :
  increasing xargs -> increasing yargs ->
  len vals = len xargs * len yargs ->
  Table2D.makeImpl xargs yargs vals (len xargs) (len yargs)
    Table2D.cubicConvolve dfdx dfdy d2fdxdy ko = Ok t0 ->
  ((x < elt xargs 1)%Q \/ (elt xargs (len xargs - 2) < x)%Q ->
   fst (Table2D.lookup x y (Table2D_after pts t0)) = Err OutOfBounds)
  /\ (6 <= len xargs -> (elt xargs 2 < x < elt xargs (len xargs - 3))%Q ->
      exists v, fst (Table2D.lookup x y (Table2D_after pts t0)) = Ok v).
Proof.
  intros Hix Hiy Hlen Hmk.
  pose proof (makeImpl_self _ _ _ _ _ _ _ _ _ _ _ Hmk ltac:(discriminate)) as Hself0.
  destruct (Table2D_state _ _ _ _ _ _ _ _ _ pts Hix Hiy Hlen Hmk)
    as (Hinv & Hxv & Hyv & Hxn & Hyn & Hv & Hny & Hself & Hx2 & Hy2).
  set (t := Table2D_after pts t0) in *. clearbody t.
  destruct (lookup2_bracket t x y Hinv) as (i & j & El & _ & Hi & Hj & Hbx & _).
  pose proof (Conv_interp_ok_iff t x y i j Hinv Hi Hj) as Hiff.
  pose proof (Conv_interp_only_out_of_bounds t x y i j) as Honly.
  rewrite Hxv, Hxn in *. rewrite Hyn in *. rewrite El.
  unfold Table2D.interp. rewrite Hself, Hself0. cbn [derived_of].
  assert (H01 : (elt xargs 0 < elt xargs 1)%Q)
    by (apply increasing_elt; [assumption|lia..]).
  assert (Hlast : (elt xargs (len xargs - 2) < elt xargs (len xargs - 1))%Q)
    by (apply increasing_elt; [assumption|lia..]).
  split.
  - intros Hedge.
    assert (Hi' : i = 1 \/ i = len xargs - 1).
    { destruct Hbx as [[_ ->]|[[_ ->]|[Hb1 Hb2]]]; [now left|now right|].
      destruct Hedge as [He|He].
      - left. destruct (Z.eq_dec i 1) as [|Hne]; [assumption|].
        assert (elt xargs 1 <= elt xargs (i - 1))%Q
          by (apply increasing_elt_le; [assumption|lia..]). lra.
      - right. destruct (Z.eq_dec i (len xargs - 1)) as [|Hne]; [assumption|].
        assert (elt xargs i <= elt xargs (len xargs - 2))%Q
          by (apply increasing_elt_le; [assumption|lia..]). lra. }
    destruct (Table2D.Conv_interp t x y i j) as [v|e] eqn:E.
    + exfalso. destruct Hiff as [Hiff _].
      specialize (Hiff (ex_intro _ v eq_refl)). lia.
    + cbn in Honly. now subst e.
  - intros Hsix [Hlo Hhi]. apply Hiff.
    assert (elt xargs 0 <= elt xargs 2)%Q
      by (apply increasing_elt_le; [assumption|lia..]).
    assert (elt xargs (len xargs - 3) <= elt xargs (len xargs - 1))%Q
      by (apply increasing_elt_le; [assumption|lia..]).
    destruct Hbx as [[Hout _]|[[Hout _]|[Hb1 Hb2]]]; [lra|lra|].
    assert (2 < i).
    { destruct (Z_lt_dec 2 i) as [|Hge]; [assumption|].
      assert (elt xargs i <= elt xargs 2)%Q
        by (apply increasing_elt_le; [assumption|lia..]). lra. }
    assert (i - 1 < len xargs - 3).
    { destruct (Z_lt_dec (i - 1) (len xargs - 3)) as [|Hge]; [assumption|].
      assert (elt xargs (len xargs - 3) <= elt xargs (i - 1))%Q
        by (apply increasing_elt_le; [assumption|lia..]). lra. }
    split; left; lia.
Qed.

(** X19.  A cubic-convolution lookup with [x] before the second node or
    after the second-to-last node of the x axis reads outside the array of
    values, for every [y]. *)
Theorem convolution_lookup_edges
        (xargs yargs vals dfdx dfdy d2fdxdy : list Q) (ko : option InterpolantXY)
        (t0 : Table2D.Table2DImpl) (pts : list (Q * Q)) (x y : Q) :
  increasing xargs -> increasing yargs ->
  len vals = len xargs * len yargs ->
  Table2D.makeImpl xargs yargs vals (len xargs) (len yargs)
    Table2D.cubicConvolve dfdx dfdy d2fdxdy ko = Ok t0 ->
  (x < elt xargs 1)%Q \/ (elt xargs (len xargs - 2) < x)%Q ->
  fst (Table2D.lookup x y (Table2D_after pts t0)) = Err OutOfBounds.
Proof.
  intros Hix Hiy Hlen Hmk Hedge.
  now apply (convolution_lookup_cases xargs yargs vals dfdx dfdy d2fdxdy ko t0
               pts x y Hix Hiy Hlen Hmk).
Qed.

Lemma convolution_lookup_edges_witness :
  fst (Table2D.lookup (1 # 2) 1
         (Table2D_after [(4%Q, 1%Q)]
            (Table2D.mkImpl
               (ArgVec.mk [0; 2; 3; 5; 6; 7]%Q 6 (2 # 1000000) (1 # 1000000) false
                  (7 # 5) 1)
               (ArgVec.mk [0; 2]%Q 2 (2 # 1000000) (2 # 1000000) true (2 # 1) 1)
               [0; 1; 2; 3; 4; 5; 6; 7; 8; 9; 10; 11]%Q 2
               Table2D.T2DCubicConvolution)))
  = Err OutOfBounds.
Proof.
  apply (convolution_lookup_edges [0; 2; 3; 5; 6; 7]%Q [0; 2]%Q
           [0; 1; 2; 3; 4; 5; 6; 7; 8; 9; 10; 11]%Q [] [] [] None).
  - simpl. repeat split; reflexivity.
  - simpl. repeat split; reflexivity.
  - reflexivity.
  - vm_compute. reflexivity.
  - left. vm_compute. reflexivity.
Defined.

(** X20.  A cubic-convolution lookup with [x] strictly between the third
    node and the third-to-last node of the x axis returns a value for
    every [y], inside the domain of y or not: along y the stencil is not
    kept inside the grid, it runs over into the neighbouring rows of the
    array. *)
Theorem convolution_lookup_wraps
        (xargs yargs vals dfdx dfdy d2fdxdy : list Q) (ko : option InterpolantXY)
        (t0 : Table2D.Table2DImpl) (pts : list (Q * Q)) (x y : Q) :
  increasing xargs -> increasing yargs ->
  len vals = len xargs * len yargs ->
  Table2D.makeImpl xargs yargs vals (len xargs) (len yargs)
    Table2D.cubicConvolve dfdx dfdy d2fdxdy ko = Ok t0 ->
  6 <= len xargs ->
  (elt xargs 2 < x < elt xargs (len xargs - 3))%Q ->
  exists v, fst (Table2D.lookup x y (Table2D_after pts t0)) = Ok v.
Proof.
  intros Hix Hiy Hlen Hmk Hsix Hx.
  now apply (convolution_lookup_cases xargs yargs vals dfdx dfdy d2fdxdy ko t0
               pts x y Hix Hiy Hlen Hmk).
Qed.

Lemma convolution_lookup_wraps_witness :
  exists v,
    fst (Table2D.lookup 4 100
           (Table2D_after [(4%Q, 1%Q)]
              (Table2D.mkImpl
                 (ArgVec.mk [0; 2; 3; 5; 6; 7]%Q 6 (2 # 1000000) (1 # 1000000) false
                    (7 # 5) 1)
                 (ArgVec.mk [0; 2]%Q 2 (2 # 1000000) (2 # 1000000) true (2 # 1) 1)
                 [0; 1; 2; 3; 4; 5; 6; 7; 8; 9; 10; 11]%Q 2
                 Table2D.T2DCubicConvolution)))
    = Ok v.
Proof.
  apply (convolution_lookup_wraps [0; 2; 3; 5; 6; 7]%Q [0; 2]%Q
           [0; 1; 2; 3; 4; 5; 6; 7; 8; 9; 10; 11]%Q [] [] [] None).
  - simpl. repeat split; reflexivity.
  - simpl. repeat split; reflexivity.
  - reflexivity.
  - vm_compute. reflexivity.
  - vm_compute. discriminate.
  - vm_compute. split; reflexivity.
Defined.

(** Along one axis, a query strictly between the second node and the
    second-to-last one has a bracket that leaves a node on each side. *)
Lemma inner_bracket (v : list Q) (a : Q) (i : Z) :
  increasing v -> 2 <= len v -> 1 <= i <= len v - 1 ->
  ((a < elt v 0)%Q /\ i = 1
   \/ (elt v (len v - 1) < a)%Q /\ i = len v - 1
   \/ (elt v (i - 1) <= a <= elt v i)%Q) ->
  (elt v 1 < a < elt v (len v - 2))%Q ->
  2 <= i <= len v - 2.
Proof.
  intros Hv Hn Hi Hb [Hlo Hhi].
  assert (elt v 0 <= elt v 1)%Q by (apply increasing_elt_le; [assumption|lia..]).
  assert (elt v (len v - 2) <= elt v (len v - 1))%Q
    by (apply increasing_elt_le; [assumption|lia..]).
  destruct Hb as [[Hout _]|[[Hout _]|[Hb1 Hb2]]]; [lra|lra|].
  split.
  - destruct (Z.eq_dec i 1) as [->|]; [lra|lia].
  - destruct (Z.eq_dec i (len v - 1)) as [->|]; [|lia].
    replace (len v - 1 - 1) with (len v - 2) in Hb1 by lia. lra.
Qed.

(** X21.  Under exact arithmetic, the cubic convolution reproduces its
    data at the nodes that have two nodes on each side along both axes: at
    node [(k, l)] with [2 <= k <= nx-3] and [2 <= l <= ny-3] the lookup
    returns [vals[k][l]], for each of the brackets the two searches may
    settle on and whatever the spacing of the grid. *)
Theorem convolution_at_nodes
        (xargs yargs vals dfdx dfdy d2fdxdy : list Q) (ko : option InterpolantXY)
        (t0 : Table2D.Table2DImpl) (pts : list (Q * Q)) (k l : Z) :
  increasing xargs -> increasing yargs ->
  len vals = len xargs * len yargs ->
  Table2D.makeImpl xargs yargs vals (len xargs) (len yargs)
    Table2D.cubicConvolve dfdx dfdy d2fdxdy ko = Ok t0 ->
  2 <= k <= len xargs - 3 -> 2 <= l <= len yargs - 3 ->
  exists v,
    fst (Table2D.lookup (elt xargs k) (elt yargs l) (Table2D_after pts t0)) = Ok v
    /\ (v == elt vals (k * len yargs + l))%Q.
Proof.
  intros Hix Hiy Hlen Hmk Hk Hl.
  pose proof (makeImpl_self _ _ _ _ _ _ _ _ _ _ _ Hmk ltac:(discriminate)) as Hself0.
  destruct (Table2D_state _ _ _ _ _ _ _ _ _ pts Hix Hiy Hlen Hmk)
    as (Hinv & Hxv & Hyv & Hxn & Hyn & Hv & Hny & Hself & Hx2 & Hy2).
  set (t := Table2D_after pts t0) in *. clearbody t.
  destruct (lookup2_bracket t (elt xargs k) (elt yargs l) Hinv)
    as (i & j & El & _ & Hi & Hj & Hbx & Hby).
  rewrite Hxv, Hxn in *. rewrite Hyv, Hyn in *. rewrite El.
  pose proof (node_bracket xargs i k Hix ltac:(lia) Hi Hbx) as Hik.
  pose proof (node_bracket yargs j l Hiy ltac:(lia) Hj Hby) as Hjl.
  clear Hbx Hby El.
  unfold Table2D.interp. rewrite Hself, Hself0. cbn [derived_of].
  unfold Table2D.Conv_interp, ArgVec.at_. cbv zeta.
  rewrite Hxv, Hyv, Hv, Hny.
  rewrite !get_ok by first [lia | rewrite Hlen; apply grid_index; lia].
  cbn [bind].
  assert (elt xargs (i - 1) < elt xargs i)%Q
    by (apply increasing_elt; [assumption|lia..]).
  assert (elt yargs (j - 1) < elt yargs j)%Q
    by (apply increasing_elt; [assumption|lia..]).
  unfold Table2D.Conv_oneDSpline.
  eexists. split; [reflexivity|].
  destruct Hik as [-> | ->], Hjl as [-> | ->];
    replace (k + 1 - 1) with k in * by lia;
    replace (l + 1 - 1) with l in * by lia;
    replace (k + 0) with k in * by lia;
    replace (l + 0) with l in * by lia;
    field; split; lra.
Qed.

Lemma convolution_at_nodes_witness :
  exists v,
    fst (Table2D.lookup (elt [0; 1; 2; 4; 5]%Q 2) (elt [0; 1; 2; 4; 5]%Q 2)
           (Table2D_after [((5 # 2)%Q, (1 # 2)%Q)]
              (Table2D.mkImpl
                 (ArgVec.mk [0; 1; 2; 4; 5]%Q 5 (1 # 1000000) (1 # 1000000) false
                    (5 # 4) 1)
                 (ArgVec.mk [0; 1; 2; 4; 5]%Q 5 (1 # 1000000) (1 # 1000000) false
                    (5 # 4) 1)
                 [1; 4; 1; 5; 9; 2; 6; 5; 3; 5; 8; 9; 7; 9; 3; 2; 3; 8; 4; 6;
                  2; 6; 4; 3; 3]%Q 5 Table2D.T2DCubicConvolution)))
    = Ok v
    /\ (v == elt [1; 4; 1; 5; 9; 2; 6; 5; 3; 5; 8; 9; 7; 9; 3; 2; 3; 8; 4; 6;
                  2; 6; 4; 3; 3]%Q (2 * len [0; 1; 2; 4; 5]%Q + 2))%Q.
Proof.
  apply (convolution_at_nodes [0; 1; 2; 4; 5]%Q [0; 1; 2; 4; 5]%Q
           [1; 4; 1; 5; 9; 2; 6; 5; 3; 5; 8; 9; 7; 9; 3; 2; 3; 8; 4; 6;
            2; 6; 4; 3; 3]%Q [] [] [] None).
  - simpl. repeat split; reflexivity.
  - simpl. repeat split; reflexivity.
  - reflexivity.
  - vm_compute. reflexivity.
  - vm_compute. split; discriminate.
  - vm_compute. split; discriminate.
Defined.

(** X22.  Under exact arithmetic, on a grid equally spaced along each
    axis the cubic convolution reproduces bilinear data: when the grid
    holds [f(x, y) = a + b x + c y + d x y] at every node, then for a
    query strictly between the second and the second-to-last node of each
    axis the lookup returns [f(x, y)] and the gradient call returns
    [(b + d y, c + d x)]. *)
Theorem convolution_reproduces_bilinear
        (xargs yargs vals dfdx dfdy d2fdxdy : list Q) (ko : option InterpolantXY)
        (t0 : Table2D.Table2DImpl) (pts : list (Q * Q))
        (hx hy a b c d x y : Q) :
  increasing xargs -> increasing yargs ->
  len vals = len xargs * len yargs ->
  Table2D.makeImpl xargs yargs vals (len xargs) (len yargs)
    Table2D.cubicConvolve dfdx dfdy d2fdxdy ko = Ok t0 ->
  (forall k, 1 <= k <= len xargs - 1 ->
             (elt xargs k - elt xargs (k - 1) == hx)%Q) ->
  (forall l, 1 <= l <= len yargs - 1 ->
             (elt yargs l - elt yargs (l - 1) == hy)%Q) ->
  (forall k l, 0 <= k <= len xargs - 1 -> 0 <= l <= len yargs - 1 ->
               (elt vals (k * len yargs + l)
                == a + b * elt xargs k + c * elt yargs l
                   + d * elt xargs k * elt yargs l)%Q) ->
  (elt xargs 1 < x < elt xargs (len xargs - 2))%Q ->
  (elt yargs 1 < y < elt yargs (len yargs - 2))%Q ->
  (exists v, fst (Table2D.lookup x y (Table2D_after pts t0)) = Ok v
             /\ (v == a + b * x + c * y + d * x * y)%Q)
  /\ (exists g, fst (Table2D.gradient x y (Table2D_after pts t0)) = Ok g
                /\ (fst g == b + d * y)%Q /\ (snd g == c + d * x)%Q).
Proof.
  intros Hix Hiy Hlen Hmk Hhx Hhy Hbil Hx Hy.
  pose proof (makeImpl_self _ _ _ _ _ _ _ _ _ _ _ Hmk ltac:(discriminate)) as Hself0.
  destruct (Table2D_state _ _ _ _ _ _ _ _ _ pts Hix Hiy Hlen Hmk)
    as (Hinv & Hxv & Hyv & Hxn & Hyn & Hv & Hny & Hself & Hx2 & Hy2).
  set (t := Table2D_after pts t0) in *. clearbody t.
  destruct (lookup2_bracket t x y Hinv) as (i & j & El & Eg & Hi & Hj & Hbx & Hby).
  rewrite Hxv, Hxn in *. rewrite Hyv, Hyn in *. rewrite El, Eg.
  pose proof (inner_bracket xargs x i Hix Hx2 Hi Hbx Hx) as Hir.
  pose proof (inner_bracket yargs y j Hiy Hy2 Hj Hby Hy) as Hjr.
  clear Hbx Hby El Eg.
  unfold Table2D.interp, Table2D.grad. rewrite Hself, Hself0. cbn [derived_of].
  unfold Table2D.Conv_interp, Table2D.Conv_grad, ArgVec.at_. cbv zeta.
  rewrite Hxv, Hyv, Hv, Hny.
  rewrite !get_ok by first [lia | rewrite Hlen; apply grid_index; lia].
  cbn [bind].
  assert (Hxi : (elt xargs i == elt xargs (i - 1) + hx)%Q)
    by (rewrite <- (Hhx i) by lia; ring).
  assert (Hxm : (elt xargs (i - 2) == elt xargs (i - 1) - hx)%Q).
  { rewrite <- (Hhx (i - 1)) by lia.
    replace (i - 1 - 1) with (i - 2) by lia. ring. }
  assert (Hxp : (elt xargs (i + 1) == elt xargs (i - 1) + 2 * hx)%Q).
  { pose proof (Hhx (i + 1) ltac:(lia)) as E.
    replace (i + 1 - 1) with i in E by lia. lra. }
  assert (Hyj : (elt yargs j == elt yargs (j - 1) + hy)%Q)
    by (rewrite <- (Hhy j) by lia; ring).
  assert (Hym : (elt yargs (j - 2) == elt yargs (j - 1) - hy)%Q).
  { rewrite <- (Hhy (j - 1)) by lia.
    replace (j - 1 - 1) with (j - 2) by lia. ring. }
  assert (Hyp : (elt yargs (j + 1) == elt yargs (j - 1) + 2 * hy)%Q).
  { pose proof (Hhy (j + 1) ltac:(lia)) as E.
    replace (j + 1 - 1) with j in E by lia. lra. }
  assert (0 < hx)%Q.
  { assert (elt xargs (i - 1) < elt xargs i)%Q
      by (apply increasing_elt; [assumption|lia..]). lra. }
  assert (0 < hy)%Q.
  { assert (elt yargs (j - 1) < elt yargs j)%Q
      by (apply increasing_elt; [assumption|lia..]). lra. }
  unfold Table2D.Conv_oneDSpline, Table2D.Conv_oneDGrad.
  replace (i + 0) with i by lia. replace (j + 0) with j by lia.
  split.
  - eexists. split; [reflexivity|].
    rewrite !Hbil by lia. rewrite Hxm, Hxp, Hym, Hyp, Hxi, Hyj.
    field. split; lra.
  - eexists. split; [reflexivity|]. cbn [fst snd].
    rewrite !Hbil by lia. rewrite Hxm, Hxp, Hym, Hyp, Hxi, Hyj.
    split; field; split; lra.
Qed.

Lemma convolution_reproduces_bilinear_witness :
  (exists v,
      fst (Table2D.lookup (3 # 2) (5 # 4)
             (Table2D_after [(2%Q, 2%Q)]
                (Table2D.mkImpl
                   (ArgVec.mk [0; 1; 2; 3]%Q 4 (1 # 1000000) (1 # 1000000) true
                      (3 # 3) 1)
                   (ArgVec.mk [0; 1; 2; 3]%Q 4 (1 # 1000000) (1 # 1000000) true
                      (3 # 3) 1)
                   [1; 3; 5; 7; 2; 5; 8; 11; 3; 7; 11; 15; 4; 9; 14; 19]%Q 4
                   Table2D.T2DCubicConvolution)))
      = Ok v
      /\ (v == 1 + 1 * (3 # 2) + 2 * (5 # 4) + 1 * (3 # 2) * (5 # 4))%Q)
  /\ (exists g,
         fst (Table2D.gradient (3 # 2) (5 # 4)
                (Table2D_after [(2%Q, 2%Q)]
                   (Table2D.mkImpl
                      (ArgVec.mk [0; 1; 2; 3]%Q 4 (1 # 1000000) (1 # 1000000) true
                         (3 # 3) 1)
                      (ArgVec.mk [0; 1; 2; 3]%Q 4 (1 # 1000000) (1 # 1000000) true
                         (3 # 3) 1)
                      [1; 3; 5; 7; 2; 5; 8; 11; 3; 7; 11; 15; 4; 9; 14; 19]%Q 4
                      Table2D.T2DCubicConvolution)))
         = Ok g
         /\ (fst g == 1 + 1 * (5 # 4))%Q /\ (snd g == 2 + 1 * (3 # 2))%Q).
Proof.
  apply (convolution_reproduces_bilinear [0; 1; 2; 3]%Q [0; 1; 2; 3]%Q
           [1; 3; 5; 7; 2; 5; 8; 11; 3; 7; 11; 15; 4; 9; 14; 19]%Q [] [] [] None
           _ _ 1 1).
  - simpl. repeat split; reflexivity.
  - simpl. repeat split; reflexivity.
  - reflexivity.
  - vm_compute. reflexivity.
  - intros k Hk. change (len [0; 1; 2; 3]%Q) with 4 in Hk.
    assert (k = 1 \/ k = 2 \/ k = 3) as [-> | [-> | ->]] by lia; reflexivity.
  - intros l Hl. change (len [0; 1; 2; 3]%Q) with 4 in Hl.
    assert (l = 1 \/ l = 2 \/ l = 3) as [-> | [-> | ->]] by lia; reflexivity.
  - intros k l Hk Hl. change (len [0; 1; 2; 3]%Q) with 4 in Hk, Hl |- *.
    assert (k = 0 \/ k = 1 \/ k = 2 \/ k = 3) as [-> | [-> | [-> | ->]]] by lia;
      assert (l = 0 \/ l = 1 \/ l = 2 \/ l = 3) as [-> | [-> | [-> | ->]]] by lia;
      reflexivity.
  - vm_compute. split; reflexivity.
  - vm_compute. split; reflexivity.
Defined.

(** ** Two-dimensional tables: exactness at the nodes *)

(** X23.  A 2D table built in floor, ceil, nearest or linear mode
    reproduces its data at the nodes: at node [(k, l)] the lookup returns
    [vals[k][l]], the nodes of the last row and column included, for each
    of the brackets the two searches may settle on. *)
Theorem nodes_reproduced_2d
        (xargs yargs vals dfdx dfdy d2fdxdy : list Q) (ko : option InterpolantXY)
        (m : Table2D.interpolant)
        (t0 : Table2D.Table2DImpl) (pts : list (Q * Q)) (k l : Z) :
  increasing xargs -> increasing yargs ->
  len vals = len xargs * len yargs ->
  m = Table2D.floor \/ m = Table2D.ceil \/ m = Table2D.nearest
  \/ m = Table2D.linear ->
  Table2D.makeImpl xargs yargs vals (len xargs) (len yargs)
    m dfdx dfdy d2fdxdy ko = Ok t0 ->
  0 <= k <= len xargs - 1 -> 0 <= l <= len yargs - 1 ->
  exists v,
    fst (Table2D.lookup (elt xargs k) (elt yargs l) (Table2D_after pts t0)) = Ok v
    /\ (v == elt vals (k * len yargs + l))%Q.
Proof.
  intros Hix Hiy Hlen Hm Hmk Hk Hl.
  assert (Hm' : m <> Table2D.interpolant2d)
    by (destruct Hm as [-> | [-> | [-> | ->]]]; discriminate).
  pose proof (makeImpl_self _ _ _ _ _ _ _ _ _ _ _ Hmk Hm') as Hself0.
  destruct (Table2D_state _ _ _ _ _ _ _ _ _ pts Hix Hiy Hlen Hmk)
    as (Hinv & Hxv & Hyv & Hxn & Hyn & Hv & Hny & Hself & Hx2 & Hy2).
  set (t := Table2D_after pts t0) in *. clearbody t.
  destruct (lookup2_bracket t (elt xargs k) (elt yargs l) Hinv)
    as (i & j & El & _ & Hi & Hj & Hbx & Hby).
  rewrite Hxv, Hxn in *. rewrite Hyv, Hyn in *. rewrite El.
  pose proof (node_bracket xargs i k Hix Hk Hi Hbx) as Hik.
  pose proof (node_bracket yargs j l Hiy Hl Hj Hby) as Hjl.
  clear Hbx Hby El.
  assert (Hxs : (elt xargs (i - 1) < elt xargs i)%Q)
    by (apply increasing_elt; [assumption|lia..]).
  assert (Hys : (elt yargs (j - 1) < elt yargs j)%Q)
    by (apply increasing_elt; [assumption|lia..]).
  unfold Table2D.interp. rewrite Hself, Hself0.
  destruct Hm as [-> | [-> | [-> | ->]]]; cbn [derived_of];
    unfold Table2D.Floor_interp, Table2D.Ceil_interp, Table2D.Nearest_interp,
      Table2D.Linear_interp, ArgVec.at_; cbv zeta;
    rewrite Hxv, Hyv, Hv, Hny;
    rewrite !get_ok by first [lia | rewrite Hlen; apply grid_index; lia];
    cbn [bind].
  - (* floor *)
    destruct (Qeq_dec (elt xargs k) (elt xargs i)) as [Ex|Ex],
             (Qeq_dec (elt yargs l) (elt yargs j)) as [Ey|Ey];
      destruct Hik as [-> | ->], Hjl as [-> | ->];
      replace (k + 1 - 1) with k in * by lia;
      replace (l + 1 - 1) with l in * by lia;
      try (exfalso; lra); try (destruct Ex; reflexivity);
      try (destruct Ey; reflexivity);
      match goal with
      | |- exists v, get _ ?idx = _ /\ _ =>
          replace idx with (k * len yargs + l) by lia
      end;
      (rewrite get_ok by (rewrite Hlen; apply grid_index; lia));
      eexists; (split; reflexivity).
  - (* ceil *)
    destruct (Qeq_dec (elt xargs k) (elt xargs (i - 1))) as [Ex|Ex],
             (Qeq_dec (elt yargs l) (elt yargs (j - 1))) as [Ey|Ey];
      destruct Hik as [-> | ->], Hjl as [-> | ->];
      replace (k + 1 - 1) with k in * by lia;
      replace (l + 1 - 1) with l in * by lia;
      try (exfalso; lra); try (destruct Ex; reflexivity);
      try (destruct Ey; reflexivity);
      match goal with
      | |- exists v, get _ ?idx = _ /\ _ =>
          replace idx with (k * len yargs + l) by lia
      end;
      (rewrite get_ok by (rewrite Hlen; apply grid_index; lia));
      eexists; (split; reflexivity).
  - (* nearest *)
    destruct (Qlt_le_dec (elt xargs k - elt xargs (i - 1))
                (elt xargs i - elt xargs k)) as [Ex|Ex],
             (Qlt_le_dec (elt yargs l - elt yargs (j - 1))
                (elt yargs j - elt yargs l)) as [Ey|Ey];
      destruct Hik as [-> | ->], Hjl as [-> | ->];
      replace (k + 1 - 1) with k in * by lia;
      replace (l + 1 - 1) with l in * by lia;
      try (exfalso; lra);
      match goal with
      | |- exists v, get _ ?idx = _ /\ _ =>
          replace idx with (k * len yargs + l) by lia
      end;
      (rewrite get_ok by (rewrite Hlen; apply grid_index; lia));
      eexists; (split; reflexivity).
  - (* linear *)
    eexists. split; [reflexivity|].
    destruct Hik as [-> | ->], Hjl as [-> | ->];
      replace (k + 1 - 1) with k in * by lia;
      replace (l + 1 - 1) with l in * by lia;
      field; split; lra.
Qed.

Lemma nodes_reproduced_2d_witness :
  exists v,
    fst (Table2D.lookup (elt [0; 1; 3]%Q 2) (elt [0; 1; 3]%Q 0)
           (Table2D_after [((1 # 2)%Q, (5 # 2)%Q)]
              (Table2D.mkImpl
                 (ArgVec.mk [0; 1; 3]%Q 3 (1 # 1000000) (2 # 1000000) false (3 # 2) 1)
                 (ArgVec.mk [0; 1; 3]%Q 3 (1 # 1000000) (2 # 1000000) false (3 # 2) 1)
                 [1; 2; 3; 4; 5; 6; 7; 8; 9]%Q 3 Table2D.T2DFloor)))
    = Ok v
    /\ (v == elt [1; 2; 3; 4; 5; 6; 7; 8; 9]%Q (2 * len [0; 1; 3]%Q + 0))%Q.
Proof.
  apply (nodes_reproduced_2d [0; 1; 3]%Q [0; 1; 3]%Q
           [1; 2; 3; 4; 5; 6; 7; 8; 9]%Q [] [] [] None Table2D.floor).
  - simpl. repeat split; reflexivity.
  - simpl. repeat split; reflexivity.
  - reflexivity.
  - left. reflexivity.
  - vm_compute. reflexivity.
  - vm_compute. split; discriminate.
  - vm_compute. split; discriminate.
Defined.

(** ** Two-dimensional tables: the modes that never leave the grid *)

Lemma Interp_inner_ok (t : Table2D.Table2DImpl) (k : InterpolantXY) (i j : Z)
      (dx dy : Q) (iy nx : Z) (n : nat) :
  len (Table2D._vals t) = nx * Table2D._ny t ->
  0 <= iy < Table2D._ny t ->
  forall (ix : Z) (sum : Q),
    0 <= ix -> ix + Z.of_nat n <= nx ->
    exists v, Table2D.Interp_inner t n k i j dx dy iy ix sum = Ok v.
Proof.
  intros Hv Hiy. induction n as [|n IH]; intros ix sum Hix Hn.
  - exists sum. reflexivity.
  - cbn [Table2D.Interp_inner].
    rewrite get_ok by (rewrite Hv; apply grid_index; lia). cbn [bind].
    apply IH; lia.
Qed.

Lemma Interp_outer_ok (t : Table2D.Table2DImpl) (k : InterpolantXY) (i j : Z)
      (dx dy : Q) (ixMin ixMax nx : Z) (n : nat) :
  len (Table2D._vals t) = nx * Table2D._ny t ->
  0 <= ixMin -> ixMax <= nx - 1 -> ixMin <= ixMax ->
  forall (iy : Z) (sum : Q),
    0 <= iy -> iy + Z.of_nat n <= Table2D._ny t ->
    exists v, Table2D.Interp_outer t n k i j dx dy ixMin ixMax iy sum = Ok v.
Proof.
  intros Hv Hlo Hhi Hle. induction n as [|n IH]; intros iy sum Hiy Hn.
  - exists sum. reflexivity.
  - cbn [Table2D.Interp_outer].
    destruct (Interp_inner_ok t k i j dx dy iy nx (Z.to_nat (ixMax - ixMin + 1))
                Hv ltac:(lia) ixMin sum Hlo ltac:(lia)) as (s & ->).
    cbn [bind]. apply IH; lia.
Qed.

(** In every class but the two cubic ones the interpolation reads inside
    the grid at every bracket. *)
Lemma interp_total (t : Table2D.Table2DImpl) (x y : Q) (i j : Z) :
  Table2D_inv t ->
  1 <= i <= ArgVec._n (Table2D._xargs t) - 1 ->
  1 <= j <= ArgVec._n (Table2D._yargs t) - 1 ->
  (forall p q r, Table2D.self t <> Table2D.T2DCubic p q r) ->
  Table2D.self t <> Table2D.T2DCubicConvolution ->
  exists v, Table2D.interp t x y i j = Ok v.
Proof.
  intros [[Hxn _ _ _ _] [Hyn _ _ _ _] Hny Hv Hnx] Hi Hj Hc Hcc.
  assert (Hg : forall ii jj, 0 <= ii < ArgVec._n (Table2D._xargs t) ->
                             0 <= jj < Table2D._ny t ->
                             0 <= ii * Table2D._ny t + jj < len (Table2D._vals t))
    by (intros ii jj Hii Hjj; rewrite Hv; now apply grid_index).
  unfold Table2D.interp.
  destruct (Table2D.self t) as [| | | |p q r| |nx k] eqn:Hself.
  - unfold Table2D.Floor_interp, ArgVec.at_. cbv zeta.
    rewrite !get_ok by lia. cbn [bind].
    destruct (Qeq_dec x _), (Qeq_dec y _);
      match goal with
      | |- exists v, get _ ((?ii - 1) * ?ny + ?jj - 1) = _ =>
          replace ((ii - 1) * ny + jj - 1) with ((ii - 1) * ny + (jj - 1)) by lia
      end;
      (rewrite get_ok by (apply Hg; lia)); eexists; reflexivity.
  - unfold Table2D.Ceil_interp, ArgVec.at_. cbv zeta.
    rewrite !get_ok by lia. cbn [bind].
    destruct (Qeq_dec x _), (Qeq_dec y _);
      (rewrite get_ok by (apply Hg; lia)); eexists; reflexivity.
  - unfold Table2D.Nearest_interp, ArgVec.at_. cbv zeta.
    rewrite !get_ok by lia. cbn [bind].
    destruct (Qlt_le_dec (x - _) _), (Qlt_le_dec (y - _) _);
      (rewrite get_ok by (apply Hg; lia)); eexists; reflexivity.
  - unfold Table2D.Linear_interp, ArgVec.at_. cbv zeta.
    rewrite !(get_ok (ArgVec._vec _)) by lia. cbn [bind].
    rewrite !get_ok by (apply Hg; lia). cbn [bind].
    eexists; reflexivity.
  - now destruct (Hc p q r).
  - now destruct Hcc.
  - pose proof (Hnx nx k eq_refl) as ->.
    unfold Table2D.Interp_interp, ArgVec.at_. cbv zeta.
    rewrite !get_ok by lia. cbn [bind].
    match goal with |- context [?hi <? ?lo] => destruct (Z.ltb_spec hi lo) end;
      [eexists; reflexivity|].
    match goal with |- context [?hi <? ?lo] => destruct (Z.ltb_spec hi lo) end;
      [eexists; reflexivity|].
    eapply Interp_outer_ok; try exact Hv; lia.
Qed.

(** The class of a table built in a mode other than the two cubic ones. *)
Lemma makeImpl_not_cubic (xargs yargs vals dfdx dfdy d2fdxdy : list Q) (Nx Ny : Z)
      (m : Table2D.interpolant) (ko : option InterpolantXY)
      (t0 : Table2D.Table2DImpl) :
  Table2D.makeImpl xargs yargs vals Nx Ny m dfdx dfdy d2fdxdy ko = Ok t0 ->
  m <> Table2D.cubic -> m <> Table2D.cubicConvolve ->
  (forall p q r, Table2D.self t0 <> Table2D.T2DCubic p q r)
  /\ Table2D.self t0 <> Table2D.T2DCubicConvolution.
Proof.
  intros Hmk Hc Hcc. unfold Table2D.makeImpl, Table2D.T2DCRTP_new in Hmk.
  destruct m; try discriminate Hmk; try (now destruct Hc); try (now destruct Hcc);
    try destruct ko as [k|]; try discriminate Hmk;
    apply bind_Ok in Hmk as (xa & _ & Hmk);
    apply bind_Ok in Hmk as (ya & _ & Hmk);
    injection Hmk as <-; cbn; split; try intros p q r; discriminate.
Qed.

Lemma lookup2_total (xargs yargs vals dfdx dfdy d2fdxdy : list Q)
      (ko : option InterpolantXY) (m : Table2D.interpolant)
      (t0 : Table2D.Table2DImpl) (pts : list (Q * Q)) (x y : Q) :
  increasing xargs -> increasing yargs ->
  len vals = len xargs * len yargs ->
  m <> Table2D.cubic -> m <> Table2D.cubicConvolve ->
  Table2D.makeImpl xargs yargs vals (len xargs) (len yargs)
    m dfdx dfdy d2fdxdy ko = Ok t0 ->
  exists v, fst (Table2D.lookup x y (Table2D_after pts t0)) = Ok v.
Proof.
  intros Hix Hiy Hlen Hc Hcc Hmk.
  destruct (makeImpl_not_cubic _ _ _ _ _ _ _ _ _ _ _ Hmk Hc Hcc) as [Hs1 Hs2].
  destruct (Table2D_state _ _ _ _ _ _ _ _ _ pts Hix Hiy Hlen Hmk)
    as (Hinv & _ & _ & _ & _ & _ & _ & Hself & _ & _).
  set (t := Table2D_after pts t0) in *. clearbody t.
  destruct (lookup2_bracket t x y Hinv) as (i & j & El & _ & Hi & Hj & _ & _).
  rewrite El. apply interp_total; try assumption; rewrite Hself; assumption.
Qed.

(** X24.  In floor, ceil, nearest, linear and kernel mode a lookup returns
    a value for every query point, in every state: the shifted indices of
    the step modes and the clamped window of the kernel stay inside the
    grid, so that no read leaves the array of values. *)
Theorem lookup_total_2d
        (xargs yargs vals dfdx dfdy d2fdxdy : list Q) (ko : option InterpolantXY)
        (m : Table2D.interpolant)
        (t0 : Table2D.Table2DImpl) (pts : list (Q * Q)) (x y : Q) :
  increasing xargs -> increasing yargs ->
  len vals = len xargs * len yargs ->
  m <> Table2D.cubic -> m <> Table2D.cubicConvolve ->
  Table2D.makeImpl xargs yargs vals (len xargs) (len yargs)
    m dfdx dfdy d2fdxdy ko = Ok t0 ->
  exists v, fst (Table2D.lookup x y (Table2D_after pts t0)) = Ok v.
Proof. apply lookup2_total. Qed.

Lemma lookup_total_2d_witness :
  exists v,
    fst (Table2D.lookup (7 # 2) (- (1))
           (Table2D_after [((1 # 2)%Q, (5 # 2)%Q)]
              (Table2D.mkImpl
                 (ArgVec.mk [0; 1; 3]%Q 3 (1 # 1000000) (2 # 1000000) false (3 # 2) 1)
                 (ArgVec.mk [0; 1; 3]%Q 3 (1 # 1000000) (2 # 1000000) false (3 # 2) 1)
                 [1; 2; 3; 4; 5; 6; 7; 8; 9]%Q 3
                 (Table2D.T2DInterpolant2D 3
                    (mkInterpolantXY true (3 # 2) (fun u v => (1 - u) * (1 - v))%Q)))))
    = Ok v.
Proof.
  apply (lookup_total_2d [0; 1; 3]%Q [0; 1; 3]%Q [1; 2; 3; 4; 5; 6; 7; 8; 9]%Q
           [] [] []
           (Some (mkInterpolantXY true (3 # 2) (fun u v => (1 - u) * (1 - v))%Q))
           Table2D.interpolant2d).
  - simpl. repeat split; reflexivity.
  - simpl. repeat split; reflexivity.
  - reflexivity.
  - discriminate.
  - discriminate.
  - vm_compute. reflexivity.
Defined.

(** ** Two-dimensional tables: [interpMany] *)

Lemma Table2D_after_app (pts pts' : list (Q * Q)) (t : Table2D.Table2DImpl) :
  Table2D_after (pts ++ pts') t = Table2D_after pts' (Table2D_after pts t).
Proof. unfold Table2D_after. apply fold_left_app. Qed.

(** The loop of [interpMany] over a table whose lookups all return. *)
Lemma interpMany_loop_spec (t0 : Table2D.Table2DImpl) (xvec yvec : list Q) :
  (forall pts x y, exists v, fst (Table2D.lookup x y (Table2D_after pts t0)) = Ok v) ->
  forall (n : nat) (k : Z) (valvec : list Q) (pts : list (Q * Q)),
    0 <= k -> k + Z.of_nat n <= len xvec -> k + Z.of_nat n <= len yvec ->
    k + Z.of_nat n <= len valvec ->
    exists out,
      Table2D.interpMany_loop n k xvec yvec valvec (Table2D_after pts t0)
      = (Ok out, Table2D_after (pts ++ queries n k xvec yvec) t0)
      /\ len out = len valvec
      /\ (forall q, k <= q < k + Z.of_nat n ->
                    fst (Table2D.lookup (elt xvec q) (elt yvec q)
                           (Table2D_after
                              (pts ++ queries (Z.to_nat (q - k)) k xvec yvec) t0))
                    = Ok (elt out q))
      /\ (forall q, 0 <= q -> ~ k <= q < k + Z.of_nat n ->
                    elt out q = elt valvec q).
Proof.
  intros Htotal. induction n as [|n IH]; intros k valvec pts Hk Hx Hy Hv.
  - exists valvec. cbn [queries Table2D.interpMany_loop]. rewrite app_nil_r.
    split; [reflexivity|]. split; [reflexivity|]. split; [intros q Hq; lia|].
    reflexivity.
  - cbn [Table2D.interpMany_loop]. unfold mbind at 1, lift at 1.
    rewrite get_ok by lia. unfold mbind at 1, lift at 1.
    rewrite get_ok by lia. unfold mbind at 1.
    destruct (Htotal pts (elt xvec k) (elt yvec k)) as (v & Ev).
    destruct (Table2D.lookup (elt xvec k) (elt yvec k) (Table2D_after pts t0))
      as [r t'] eqn:El.
    cbn [fst] in Ev. subst r.
    assert (t' = Table2D_after (pts ++ [(elt xvec k, elt yvec k)]) t0) as ->.
    { rewrite Table2D_after_app. unfold Table2D_after at 1. cbn [fold_left fst snd].
      now rewrite El. }
    unfold mbind at 1, lift at 1. rewrite put_ok by lia.
    destruct (IH (k + 1) (<[Z.to_nat k := v]> valvec)
                (pts ++ [(elt xvec k, elt yvec k)]))
      as (out & E & Hlen & Hin & Hout); try rewrite len_insert; try lia.
    exists out. rewrite E. cbn [queries]. rewrite <- app_assoc. cbn [app].
    split; [reflexivity|]. split; [now rewrite Hlen, len_insert|]. split.
    + intros q Hq. destruct (Z.eq_dec q k) as [->|Hne].
      * rewrite Hout by lia. rewrite elt_insert_eq by lia.
        replace (k - k) with 0 by lia. cbn [Z.to_nat queries].
        rewrite app_nil_r, El. reflexivity.
      * rewrite <- (Hin q) by lia.
        replace (Z.to_nat (q - k)) with (S (Z.to_nat (q - (k + 1)))) by lia.
        cbn [queries]. rewrite <- app_assoc. reflexivity.
    + intros q Hq Hnot. rewrite Hout by lia. apply elt_insert_ne; lia.
Qed.

(** X25.  On a table built in any mode but the two cubic ones,
    [interpMany] over [N] points never fails: it writes the entries
    [0 .. N-1] of the output array and no other, entry [q] being what the
    lookup of point [q] returns after the lookups of the points before
    it, and it leaves the table in the state these [N] lookups leave it
    in. *)
Theorem interpMany_2d
        (xargs yargs vals dfdx dfdy d2fdxdy : list Q) (ko : option InterpolantXY)
        (m : Table2D.interpolant) (t0 : Table2D.Table2DImpl) (pts : list (Q * Q))
        (xvec yvec valvec : list Q) (N : Z) :
  increasing xargs -> increasing yargs ->
  len vals = len xargs * len yargs ->
  m <> Table2D.cubic -> m <> Table2D.cubicConvolve ->
  Table2D.makeImpl xargs yargs vals (len xargs) (len yargs)
    m dfdx dfdy d2fdxdy ko = Ok t0 ->
  0 <= N -> N <= len xvec -> N <= len yvec -> N <= len valvec ->
  exists out,
    Table2D.interpMany xvec yvec valvec N (Table2D_after pts t0)
    = (Ok out, Table2D_after (pts ++ queries (Z.to_nat N) 0 xvec yvec) t0)
    /\ len out = len valvec
    /\ (forall q, 0 <= q < N ->
                  fst (Table2D.lookup (elt xvec q) (elt yvec q)
                         (Table2D_after
                            (pts ++ queries (Z.to_nat q) 0 xvec yvec) t0))
                  = Ok (elt out q))
    /\ (forall q, N <= q -> elt out q = elt valvec q).
Proof.
  intros Hix Hiy Hlen Hc Hcc Hmk HN Hx Hy Hv.
  destruct (interpMany_loop_spec t0 xvec yvec
              (fun pts' x y =>
                 lookup2_total xargs yargs vals dfdx dfdy d2fdxdy ko m t0 pts' x y
                   Hix Hiy Hlen Hc Hcc Hmk)
              (Z.to_nat N) 0 valvec pts)
    as (out & E & Hl & Hin & Hout); try lia.
  exists out. unfold Table2D.interpMany. rewrite E.
  split; [reflexivity|]. split; [exact Hl|]. split.
  - intros q Hq. rewrite <- (Hin q) by lia.
    replace (q - 0) with q by lia. reflexivity.
  - intros q Hq. apply Hout; lia.
Qed.

Lemma interpMany_2d_witness :
  exists out,
    Table2D.interpMany [(1 # 2); 2]%Q [1; (5 # 2)]%Q [0; 0; 42]%Q 2
      (Table2D_after []
         (Table2D.mkImpl
            (ArgVec.mk [0; 1; 3]%Q 3 (1 # 1000000) (2 # 1000000) false (3 # 2) 1)
            (ArgVec.mk [0; 1; 3]%Q 3 (1 # 1000000) (2 # 1000000) false (3 # 2) 1)
            [1; 2; 3; 4; 5; 6; 7; 8; 9]%Q 3 Table2D.T2DLinear))
    = (Ok out,
       Table2D_after ([] ++ queries (Z.to_nat 2) 0 [(1 # 2); 2]%Q [1; (5 # 2)]%Q)
         (Table2D.mkImpl
            (ArgVec.mk [0; 1; 3]%Q 3 (1 # 1000000) (2 # 1000000) false (3 # 2) 1)
            (ArgVec.mk [0; 1; 3]%Q 3 (1 # 1000000) (2 # 1000000) false (3 # 2) 1)
            [1; 2; 3; 4; 5; 6; 7; 8; 9]%Q 3 Table2D.T2DLinear))
    /\ len out = len [0; 0; 42]%Q
    /\ (forall q, 0 <= q < 2 ->
                  fst (Table2D.lookup (elt [(1 # 2); 2]%Q q) (elt [1; (5 # 2)]%Q q)
                         (Table2D_after
                            ([] ++ queries (Z.to_nat q) 0 [(1 # 2); 2]%Q
                                     [1; (5 # 2)]%Q)
                            (Table2D.mkImpl
                               (ArgVec.mk [0; 1; 3]%Q 3 (1 # 1000000) (2 # 1000000)
                                  false (3 # 2) 1)
                               (ArgVec.mk [0; 1; 3]%Q 3 (1 # 1000000) (2 # 1000000)
                                  false (3 # 2) 1)
                               [1; 2; 3; 4; 5; 6; 7; 8; 9]%Q 3 Table2D.T2DLinear)))
                  = Ok (elt out q))
    /\ (forall q, 2 <= q -> elt out q = elt [0; 0; 42]%Q q).
Proof.
  apply (interpMany_2d [0; 1; 3]%Q [0; 1; 3]%Q [1; 2; 3; 4; 5; 6; 7; 8; 9]%Q
           [] [] [] None Table2D.linear).
  - simpl. repeat split; reflexivity.
  - simpl. repeat split; reflexivity.
  - reflexivity.
  - discriminate.
  - discriminate.
  - vm_compute. reflexivity.
  - lia.
  - vm_compute. discriminate.
  - vm_compute. discriminate.
  - vm_compute. discriminate.
Defined.

(** ** Two-dimensional tables: nearest mode *)

(** Along one axis, the end of the bracket that the nearest rule picks is
    a node that no other node is closer to. *)
Lemma nearest_axis (v : list Q) (a : Q) (i : Z) :
  increasing v -> 1 <= i <= len v - 1 ->
  ((a < elt v 0)%Q /\ i = 1
   \/ (elt v (len v - 1) < a)%Q /\ i = len v - 1
   \/ (elt v (i - 1) <= a <= elt v i)%Q) ->
  forall j, 0 <= j <= len v - 1 ->
            (Qabs (a - elt v (if Qlt_le_dec (a - elt v (i - 1)) (elt v i - a)
                              then i - 1 else i))
             <= Qabs (a - elt v j))%Q.
Proof.
  intros Hincr Hi Hb j Hj.
  assert (Hmono : forall p q, 0 <= p -> p <= q -> q <= len v - 1 ->
                              (elt v p <= elt v q)%Q).
  { intros p q Hp Hpq Hq. apply increasing_elt_le; [assumption|lia..]. }
  assert (Hstep : (elt v (i - 1) < elt v i)%Q)
    by (apply increasing_elt; [assumption|lia..]).
  assert (Hleft : forall p, 0 <= p <= i - 1 -> (elt v (i - 1) <= a)%Q ->
                            (Qabs (a - elt v p) == a - elt v p)%Q).
  { intros p Hp Ha. apply Qabs_pos.
    pose proof (Hmono p (i - 1) ltac:(lia) ltac:(lia) ltac:(lia)). lra. }
  assert (Hright : forall p, i <= p <= len v - 1 -> (a <= elt v i)%Q ->
                             (Qabs (a - elt v p) == elt v p - a)%Q).
  { intros p Hp Ha. rewrite Qabs_neg; [ring|].
    pose proof (Hmono i p ltac:(lia) ltac:(lia) ltac:(lia)). lra. }
  destruct (Qlt_le_dec (a - elt v (i - 1)) (elt v i - a)) as [Hnear|Hfar].
  - destruct Hb as [[Hout ->]|[[Hout ->]|[Hb1 Hb2]]].
    + change (1 - 1) with 0 in *.
      pose proof (Hmono 0 j ltac:(lia) ltac:(lia) ltac:(lia)).
      rewrite !Qabs_neg; lra.
    + pose proof (Hmono (len v - 1 - 1) (len v - 1) ltac:(lia) ltac:(lia) ltac:(lia)).
      lra.
    + destruct (Z_le_dec j (i - 1)) as [Hle|Hgt].
      * rewrite (Hleft (i - 1)), (Hleft j) by (try lia; assumption).
        pose proof (Hmono j (i - 1) ltac:(lia) ltac:(lia) ltac:(lia)). lra.
      * rewrite (Hleft (i - 1)), (Hright j) by (try lia; assumption).
        pose proof (Hmono i j ltac:(lia) ltac:(lia) ltac:(lia)). lra.
  - destruct Hb as [[Hout ->]|[[Hout ->]|[Hb1 Hb2]]].
    + change (1 - 1) with 0 in *. lra.
    + pose proof (Hmono j (len v - 1) ltac:(lia) ltac:(lia) ltac:(lia)).
      rewrite !Qabs_pos; lra.
    + destruct (Z_le_dec j (i - 1)) as [Hle|Hgt].
      * rewrite (Hright i), (Hleft j) by (try lia; assumption).
        pose proof (Hmono j (i - 1) ltac:(lia) ltac:(lia) ltac:(lia)). lra.
      * rewrite (Hright i), (Hright j) by (try lia; assumption).
        pose proof (Hmono i j ltac:(lia) ltac:(lia) ltac:(lia)). lra.
Qed.

(** X26.  Under exact arithmetic, in 2D nearest mode every lookup, inside
    the grid or outside, returns the value of a node [(k, l)] such that no
    node of the x axis is closer to [x] than [x[k]] and no node of the y
    axis is closer to [y] than [y[l]].  (The code compares rounded
    differences along each axis.) *)
Theorem closest_node_2d
        (xargs yargs vals dfdx dfdy d2fdxdy : list Q) (ko : option InterpolantXY)
        (t0 : Table2D.Table2DImpl) (pts : list (Q * Q)) (x y : Q) :
  increasing xargs -> increasing yargs ->
  len vals = len xargs * len yargs ->
  Table2D.makeImpl xargs yargs vals (len xargs) (len yargs)
    Table2D.nearest dfdx dfdy d2fdxdy ko = Ok t0 ->
  exists k l,
    0 <= k <= len xargs - 1 /\ 0 <= l <= len yargs - 1
    /\ fst (Table2D.lookup x y (Table2D_after pts t0))
       = Ok (elt vals (k * len yargs + l))
    /\ (forall p, 0 <= p <= len xargs - 1 ->
                  (Qabs (x - elt xargs k) <= Qabs (x - elt xargs p))%Q)
    /\ (forall q, 0 <= q <= len yargs - 1 ->
                  (Qabs (y - elt yargs l) <= Qabs (y - elt yargs q))%Q).
Proof.
  intros Hix Hiy Hlen Hmk.
  pose proof (makeImpl_self _ _ _ _ _ _ _ _ _ _ _ Hmk ltac:(discriminate)) as Hself0.
  destruct (Table2D_state _ _ _ _ _ _ _ _ _ pts Hix Hiy Hlen Hmk)
    as (Hinv & Hxv & Hyv & Hxn & Hyn & Hv & Hny & Hself & Hx2 & Hy2).
  set (t := Table2D_after pts t0) in *. clearbody t.
  destruct (lookup2_bracket t x y Hinv) as (i & j & El & _ & Hi & Hj & Hbx & Hby).
  rewrite Hxv, Hxn in *. rewrite Hyv, Hyn in *. rewrite El.
  pose proof (nearest_axis xargs x i Hix Hi Hbx) as Hnx.
  pose proof (nearest_axis yargs y j Hiy Hj Hby) as Hnyy.
  unfold Table2D.interp. rewrite Hself, Hself0. cbn [derived_of].
  unfold Table2D.Nearest_interp, ArgVec.at_. cbv zeta.
  rewrite Hxv, Hyv, Hv, Hny. rewrite !get_ok by lia. cbn [bind].
  destruct (Qlt_le_dec (x - elt xargs (i - 1)) (elt xargs i - x)),
           (Qlt_le_dec (y - elt yargs (j - 1)) (elt yargs j - y));
    eexists; eexists;
    (split; [|split; [|split; [apply get_ok; rewrite Hlen; apply grid_index; lia|
                             split; [exact Hnx|exact Hnyy]]]]); lia.
Qed.

Lemma closest_node_2d_witness :
  exists k l,
    0 <= k <= len [0; 1; 3]%Q - 1 /\ 0 <= l <= len [0; 1; 3]%Q - 1
    /\ fst (Table2D.lookup (9 # 4) (- (1))
              (Table2D_after [((1 # 2)%Q, (5 # 2)%Q)]
                 (Table2D.mkImpl
                    (ArgVec.mk [0; 1; 3]%Q 3 (1 # 1000000) (2 # 1000000) false
                       (3 # 2) 1)
                    (ArgVec.mk [0; 1; 3]%Q 3 (1 # 1000000) (2 # 1000000) false
                       (3 # 2) 1)
                    [1; 2; 3; 4; 5; 6; 7; 8; 9]%Q 3 Table2D.T2DNearest)))
       = Ok (elt [1; 2; 3; 4; 5; 6; 7; 8; 9]%Q (k * len [0; 1; 3]%Q + l))
    /\ (forall p, 0 <= p <= len [0; 1; 3]%Q - 1 ->
                  (Qabs ((9 # 4) - elt [0; 1; 3]%Q k)
                   <= Qabs ((9 # 4) - elt [0; 1; 3]%Q p))%Q)
    /\ (forall q, 0 <= q <= len [0; 1; 3]%Q - 1 ->
                  (Qabs (- (1) - elt [0; 1; 3]%Q l)
                   <= Qabs (- (1) - elt [0; 1; 3]%Q q))%Q).
Proof.
  apply (closest_node_2d [0; 1; 3]%Q [0; 1; 3]%Q [1; 2; 3; 4; 5; 6; 7; 8; 9]%Q
           [] [] [] None).
  - simpl. repeat split; reflexivity.
  - simpl. repeat split; reflexivity.
  - reflexivity.
  - vm_compute. reflexivity.
Defined.

(** ** Two-dimensional tables: bicubic mode on bilinear data *)

(** X27.  Under exact arithmetic, bicubic mode reproduces bilinear data
    given its derivatives: when the grid holds
    [f(x, y) = a + b x + c y + d x y] and the derivative arrays hold
    [df/dx = b + d y], [df/dy = c + d x] and [d2f/dxdy = d] at every node,
    every lookup returns [f(x, y)] and every gradient call returns
    [(b + d y, c + d x)], inside the grid and outside. *)
Theorem cubic_reproduces_bilinear
        (xargs yargs vals dfdx dfdy d2fdxdy : list Q) (ko : option InterpolantXY)
        (t0 : Table2D.Table2DImpl) (pts : list (Q * Q)) (a b c d x y : Q) :
  increasing xargs -> increasing yargs ->
  len vals = len xargs * len yargs ->
  len dfdx = len xargs * len yargs ->
  len dfdy = len xargs * len yargs ->
  len d2fdxdy = len xargs * len yargs ->
  Table2D.makeImpl xargs yargs vals (len xargs) (len yargs)
    Table2D.cubic dfdx dfdy d2fdxdy ko = Ok t0 ->
  (forall k l, 0 <= k <= len xargs - 1 -> 0 <= l <= len yargs - 1 ->
               (elt vals (k * len yargs + l)
                == a + b * elt xargs k + c * elt yargs l
                   + d * elt xargs k * elt yargs l)%Q
               /\ (elt dfdx (k * len yargs + l) == b + d * elt yargs l)%Q
               /\ (elt dfdy (k * len yargs + l) == c + d * elt xargs k)%Q
               /\ (elt d2fdxdy (k * len yargs + l) == d)%Q) ->
  (exists v, fst (Table2D.lookup x y (Table2D_after pts t0)) = Ok v
             /\ (v == a + b * x + c * y + d * x * y)%Q)
  /\ (exists g, fst (Table2D.gradient x y (Table2D_after pts t0)) = Ok g
                /\ (fst g == b + d * y)%Q /\ (snd g == c + d * x)%Q).
Proof.
  intros Hix Hiy Hlen Hldx Hldy Hld2 Hmk Hbil.
  pose proof (makeImpl_self _ _ _ _ _ _ _ _ _ _ _ Hmk ltac:(discriminate)) as Hself0.
  destruct (Table2D_state _ _ _ _ _ _ _ _ _ pts Hix Hiy Hlen Hmk)
    as (Hinv & Hxv & Hyv & Hxn & Hyn & Hv & Hny & Hself & Hx2 & Hy2).
  set (t := Table2D_after pts t0) in *. clearbody t.
  destruct (lookup2_bracket t x y Hinv) as (i & j & El & Eg & Hi & Hj & _ & _).
  rewrite Hxn in Hi. rewrite Hyn in Hj. rewrite El, Eg.
  unfold Table2D.interp, Table2D.grad. rewrite Hself, Hself0. cbn [derived_of].
  unfold Table2D.Cubic_interp, Table2D.Cubic_grad, ArgVec.at_. cbv zeta.
  rewrite Hxv, Hyv, Hv, Hny.
  rewrite !get_ok
    by first [lia | rewrite ?Hlen, ?Hldx, ?Hldy, ?Hld2; apply grid_index; lia].
  cbn [bind].
  assert (elt xargs (i - 1) < elt xargs i)%Q
    by (apply increasing_elt; [assumption|lia..]).
  assert (elt yargs (j - 1) < elt yargs j)%Q
    by (apply increasing_elt; [assumption|lia..]).
  destruct (Hbil (i - 1) (j - 1) ltac:(lia) ltac:(lia)) as (V00 & X00 & Y00 & D00).
  destruct (Hbil i (j - 1) ltac:(lia) ltac:(lia)) as (V10 & X10 & Y10 & D10).
  destruct (Hbil (i - 1) j ltac:(lia) ltac:(lia)) as (V01 & X01 & Y01 & D01).
  destruct (Hbil i j ltac:(lia) ltac:(lia)) as (V11 & X11 & Y11 & D11).
  unfold Table2D.Cubic_oneDSpline, Table2D.Cubic_oneDGrad.
  split.
  - eexists. split; [reflexivity|].
    rewrite V00, V10, V01, V11, X00, X10, X01, X11, Y00, Y10, Y01, Y11,
      D00, D10, D01, D11.
    field. split; lra.
  - eexists. split; [reflexivity|]. cbn [fst snd].
    rewrite V00, V10, V01, V11, X00, X10, X01, X11, Y00, Y10, Y01, Y11,
      D00, D10, D01, D11.
    split; field; split; lra.
Qed.

Lemma cubic_reproduces_bilinear_witness :
  (exists v,
      fst (Table2D.lookup (1 # 2) 5
             (Table2D_after [((1 # 3)%Q, 1%Q)]
                (Table2D.mkImpl
                   (ArgVec.mk [0; 1]%Q 2 (1 # 1000000) (1 # 1000000) true (1 # 1) 1)
                   (ArgVec.mk [0; 2]%Q 2 (2 # 1000000) (2 # 1000000) true (2 # 1) 1)
                   [1; 7; 3; 17]%Q 2
                   (Table2D.T2DCubic [2; 10; 2; 10]%Q [3; 3; 7; 7]%Q [4; 4; 4; 4]%Q))))
      = Ok v
      /\ (v == 1 + 2 * (1 # 2) + 3 * 5 + 4 * (1 # 2) * 5)%Q)
  /\ (exists g,
         fst (Table2D.gradient (1 # 2) 5
                (Table2D_after [((1 # 3)%Q, 1%Q)]
                   (Table2D.mkImpl
                      (ArgVec.mk [0; 1]%Q 2 (1 # 1000000) (1 # 1000000) true (1 # 1) 1)
                      (ArgVec.mk [0; 2]%Q 2 (2 # 1000000) (2 # 1000000) true (2 # 1) 1)
                      [1; 7; 3; 17]%Q 2
                      (Table2D.T2DCubic [2; 10; 2; 10]%Q [3; 3; 7; 7]%Q
                         [4; 4; 4; 4]%Q))))
         = Ok g
         /\ (fst g == 2 + 4 * 5)%Q /\ (snd g == 3 + 4 * (1 # 2))%Q).
Proof.
  apply (cubic_reproduces_bilinear [0; 1]%Q [0; 2]%Q [1; 7; 3; 17]%Q
           [2; 10; 2; 10]%Q [3; 3; 7; 7]%Q [4; 4; 4; 4]%Q None).
  - simpl. repeat split; reflexivity.
  - simpl. repeat split; reflexivity.
  - reflexivity.
  - reflexivity.
  - reflexivity.
  - reflexivity.
  - vm_compute. reflexivity.
  - intros k l Hk Hl. change (len [0; 1]%Q) with 2 in Hk.
    change (len [0; 2]%Q) with 2 in Hl |- *.
    assert (k = 0 \/ k = 1) as [-> | ->] by lia;
      assert (l = 0 \/ l = 1) as [-> | ->] by lia;
      (split; [reflexivity|]; split; [reflexivity|]; split; reflexivity).
Defined.

(** ** Two-dimensional tables: [gradientMany] *)

(** The loop of [gradientMany] over a table whose gradient calls all
    return. *)
Lemma gradientMany_loop_spec (t0 : Table2D.Table2DImpl) (xvec yvec : list Q) :
  (forall pts x y,
      exists g, Table2D.gradient x y (Table2D_after pts t0)
                = (Ok g, Table2D_after (pts ++ [(x, y)]) t0)) ->
  forall (n : nat) (k : Z) (dfdxvec dfdyvec : list Q) (pts : list (Q * Q)),
    0 <= k -> k + Z.of_nat n <= len xvec -> k + Z.of_nat n <= len yvec ->
    k + Z.of_nat n <= len dfdxvec -> k + Z.of_nat n <= len dfdyvec ->
    exists ox oy,
      Table2D.gradientMany_loop n k xvec yvec dfdxvec dfdyvec (Table2D_after pts t0)
      = (Ok (ox, oy), Table2D_after (pts ++ queries n k xvec yvec) t0)
      /\ len ox = len dfdxvec /\ len oy = len dfdyvec
      /\ (forall q, k <= q < k + Z.of_nat n ->
                    fst (Table2D.gradient (elt xvec q) (elt yvec q)
                           (Table2D_after
                              (pts ++ queries (Z.to_nat (q - k)) k xvec yvec) t0))
                    = Ok (elt ox q, elt oy q))
      /\ (forall q, 0 <= q -> ~ k <= q < k + Z.of_nat n ->
                    elt ox q = elt dfdxvec q /\ elt oy q = elt dfdyvec q).
Proof.
  intros Htotal. induction n as [|n IH]; intros k dfdxvec dfdyvec pts Hk Hx Hy Hdx Hdy.
  - exists dfdxvec, dfdyvec. cbn [queries Table2D.gradientMany_loop].
    rewrite app_nil_r.
    split; [reflexivity|]. split; [reflexivity|]. split; [reflexivity|].
    split; [intros q Hq; lia|]. intros q _ _. split; reflexivity.
  - cbn [Table2D.gradientMany_loop]. unfold mbind at 1, lift at 1.
    rewrite get_ok by lia. unfold mbind at 1, lift at 1.
    rewrite get_ok by lia. unfold mbind at 1.
    destruct (Htotal pts (elt xvec k) (elt yvec k)) as (g & Eg). rewrite Eg.
    unfold mbind at 1, lift at 1. rewrite put_ok by lia.
    unfold mbind at 1, lift at 1. rewrite put_ok by lia.
    destruct (IH (k + 1) (<[Z.to_nat k := fst g]> dfdxvec)
                (<[Z.to_nat k := snd g]> dfdyvec)
                (pts ++ [(elt xvec k, elt yvec k)]))
      as (ox & oy & E & Hlx & Hly & Hin & Hout); try rewrite len_insert; try lia.
    exists ox, oy. rewrite E. cbn [queries]. rewrite <- app_assoc. cbn [app].
    split; [reflexivity|]. split; [now rewrite Hlx, len_insert|].
    split; [now rewrite Hly, len_insert|]. split.
    + intros q Hq. destruct (Z.eq_dec q k) as [->|Hne].
      * destruct (Hout k ltac:(lia) ltac:(lia)) as [-> ->].
        rewrite !elt_insert_eq by lia.
        replace (k - k) with 0 by lia. cbn [Z.to_nat queries].
        rewrite app_nil_r, Eg. cbn [fst]. now destruct g.
      * rewrite <- (Hin q) by lia.
        replace (Z.to_nat (q - k)) with (S (Z.to_nat (q - (k + 1)))) by lia.
        cbn [queries]. rewrite <- app_assoc. reflexivity.
    + intros q Hq Hnot. destruct (Hout q Hq ltac:(lia)) as [-> ->].
      split; apply elt_insert_ne; lia.
Qed.

(** X28.  On a table built in linear mode, [gradientMany] over [N] points
    never fails: it writes the entries [0 .. N-1] of the two output
    arrays and no other, the entries [q] being the pair the gradient call
    at point [q] returns after the calls at the points before it, and it
    leaves the table in the state [N] lookups of these points leave it
    in. *)
Theorem gradientMany_linear
        (xargs yargs vals dfdx dfdy d2fdxdy : list Q) (ko : option InterpolantXY)
        (t0 : Table2D.Table2DImpl) (pts : list (Q * Q))
        (xvec yvec dfdxvec dfdyvec : list Q) (N : Z) :
  increasing xargs -> increasing yargs ->
  len vals = len xargs * len yargs ->
  Table2D.makeImpl xargs yargs vals (len xargs) (len yargs)
    Table2D.linear dfdx dfdy d2fdxdy ko = Ok t0 ->
  0 <= N -> N <= len xvec -> N <= len yvec ->
  N <= len dfdxvec -> N <= len dfdyvec ->
  exists ox oy,
    Table2D.gradientMany xvec yvec dfdxvec dfdyvec N (Table2D_after pts t0)
    = (Ok (ox, oy), Table2D_after (pts ++ queries (Z.to_nat N) 0 xvec yvec) t0)
    /\ len ox = len dfdxvec /\ len oy = len dfdyvec
    /\ (forall q, 0 <= q < N ->
                  fst (Table2D.gradient (elt xvec q) (elt yvec q)
                         (Table2D_after
                            (pts ++ queries (Z.to_nat q) 0 xvec yvec) t0))
                  = Ok (elt ox q, elt oy q))
    /\ (forall q, N <= q -> elt ox q = elt dfdxvec q /\ elt oy q = elt dfdyvec q).
Proof.
  intros Hix Hiy Hlen Hmk HN Hx Hy Hdx Hdy.
  pose proof (makeImpl_self _ _ _ _ _ _ _ _ _ _ _ Hmk ltac:(discriminate)) as Hself0.
  assert (Htotal : forall pts' x y,
             exists g, Table2D.gradient x y (Table2D_after pts' t0)
                       = (Ok g, Table2D_after (pts' ++ [(x, y)]) t0)).
  { intros pts' x y.
    destruct (Table2D_state _ _ _ _ _ _ _ _ _ pts' Hix Hiy Hlen Hmk)
      as (Hinv & Hxv & Hyv & Hxn & Hyn & Hv & Hny & Hself & Hx2 & Hy2).
    rewrite Table2D_after_app.
    set (t := Table2D_after pts' t0) in *. clearbody t.
    unfold Table2D_after. cbn [fold_left fst snd].
    destruct (lookup2_spec t x y Hinv)
      as (i & j & lx & ly & _ & _ & Hi & Hj & _ & _ & El & Eg).
    rewrite El, Eg. cbn [snd].
    rewrite Hxn in Hi. rewrite Hyn in Hj.
    unfold Table2D.grad. rewrite Hself, Hself0. cbn [derived_of].
    unfold Table2D.Linear_grad, ArgVec.at_. cbv zeta.
    rewrite Hxv, Hyv, Hv, Hny.
    rewrite !get_ok by first [lia | rewrite Hlen; apply grid_index; lia].
    cbn [bind]. eexists. reflexivity. }
  destruct (gradientMany_loop_spec t0 xvec yvec Htotal (Z.to_nat N) 0
              dfdxvec dfdyvec pts)
    as (ox & oy & E & Hlx & Hly & Hin & Hout); try lia.
  exists ox, oy. unfold Table2D.gradientMany. rewrite E.
  split; [reflexivity|]. split; [exact Hlx|]. split; [exact Hly|]. split.
  - intros q Hq. rewrite <- (Hin q) by lia.
    replace (q - 0) with q by lia. reflexivity.
  - intros q Hq. apply Hout; lia.
Qed.

Lemma gradientMany_linear_witness :
  exists ox oy,
    Table2D.gradientMany [(1 # 2); 2]%Q [1; (5 # 2)]%Q [0; 0; 42]%Q [0; 0; 43]%Q 2
      (Table2D_after []
         (Table2D.mkImpl
            (ArgVec.mk [0; 1; 3]%Q 3 (1 # 1000000) (2 # 1000000) false (3 # 2) 1)
            (ArgVec.mk [0; 1; 3]%Q 3 (1 # 1000000) (2 # 1000000) false (3 # 2) 1)
            [1; 2; 3; 4; 5; 6; 7; 8; 9]%Q 3 Table2D.T2DLinear))
    = (Ok (ox, oy),
       Table2D_after ([] ++ queries (Z.to_nat 2) 0 [(1 # 2); 2]%Q [1; (5 # 2)]%Q)
         (Table2D.mkImpl
            (ArgVec.mk [0; 1; 3]%Q 3 (1 # 1000000) (2 # 1000000) false (3 # 2) 1)
            (ArgVec.mk [0; 1; 3]%Q 3 (1 # 1000000) (2 # 1000000) false (3 # 2) 1)
            [1; 2; 3; 4; 5; 6; 7; 8; 9]%Q 3 Table2D.T2DLinear))
    /\ len ox = len [0; 0; 42]%Q /\ len oy = len [0; 0; 43]%Q
    /\ (forall q, 0 <= q < 2 ->
                  fst (Table2D.gradient (elt [(1 # 2); 2]%Q q) (elt [1; (5 # 2)]%Q q)
                         (Table2D_after
                            ([] ++ queries (Z.to_nat q) 0 [(1 # 2); 2]%Q
                                     [1; (5 # 2)]%Q)
                            (Table2D.mkImpl
                               (ArgVec.mk [0; 1; 3]%Q 3 (1 # 1000000) (2 # 1000000)
                                  false (3 # 2) 1)
                               (ArgVec.mk [0; 1; 3]%Q 3 (1 # 1000000) (2 # 1000000)
                                  false (3 # 2) 1)
                               [1; 2; 3; 4; 5; 6; 7; 8; 9]%Q 3 Table2D.T2DLinear)))
                  = Ok (elt ox q, elt oy q))
    /\ (forall q, 2 <= q ->
                  elt ox q = elt [0; 0; 42]%Q q /\ elt oy q = elt [0; 0; 43]%Q q).
Proof.
  apply (gradientMany_linear [0; 1; 3]%Q [0; 1; 3]%Q [1; 2; 3; 4; 5; 6; 7; 8; 9]%Q
           [] [] [] None).
  - simpl. repeat split; reflexivity.
  - simpl. repeat split; reflexivity.
  - reflexivity.
  - vm_compute. reflexivity.
  - lia.
  - vm_compute. discriminate.
  - vm_compute. discriminate.
  - vm_compute. discriminate.
  - vm_compute. discriminate.
Defined.
